(** * GOnSales: the data manager and the cache manager

    A shallow embedding of the two classes that carry the data layer of the
    dashboard:

    - [DataManager] (the data-management module): schema validation,
      business rules, add / update / delete / query / import on named
      stores, and the save / load of the stores through [localStorage];
    - [CacheManager] (the performance module): the three cache tiers
      (a [Map] in memory, [sessionStorage], [localStorage]), TTL validity,
      eviction, cleanup and the automatic choice of a tier.

    The JavaScript values the two classes handle are embedded first
    (numbers, strings, Dates, arrays, plain objects, with the coercions the
    operators of the source perform), then [JSON.stringify] and
    [JSON.parse], then the classes, function by function and under the
    names of the source.

    Boundaries of the embedding, chosen once and used throughout:

    - a number is an exact rational or one of [Infinity], [-Infinity],
      [NaN]; the rounding of binary64 and the negative zero are not
      represented (every whole number and every decimal literal stands
      for itself);
    - a string is a sequence of code units below 256; its [length] is the
      number of these units, and a JSON escape above [\u00ff] is refused;
    - a property is an own data property; objects list their properties
      in insertion order; functions and inherited members are not values,
      so that an own property [toString] of an object is never callable
      and the conversion of such an object to a primitive raises;
    - two values of reference type (Date, array, object) are never
      identical under [===];
    - a Date prints through [toString] as on a host in the UTC zone;
    - the clock ([Date.now()], [new Date()]) is read once per call of a
      public method and is passed as the argument [now], in milliseconds;
      the string [generateId()] returns is passed as the argument [fresh];
    - [localStorage] and [sessionStorage] list their keys in insertion
      order; whether [setItem] accepts a write or raises is decided by
      the browser, and that decision is a part of the page;
    - the [filter] of a query is a total predicate without effects, and
      the TTL of a cache entry is a whole number of milliseconds. *)

From Stdlib Require Import ZArith QArith List String Ascii Bool Lia DecimalString.
From Stdlib Require DecimalPos DecimalFacts Permutation.
Import ListNotations.

Set Implicit Arguments.

Local Open Scope string_scope.
Local Open Scope Z_scope.

(* ================================================================== *)
(** * Part I.  JavaScript values                                        *)
(* ================================================================== *)

(** ** Numbers *)

Inductive jsnum : Type :=
| Fin (q : Q)
| PInf
| NInf
| NaN.

Definition num_of_Z (z : Z) : jsnum := Fin (inject_Z z).

Definition Qltb (a b : Q) : bool := negb (Qle_bool b a).

Definition Qis_zero (a : Q) : bool := Qeq_bool a 0.

(** [a < b] on numbers: false as soon as one side is [NaN]. *)
Definition num_ltb (a b : jsnum) : bool :=
  match a, b with
  | NaN, _ | _, NaN => false
  | Fin x, Fin y => Qltb x y
  | Fin _, PInf => true
  | NInf, Fin _ => true
  | NInf, PInf => true
  | _, _ => false
  end.

(** [a === b] on numbers. *)
Definition num_eqb (a b : jsnum) : bool :=
  match a, b with
  | Fin x, Fin y => Qeq_bool x y
  | PInf, PInf | NInf, NInf => true
  | _, _ => false
  end.

Definition num_neg (a : jsnum) : jsnum :=
  match a with
  | Fin x => Fin (Qred (- x))
  | PInf => NInf
  | NInf => PInf
  | NaN => NaN
  end.

Definition num_add (a b : jsnum) : jsnum :=
  match a, b with
  | NaN, _ | _, NaN => NaN
  | Fin x, Fin y => Fin (Qred (x + y))
  | PInf, NInf | NInf, PInf => NaN
  | PInf, _ | _, PInf => PInf
  | NInf, _ | _, NInf => NInf
  end.

Definition num_sub (a b : jsnum) : jsnum := num_add a (num_neg b).

(** [a / b]: a division by zero gives an infinity, or [NaN] for [0 / 0]. *)
Definition num_div (a b : jsnum) : jsnum :=
  match a, b with
  | NaN, _ | _, NaN => NaN
  | Fin x, Fin y =>
      if Qis_zero y then
        if Qis_zero x then NaN
        else if Qltb 0 x then PInf else NInf
      else Fin (Qred (x / y))
  | Fin _, _ => Fin 0
  | PInf, Fin y => if Qltb y 0 then NInf else PInf
  | NInf, Fin y => if Qltb y 0 then PInf else NInf
  | _, _ => NaN
  end.

(** ** Decimal text of integers and of numbers ([Number::toString]) *)

Definition Z_to_string (z : Z) : string := NilZero.string_of_int (Z.to_int z).

Fixpoint repeat_string (n : nat) (s : string) : string :=
  match n with
  | O => EmptyString
  | S n' => s ++ repeat_string n' s
  end.

Definition pad_left (width : nat) (s : string) : string :=
  repeat_string (width - String.length s) "0" ++ s.

(** How often [p] divides [d] (at most [fuel] times), and what is left. *)
Fixpoint strip_factor (fuel : nat) (p d : Z) (count : Z) : Z * Z :=
  match fuel with
  | O => (count, d)
  | S fuel' =>
      if (d mod p =? 0) && negb (d =? 0)
      then strip_factor fuel' p (d / p) (count + 1)
      else (count, d)
  end.

Definition Zsize (z : Z) : nat := S (Z.to_nat (Z.log2 (Z.abs z))).

(** The number of decimal digits of a positive integer. *)
Definition digits_of (z : Z) : Z := Z.of_nat (String.length (Z_to_string z)).

(** For a positive rational [q], the pair [(s, e)] with [q = s * 10^e] and
    [s] not a multiple of ten.  A rational with no finite decimal
    expansion is cut to seventeen significant digits. *)
Definition decimal_of (q : Q) : Z * Z :=
  let q := Qred q in
  let a := Qnum q in
  let b := Zpos (Qden q) in
  let '(c2, r2) := strip_factor (Zsize b) 2 b 0 in
  let '(c5, r5) := strip_factor (Zsize b) 5 r2 0 in
  let j :=
    if r5 =? 1 then Z.max c2 c5
    else 17 - (digits_of (Z.max 1 (a / b))) + (if a <? b then digits_of (b / Z.max 1 a) else 0) in
  let m := (2 * a * 10 ^ j + b) / (2 * b) in
  let '(z, s) := strip_factor (Zsize m) 10 m 0 in
  (s, z - j).

Definition string_take (n : Z) (s : string) : string := substring 0 (Z.to_nat n) s.
Definition string_drop (n : Z) (s : string) : string :=
  substring (Z.to_nat n) (String.length s - Z.to_nat n) s.

(** [Number::toString] on a positive rational, by the four layouts of the
    language definition ([k] digits, decimal point after the [n]-th). *)
Definition positive_to_string (q : Q) : string :=
  let '(s, e) := decimal_of q in
  let ds := Z_to_string s in
  let k := digits_of s in
  let n := k + e in
  if (k <=? n) && (n <=? 21) then ds ++ repeat_string (Z.to_nat (n - k)) "0"
  else if (0 <? n) && (n <=? 21) then string_take n ds ++ "." ++ string_drop n ds
  else if (-6 <? n) && (n <=? 0) then "0." ++ repeat_string (Z.to_nat (- n)) "0" ++ ds
  else
    let ex := (if n - 1 <? 0 then "-" else "+") ++ Z_to_string (Z.abs (n - 1)) in
    if k =? 1 then ds ++ "e" ++ ex
    else string_take 1 ds ++ "." ++ string_drop 1 ds ++ "e" ++ ex.

Definition number_to_string (x : jsnum) : string :=
  match x with
  | NaN => "NaN"
  | PInf => "Infinity"
  | NInf => "-Infinity"
  | Fin q =>
      if Qis_zero q then "0"
      else if Qltb q 0 then "-" ++ positive_to_string (Qopp q)
      else positive_to_string q
  end.

(** ** Characters and strings *)

Definition code (c : ascii) : Z := Z.of_N (N_of_ascii c).

Definition is_digit (c : ascii) : bool := (48 <=? code c) && (code c <=? 57).
Definition is_alpha (c : ascii) : bool :=
  ((65 <=? code c) && (code c <=? 90)) || ((97 <=? code c) && (code c <=? 122)).
Definition is_hex (c : ascii) : bool :=
  is_digit c || ((65 <=? code c) && (code c <=? 70)) || ((97 <=? code c) && (code c <=? 102)).

(** White space of [StringToNumber] and of [String.prototype.trim]. *)
Definition is_space (c : ascii) : bool :=
  ((9 <=? code c) && (code c <=? 13)) || (code c =? 32) || (code c =? 160).

Definition digit_val (c : ascii) : Z :=
  if is_digit c then code c - 48
  else if (97 <=? code c) then code c - 87
  else code c - 55.

Definition digits_value (base : Z) (ds : list ascii) : Z :=
  fold_left (fun acc c => base * acc + digit_val c) ds 0.

Fixpoint take_while (p : ascii -> bool) (s : list ascii) : list ascii * list ascii :=
  match s with
  | c :: r => if p c then let '(a, b) := take_while p r in (c :: a, b) else ([], s)
  | [] => ([], [])
  end.

Fixpoint drop_while (p : ascii -> bool) (s : list ascii) : list ascii :=
  match s with
  | c :: r => if p c then drop_while p r else s
  | [] => []
  end.

Definition chars (s : string) : list ascii := list_ascii_of_string s.
Definition text (l : list ascii) : string := string_of_list_ascii l.

Definition is_nil {A} (l : list A) : bool := match l with [] => true | _ => false end.

(** [s < t] on strings: the order of the code units. *)
Fixpoint chars_ltb (s t : list ascii) : bool :=
  match s, t with
  | _, [] => false
  | [], _ :: _ => true
  | a :: s', b :: t' =>
      if code a <? code b then true
      else if code b <? code a then false
      else chars_ltb s' t'
  end.

Definition string_ltb (s t : string) : bool := chars_ltb (chars s) (chars t).

Fixpoint starts_with (p s : list ascii) : option (list ascii) :=
  match p, s with
  | [], _ => Some s
  | a :: p', b :: s' => if Ascii.eqb a b then starts_with p' s' else None
  | _ :: _, [] => None
  end.

Definition startsWith (s p : string) : bool :=
  match starts_with (chars p) (chars s) with Some _ => true | None => false end.

Fixpoint join (sep : string) (l : list string) : string :=
  match l with
  | [] => EmptyString
  | [x] => x
  | x :: r => x ++ sep ++ join sep r
  end.

(** ** Reading decimal numerals *)

Definition scale10 (m e : Z) : Q :=
  if 0 <=? e then inject_Z (m * 10 ^ e)
  else Qred (Qmake m (Z.to_pos (10 ^ (- e)))).

(** An exponent part [e[+-]ddd], when there is one. *)
Definition scan_exponent (s : list ascii) : Z * list ascii :=
  match s with
  | c :: r =>
      if (code c =? 101) || (code c =? 69) then
        let '(sign, r1) :=
          match r with
          | d :: r' =>
              if code d =? 45 then (-1, r')
              else if code d =? 43 then (1, r')
              else (1, r)
          | [] => (1, r)
          end in
        let '(ds, r2) := take_while is_digit r1 in
        if is_nil ds then (0, s) else (sign * digits_value 10 ds, r2)
      else (0, s)
  | [] => (0, s)
  end.

(** An unsigned decimal literal: integer part, fraction, exponent.  With
    [strict] the integer part is required, has no leading zero, and a
    point is followed by a digit (the JSON grammar); without it one of the
    two digit runs may be empty (the grammar of [StringToNumber]). *)
Definition scan_decimal (strict : bool) (s : list ascii) : option (Q * list ascii) :=
  let '(ip, r1) := take_while is_digit s in
  let '(dot, fp, r2) :=
    match r1 with
    | c :: r =>
        if code c =? 46 then let '(f, r') := take_while is_digit r in (true, f, r')
        else (false, [], r1)
    | [] => (false, [], r1)
    end in
  let leading_zero :=
    match ip with
    | c :: _ :: _ => code c =? 48
    | _ => false
    end in
  let ok :=
    if strict then negb (is_nil ip) && negb leading_zero && (negb dot || negb (is_nil fp))
    else negb (is_nil ip) || negb (is_nil fp) in
  if ok then
    let '(e, r3) := scan_exponent r2 in
    Some (scale10 (digits_value 10 (ip ++ fp)) (e - Z.of_nat (List.length fp)), r3)
  else None.

Definition trim_chars (s : list ascii) : list ascii :=
  rev (drop_while is_space (rev (drop_while is_space s))).

Definition radix_literal (base : Z) (p : ascii -> bool) (ds : list ascii) : jsnum :=
  if negb (is_nil ds) && forallb p ds then num_of_Z (digits_value base ds) else NaN.

(** [StringToNumber]: what [Number(s)] and the arithmetic operators make
    of a string. *)
Definition StringToNumber (s : string) : jsnum :=
  let t := trim_chars (chars s) in
  match t with
  | [] => num_of_Z 0
  | c :: r =>
      let prefixed :=
        match r with
        | x :: ds =>
            if code c =? 48 then
              if (code x =? 120) || (code x =? 88) then Some (radix_literal 16 is_hex ds)
              else if (code x =? 111) || (code x =? 79)
              then Some (radix_literal 8 (fun d => (48 <=? code d) && (code d <=? 55)) ds)
              else if (code x =? 98) || (code x =? 66)
              then Some (radix_literal 2 (fun d => (48 <=? code d) && (code d <=? 49)) ds)
              else None
            else None
        | [] => None
        end in
      match prefixed with
      | Some x => x
      | None =>
          let '(negative, body) :=
            if code c =? 45 then (true, r)
            else if code c =? 43 then (false, r)
            else (false, t) in
          let magnitude :=
            match starts_with (chars "Infinity") body with
            | Some [] => PInf
            | Some _ => NaN
            | None =>
                match scan_decimal false body with
                | Some (q, []) => Fin q
                | _ => NaN
                end
            end in
          if negative then num_neg magnitude else magnitude
      end
  end.

(** ** Dates *)

(** The civil date [(year, month, day)] of a day number counted from
    1970-01-01, in the proleptic Gregorian calendar. *)
Definition civil_from_days (days : Z) : Z * Z * Z :=
  let z := days + 719468 in
  let era := z / 146097 in
  let doe := z - era * 146097 in
  let yoe := (doe - doe / 1460 + doe / 36524 - doe / 146096) / 365 in
  let doy := doe - (365 * yoe + yoe / 4 - yoe / 100) in
  let mp := (5 * doy + 2) / 153 in
  let d := doy - (153 * mp + 2) / 5 + 1 in
  let m := if mp <? 10 then mp + 3 else mp - 9 in
  let y := yoe + era * 400 + (if m <=? 2 then 1 else 0) in
  (y, m, d).

Definition pad2 (z : Z) : string := pad_left 2 (Z_to_string z).
Definition pad3 (z : Z) : string := pad_left 3 (Z_to_string z).

Definition clock_text (ms : Z) : string :=
  pad2 (ms / 3600000) ++ ":" ++ pad2 (ms / 60000 mod 60) ++ ":" ++ pad2 (ms / 1000 mod 60).

(** [Date.prototype.toISOString]. *)
Definition toISOString (t : Z) : string :=
  let '(y, m, d) := civil_from_days (t / 86400000) in
  let ms := t mod 86400000 in
  let year :=
    if (0 <=? y) && (y <=? 9999) then pad_left 4 (Z_to_string y)
    else (if y <? 0 then "-" else "+") ++ pad_left 6 (Z_to_string (Z.abs y)) in
  year ++ "-" ++ pad2 m ++ "-" ++ pad2 d ++ "T" ++ clock_text ms ++ "." ++ pad3 (ms mod 1000) ++ "Z".

Definition day_names : list string := ["Sun"; "Mon"; "Tue"; "Wed"; "Thu"; "Fri"; "Sat"].
Definition month_names : list string :=
  ["Jan"; "Feb"; "Mar"; "Apr"; "May"; "Jun"; "Jul"; "Aug"; "Sep"; "Oct"; "Nov"; "Dec"].

(** [Date.prototype.toString], as a host in the UTC zone prints it. *)
Definition date_to_string (t : Z) : string :=
  let days := t / 86400000 in
  let '(y, m, d) := civil_from_days days in
  nth (Z.to_nat ((days + 4) mod 7)) day_names EmptyString ++ " " ++
  nth (Z.to_nat (m - 1)) month_names EmptyString ++ " " ++ pad2 d ++ " " ++
  (if y <? 0 then "-" ++ pad_left 6 (Z_to_string (- y)) else pad_left 4 (Z_to_string y)) ++ " " ++
  clock_text (t mod 86400000) ++ " GMT+0000 (Coordinated Universal Time)".

(** ** Exceptions *)

Inductive exn : Type :=
| TypeError                           (* raised by the language itself *)
| SyntaxError                         (* raised by [JSON.parse] *)
| QuotaExceededError                  (* raised by [Storage.setItem] *)
| Error (message : string).           (* [throw new Error(message)] *)

Inductive outcome (A : Type) : Type :=
| Return (a : A)
| Throw (e : exn).

Arguments Return {A} a.
Arguments Throw {A} e.

Definition bind {A B} (m : outcome A) (f : A -> outcome B) : outcome B :=
  match m with
  | Return a => f a
  | Throw e => Throw e
  end.

Definition read {A} (o : option A) : outcome A :=
  match o with
  | Some a => Return a
  | None => Throw TypeError
  end.

(** A test that has returned [true]. *)
Definition holds (o : outcome bool) : bool :=
  match o with
  | Return b => b
  | Throw _ => false
  end.

Declare Scope js_scope.
Delimit Scope js_scope with js.
Notation "x <- m ;; k" := (bind m (fun x => k))
  (at level 61, m at next level, right associativity) : js_scope.

(** ** Values *)

Unset Elimination Schemes.

Inductive jsval : Type :=
| VUndef
| VNull
| VBool (b : bool)
| VNum (x : jsnum)
| VStr (s : string)
| VDate (t : Z)                       (* a Date object, by its time value *)
| VArr (items : list jsval)
| VObj (props : list (string * jsval)).

Set Elimination Schemes.

Definition VInt (z : Z) : jsval := VNum (num_of_Z z).

(** A value in a condition ([if (v)], [v || w], [v && w]). *)
Definition truthy (v : jsval) : bool :=
  match v with
  | VUndef | VNull => false
  | VBool b => b
  | VNum (Fin q) => negb (Qis_zero q)
  | VNum NaN => false
  | VNum _ => true
  | VStr s => negb (String.eqb s EmptyString)
  | VDate _ | VArr _ | VObj _ => true
  end.

(** [a === b]. *)
Definition strict_eq (a b : jsval) : bool :=
  match a, b with
  | VUndef, VUndef | VNull, VNull => true
  | VBool x, VBool y => Bool.eqb x y
  | VNum x, VNum y => num_eqb x y
  | VStr x, VStr y => String.eqb x y
  | _, _ => false
  end.

Definition is_undefined (v : jsval) : bool :=
  match v with VUndef => true | _ => false end.
Definition is_null (v : jsval) : bool :=
  match v with VNull => true | _ => false end.

(** Property lists: [o[k]] and [o[k] = v] on the own properties. *)
Fixpoint assoc {A} (k : string) (l : list (string * A)) : option A :=
  match l with
  | [] => None
  | (k', v) :: r => if String.eqb k k' then Some v else assoc k r
  end.

Fixpoint assoc_set {A} (k : string) (v : A) (l : list (string * A)) : list (string * A) :=
  match l with
  | [] => [(k, v)]
  | (k', v') :: r => if String.eqb k k' then (k, v) :: r else (k', v') :: assoc_set k v r
  end.

Fixpoint assoc_remove {A} (k : string) (l : list (string * A)) : list (string * A) :=
  match l with
  | [] => []
  | (k', v') :: r => if String.eqb k k' then r else (k', v') :: assoc_remove k r
  end.

(** An array index written as a property name ("0", "1", "17"). *)
Definition index_of_key (k : string) : option nat :=
  let cs := chars k in
  if negb (is_nil cs) && forallb is_digit cs && String.eqb (Z_to_string (digits_value 10 cs)) k
  then Some (Z.to_nat (digits_value 10 cs))
  else None.

(** [v[k]]; [None] is the [TypeError] of a read on [undefined] or [null]. *)
Definition get_prop (v : jsval) (k : string) : option jsval :=
  match v with
  | VUndef | VNull => None
  | VObj l => Some (match assoc k l with Some x => x | None => VUndef end)
  | VArr l =>
      if String.eqb k "length" then Some (VInt (Z.of_nat (List.length l)))
      else match index_of_key k with
           | Some i => Some (nth i l VUndef)
           | None => Some VUndef
           end
  | VStr s =>
      if String.eqb k "length" then Some (VInt (Z.of_nat (String.length s)))
      else match index_of_key k with
           | Some i => Some (match String.get i s with
                             | Some c => VStr (String c EmptyString)
                             | None => VUndef
                             end)
           | None => Some VUndef
           end
  | _ => Some VUndef
  end.

Fixpoint indexed {A} (i : Z) (l : list A) : list (string * A) :=
  match l with
  | [] => []
  | x :: r => (Z_to_string i, x) :: indexed (i + 1) r
  end.

(** The properties an object spread [{...v}] copies. *)
Definition own_props (v : jsval) : list (string * jsval) :=
  match v with
  | VObj l => l
  | VArr l => indexed 0 l
  | VStr s => indexed 0 (map (fun c => VStr (String c EmptyString)) (chars s))
  | _ => []
  end.

(** [{...base, k1: v1, ...}]: later properties overwrite earlier ones in
    place. *)
Definition assign (base extra : list (string * jsval)) : list (string * jsval) :=
  fold_left (fun acc kv => assoc_set (fst kv) (snd kv) acc) extra base.

(** [String(v)], the text a template literal and [RegExp.prototype.test]
    make of a value.  An array is joined from the texts of its elements.
    An object gives "[object Object]" through the [toString] it inherits;
    an own property [toString] hides that method and is itself no
    function, [valueOf] returns the object, and the conversion is left
    with nothing to call: it raises a [TypeError]. *)
Fixpoint ToString (v : jsval) : outcome string :=
  match v with
  | VUndef => Return "undefined"
  | VNull => Return "null"
  | VBool true => Return "true"
  | VBool false => Return "false"
  | VNum x => Return (number_to_string x)
  | VStr s => Return s
  | VDate t => Return (date_to_string t)
  | VArr l =>
      bind ((fix each (l : list jsval) : outcome (list string) :=
               match l with
               | [] => Return []
               | x :: r =>
                   bind (match x with
                         | VUndef | VNull => Return EmptyString
                         | _ => ToString x
                         end) (fun s =>
                   bind (each r) (fun ss => Return (s :: ss)))
               end) l)
           (fun ss => Return (join "," ss))
  | VObj props =>
      match assoc "toString" props with
      | Some _ => Throw TypeError
      | None => Return "[object Object]"
      end
  end.

(** [ToPrimitive] with the hint "number": a Date gives its time value,
    arrays and objects give their text, or raise as [ToString] does. *)
Definition ToPrimitive (v : jsval) : outcome jsval :=
  match v with
  | VDate t => Return (VInt t)
  | VArr _ | VObj _ => bind (ToString v) (fun s => Return (VStr s))
  | _ => Return v
  end.

(** [ToNumber] on a primitive value. *)
Definition number_of (p : jsval) : jsnum :=
  match p with
  | VUndef => NaN
  | VNull => num_of_Z 0
  | VBool true => num_of_Z 1
  | VBool false => num_of_Z 0
  | VNum x => x
  | VStr s => StringToNumber s
  | _ => NaN
  end.

Definition ToNumber (v : jsval) : outcome jsnum :=
  bind (ToPrimitive v) (fun p => Return (number_of p)).

(** [pa < pb] on two primitive values: two strings compare as strings,
    everything else as numbers. *)
Definition less_than (pa pb : jsval) : bool :=
  match pa, pb with
  | VStr s, VStr t => string_ltb s t
  | _, _ => num_ltb (number_of pa) (number_of pb)
  end.

(** [a < b] and [a > b]: both operands are made primitive, the left one
    first. *)
Definition js_lt (a b : jsval) : outcome bool :=
  bind (ToPrimitive a) (fun pa =>
  bind (ToPrimitive b) (fun pb => Return (less_than pa pb))).

Definition js_gt (a b : jsval) : outcome bool :=
  bind (ToPrimitive a) (fun pa =>
  bind (ToPrimitive b) (fun pb => Return (less_than pb pa))).

Definition js_sub (a b : jsval) : outcome jsval :=
  bind (ToNumber a) (fun x =>
  bind (ToNumber b) (fun y => Return (VNum (num_sub x y)))).

Definition js_div (a b : jsval) : outcome jsval :=
  bind (ToNumber a) (fun x =>
  bind (ToNumber b) (fun y => Return (VNum (num_div x y)))).

(* ================================================================== *)
(** * Part II.  JSON                                                    *)
(* ================================================================== *)

(** ** [JSON.stringify] *)

Definition hex_digit (n : Z) : ascii :=
  ascii_of_N (Z.to_N (if n <? 10 then 48 + n else 87 + n)).

Definition dquote : ascii := ascii_of_N 34.

Definition quote_char (c : ascii) : list ascii :=
  let n := code c in
  if n =? 34 then chars "\" ++ [dquote]
  else if n =? 92 then chars "\\"
  else if n =? 8 then chars "\b"
  else if n =? 12 then chars "\f"
  else if n =? 10 then chars "\n"
  else if n =? 13 then chars "\r"
  else if n =? 9 then chars "\t"
  else if n <? 32 then chars "\u00" ++ [hex_digit (n / 16); hex_digit (n mod 16)]
  else [c].

(** [JSON.stringify(s)] for a string [s]: the quoted text. *)
Definition JSON_quote (s : string) : string :=
  text (dquote :: flat_map quote_char (chars s) ++ [dquote]).

(** [JSON.stringify(v)]; [None] is the result [undefined].  A Date is
    written through [toJSON], a number that is not finite as [null], an
    [undefined] member is left out of an object and written [null] in an
    array. *)
Fixpoint JSON_stringify (v : jsval) : option string :=
  match v with
  | VUndef => None
  | VNull => Some "null"
  | VBool true => Some "true"
  | VBool false => Some "false"
  | VNum (Fin q) => Some (number_to_string (Fin q))
  | VNum _ => Some "null"
  | VStr s => Some (JSON_quote s)
  | VDate t => Some (JSON_quote (toISOString t))
  | VArr l =>
      Some ("[" ++ join "," (map (fun x => match JSON_stringify x with
                                             | Some s => s
                                             | None => "null"
                                             end) l) ++ "]")
  | VObj l =>
      Some ("{" ++ join "," (flat_map (fun kv => match JSON_stringify (snd kv) with
                                                   | Some s => [JSON_quote (fst kv) ++ ":" ++ s]
                                                   | None => []
                                                   end) l) ++ "}")
  end.

(** ** [JSON.parse] *)

Definition is_json_space (c : ascii) : bool :=
  (code c =? 32) || (code c =? 9) || (code c =? 10) || (code c =? 13).

Definition skip_ws (s : list ascii) : list ascii := drop_while is_json_space s.

(** The characters of a string literal after its opening quote. *)
Fixpoint parse_string (s : list ascii) (acc : list ascii) : option (string * list ascii) :=
  match s with
  | [] => None
  | c :: r =>
      if code c =? 34 then Some (text (rev acc), r)
      else if code c <? 32 then None
      else if code c =? 92 then
        match r with
        | e :: r' =>
            let plain (x : Z) := parse_string r' (ascii_of_N (Z.to_N x) :: acc) in
            if code e =? 34 then plain 34
            else if code e =? 92 then plain 92
            else if code e =? 47 then plain 47
            else if code e =? 98 then plain 8
            else if code e =? 102 then plain 12
            else if code e =? 110 then plain 10
            else if code e =? 114 then plain 13
            else if code e =? 116 then plain 9
            else if code e =? 117 then
              match r' with
              | h1 :: h2 :: h3 :: h4 :: r'' =>
                  let n := digits_value 16 [h1; h2; h3; h4] in
                  if forallb is_hex [h1; h2; h3; h4] && (n <? 256)
                  then parse_string r'' (ascii_of_N (Z.to_N n) :: acc)
                  else None
              | _ => None
              end
            else None
        | [] => None
        end
      else parse_string r (c :: acc)
  end.

Definition parse_number (s : list ascii) : option (jsval * list ascii) :=
  let '(negative, body) :=
    match s with
    | c :: r => if code c =? 45 then (true, r) else (false, s)
    | [] => (false, s)
    end in
  match scan_decimal true body with
  | Some (q, r) => Some (VNum (Fin (if negative then Qred (- q) else q)), r)
  | None => None
  end.

Definition parse_literal (word : string) (v : jsval) (s : list ascii) : option (jsval * list ascii) :=
  match starts_with (chars word) s with
  | Some r => Some (v, r)
  | None => None
  end.

(** One JSON value at the head of [s], and the characters after it. *)
Fixpoint parse_value (fuel : nat) (s : list ascii) : option (jsval * list ascii) :=
  match fuel with
  | O => None
  | S fuel' =>
      match skip_ws s with
      | [] => None
      | c :: r =>
          if code c =? 91 then
            match skip_ws r with
            | d :: r' => if code d =? 93 then Some (VArr [], r') else parse_array fuel' r []
            | [] => None
            end
          else if code c =? 123 then
            match skip_ws r with
            | d :: r' => if code d =? 125 then Some (VObj [], r') else parse_object fuel' r []
            | [] => None
            end
          else if code c =? 34 then
            match parse_string r [] with
            | Some (str, r') => Some (VStr str, r')
            | None => None
            end
          else if code c =? 110 then parse_literal "null" VNull (c :: r)
          else if code c =? 116 then parse_literal "true" (VBool true) (c :: r)
          else if code c =? 102 then parse_literal "false" (VBool false) (c :: r)
          else parse_number (c :: r)
      end
  end
with parse_array (fuel : nat) (s : list ascii) (acc : list jsval) : option (jsval * list ascii) :=
  match fuel with
  | O => None
  | S fuel' =>
      match parse_value fuel' s with
      | Some (v, r) =>
          match skip_ws r with
          | c :: r' =>
              if code c =? 44 then parse_array fuel' r' (v :: acc)
              else if code c =? 93 then Some (VArr (rev (v :: acc)), r')
              else None
          | [] => None
          end
      | None => None
      end
  end
with parse_object (fuel : nat) (s : list ascii) (acc : list (string * jsval)) : option (jsval * list ascii) :=
  match fuel with
  | O => None
  | S fuel' =>
      match skip_ws s with
      | q :: r0 =>
          if code q =? 34 then
            match parse_string r0 [] with
            | Some (k, r1) =>
                match skip_ws r1 with
                | colon :: r2 =>
                    if code colon =? 58 then
                      match parse_value fuel' r2 with
                      | Some (v, r3) =>
                          match skip_ws r3 with
                          | c :: r4 =>
                              if code c =? 44 then parse_object fuel' r4 (assoc_set k v acc)
                              else if code c =? 125 then Some (VObj (assoc_set k v acc), r4)
                              else None
                          | [] => None
                          end
                      | None => None
                      end
                    else None
                | [] => None
                end
            | None => None
            end
          else None
      | [] => None
      end
  end.

(** [JSON.parse(text)]; [None] is the [SyntaxError]. *)
Definition JSON_parse (s : string) : option jsval :=
  match parse_value (2 * String.length s + 2) (chars s) with
  | Some (v, r) => if is_nil (skip_ws r) then Some v else None
  | None => None
  end.

(* ================================================================== *)
(** * Part III.  The page: Web storage and the two managers            *)
(* ================================================================== *)

(** ** [Storage] ([localStorage], [sessionStorage]) *)

Definition Storage : Type := list (string * string).

Definition getItem (k : string) (st : Storage) : option string := assoc k st.
Definition removeItem (k : string) (st : Storage) : Storage := assoc_remove k st.
Definition storage_keys (st : Storage) : list string := map fst st.

(** The say of the browser on a write: [accepts st k v] tells whether
    [setItem(k, v)] goes through on a storage that holds [st].  A browser
    refuses when its quota is exceeded, or when it keeps no storage at
    all. *)
Definition Quota : Type := Storage -> string -> string -> bool.

(** [setItem(k, v)]: the item is written, or the call raises and the
    storage stays as it is. *)
Definition setItem (accepts : Quota) (k v : string) (st : Storage) : outcome Storage :=
  if accepts st k v then Return (assoc_set k v st) else Throw QuotaExceededError.

(** The number of code units a storage holds, keys and values. *)
Definition storage_size (st : Storage) : Z :=
  fold_right (fun kv n => Z.of_nat (String.length (fst kv) + String.length (snd kv)) + n) 0 st.

(** The quota of five megabytes that browsers grant by default: a write
    goes through when the storage stays within it. *)
Definition five_megabytes : Quota :=
  fun st k v => storage_size (assoc_set k v st) <=? 5 * 1024 * 1024.

(** ** Schemas *)

Inductive field_type : Type := TString | TNumber | TDate.

(** The patterns of the schemas are anchored sequences of character
    classes with a repetition count: [/^DSR\d{3}$/] is three literals and
    [\d{3}]. *)
Inductive char_class : Type :=
| Lit (c : ascii)
| Digit
| Alpha.

Definition regex : Type := list (char_class * nat * nat).

Definition in_class (k : char_class) (c : ascii) : bool :=
  match k with
  | Lit l => Ascii.eqb l c
  | Digit => is_digit c
  | Alpha => is_alpha c
  end.

(** Exactly [n] characters of the class at the head of [s]. *)
Fixpoint consume (k : char_class) (n : nat) (s : list ascii) : option (list ascii) :=
  match n with
  | O => Some s
  | S n' =>
      match s with
      | c :: r => if in_class k c then consume k n' r else None
      | [] => None
      end
  end.

Fixpoint regex_match (r : regex) (s : list ascii) : bool :=
  match r with
  | [] => is_nil s
  | (k, lo, hi) :: r' =>
      existsb (fun n => match consume k n s with
                        | Some rest => regex_match r' rest
                        | None => false
                        end) (seq lo (S hi - lo))
  end.

(** [r.test(v)]: the value is turned into a string first. *)
Definition regex_test (r : regex) (v : jsval) : outcome bool :=
  bind (ToString v) (fun s => Return (regex_match r (chars s))).

Definition lit (s : string) : regex := map (fun c => (Lit c, 1%nat, 1%nat)) (chars s).

Record FieldRule : Type := {
  type : field_type;
  required : bool;
  minLength : option Z;
  maxLength : option Z;
  min : option Z;
  max : option Z;
  pattern : option regex;
  enum : option (list string)
}.

Definition Schema : Type := list (string * FieldRule).

Record Store : Type := {
  schema : Schema;
  data : jsval;
  indexes : list string;
  relationships : list string
}.

(** [store.data], for the places where [data] names an argument. *)
Definition stored (s : Store) : jsval := data s.

Definition with_data (s : Store) (d : jsval) : Store :=
  {| schema := schema s; data := d; indexes := indexes s; relationships := relationships s |}.

(** ** Business rules *)

Inductive rule_result : Type :=
| RuleValid                            (* [{ valid: true }] *)
| RuleInvalid (message : string).      (* [{ valid: false, message }] *)

Definition Rule : Type := jsval -> jsval -> outcome rule_result.

(** ** Cache entries *)

Record CacheEntry : Type := {
  value : option string;               (* the serialized value, or [undefined] *)
  timestamp : Z;
  ttl : Z;
  priority : string;
  accessCount : Z;
  lastAccess : Z
}.

(** ** The state of the page *)

Record World : Type := {
  dataStores : list (string * Store);                   (* [dataManager.dataStores] *)
  validationRules : list (string * list (string * Rule)); (* [dataManager.validationRules] *)
  cacheManager : bool;                                  (* is [window.cacheManager] set *)
  memoryCache : list (string * CacheEntry);             (* [cacheManager.memoryCache] *)
  localStorage : Storage;
  sessionStorage : Storage;
  localQuota : Quota;                                   (* the browser, on [localStorage] *)
  sessionQuota : Quota                                  (* the browser, on [sessionStorage] *)
}.

Definition with_dataStores (w : World) (ds : list (string * Store)) : World :=
  {| dataStores := ds; validationRules := validationRules w; cacheManager := cacheManager w;
     memoryCache := memoryCache w; localStorage := localStorage w;
     sessionStorage := sessionStorage w;
     localQuota := localQuota w; sessionQuota := sessionQuota w |}.

Definition with_memoryCache (w : World) (m : list (string * CacheEntry)) : World :=
  {| dataStores := dataStores w; validationRules := validationRules w;
     cacheManager := cacheManager w; memoryCache := m; localStorage := localStorage w;
     sessionStorage := sessionStorage w;
     localQuota := localQuota w; sessionQuota := sessionQuota w |}.

Definition with_localStorage (w : World) (st : Storage) : World :=
  {| dataStores := dataStores w; validationRules := validationRules w;
     cacheManager := cacheManager w; memoryCache := memoryCache w; localStorage := st;
     sessionStorage := sessionStorage w;
     localQuota := localQuota w; sessionQuota := sessionQuota w |}.

Definition with_sessionStorage (w : World) (st : Storage) : World :=
  {| dataStores := dataStores w; validationRules := validationRules w;
     cacheManager := cacheManager w; memoryCache := memoryCache w;
     localStorage := localStorage w; sessionStorage := st;
     localQuota := localQuota w; sessionQuota := sessionQuota w |}.

(* ================================================================== *)
(** * Part IV.  [CacheManager]                                          *)
(* ================================================================== *)

Inductive Strategy : Type :=
| SMemory                              (* 'memory' *)
| SLocalStorage                        (* 'localStorage' *)
| SSessionStorage                      (* 'sessionStorage' *)
| SAuto                                (* 'auto' *)
| SOther.                              (* any other string *)

Record TierConfig : Type := { maxSize : nat; defaultTTL : Z }.

Definition cacheConfig (s : Strategy) : option TierConfig :=
  match s with
  | SMemory => Some {| maxSize := 100; defaultTTL := 5 * 60 * 1000 |}
  | SLocalStorage => Some {| maxSize := 50; defaultTTL := 60 * 60 * 1000 |}
  | SSessionStorage => Some {| maxSize := 25; defaultTTL := 30 * 60 * 1000 |}
  | _ => None
  end.

Definition maxSize_of (s : Strategy) : nat :=
  match cacheConfig s with
  | Some c => maxSize c
  | None => 0
  end.

Definition memory_maxSize : nat := maxSize_of SMemory.
Definition localStorage_maxSize : nat := maxSize_of SLocalStorage.
Definition sessionStorage_maxSize : nat := maxSize_of SSessionStorage.

(** [x || d] on an optional number. *)
Definition or_default (x : option Z) (d : Z) : Z :=
  match x with
  | Some z => if z =? 0 then d else z
  | None => d
  end.

Definition getDefaultTTL (s : Strategy) : Z :=
  or_default (option_map defaultTTL (cacheConfig s)) (5 * 60 * 1000).

(** [serialize(value)]: [JSON.stringify], which raises on no value of
    this embedding, so that the fallback [String(value)] is never taken;
    [None] is the result [undefined]. *)
Definition serialize (v : jsval) : option string := JSON_stringify v.

(** [deserialize(value)]: [JSON.parse], or the stored value itself when
    the parse raises: on a value whose text is no JSON text, and on one
    that has no text. *)
Definition deserialize (v : jsval) : jsval :=
  match ToString v with
  | Return s =>
      match JSON_parse s with
      | Some x => x
      | None => v
      end
  | Throw _ => v
  end.

Definition value_of (e : CacheEntry) : jsval :=
  match value e with
  | Some s => VStr s
  | None => VUndef
  end.

(** The entry as the object the source builds. *)
Definition entry_object (e : CacheEntry) : jsval :=
  VObj [("value", value_of e); ("timestamp", VInt (timestamp e)); ("ttl", VInt (ttl e));
        ("priority", VStr (priority e)); ("accessCount", VInt (accessCount e));
        ("lastAccess", VInt (lastAccess e))].

(** [v.k] on a value that is neither [undefined] nor [null]. *)
Definition member (v : jsval) (k : string) : jsval :=
  match get_prop v k with
  | Some x => x
  | None => VUndef
  end.

(** [isValid(entry)]: [Date.now() - entry.timestamp < entry.ttl].  The
    two reads raise on [null] and [undefined]; the subtraction and the
    comparison raise on a [timestamp] or a [ttl] that cannot be made a
    primitive. *)
Definition isValid (now : Z) (entry : jsval) : outcome bool :=
  bind (read (get_prop entry "timestamp")) (fun stamp =>
  bind (js_sub (VInt now) stamp) (fun age =>
  bind (read (get_prop entry "ttl")) (fun life =>
  js_lt age life))).

(** [isValid(entry)] on an entry of the Map.  Its [timestamp] and its
    [ttl] are numbers, and the comparison does not raise. *)
Definition valid_entry (now : Z) (e : CacheEntry) : bool :=
  holds (isValid now (entry_object e)).

(** *** The memory tier *)

Definition getMemoryCache (key : string) (w : World) : option CacheEntry :=
  assoc key (memoryCache w).

(** The scan of [evictMemoryCache]: the first entry, in the order of the
    Map, whose [lastAccess] is below every earlier one and below the
    clock. *)
Definition oldest_step (acc : option string * Z) (kv : string * CacheEntry) : option string * Z :=
  if lastAccess (snd kv) <? snd acc then (Some (fst kv), lastAccess (snd kv)) else acc.

Definition oldest (now : Z) (m : list (string * CacheEntry)) : option string * Z :=
  fold_left oldest_step m (None, now).

Definition evictMemoryCache (now : Z) (w : World) : World :=
  match fst (oldest now (memoryCache w)) with
  | Some oldestKey =>
      if String.eqb oldestKey EmptyString then w      (* [if (oldestKey)] *)
      else with_memoryCache w (assoc_remove oldestKey (memoryCache w))
  | None => w
  end.

Definition setMemoryCache (key : string) (entry : CacheEntry) (now : Z) (w : World) : World :=
  let w1 :=
    if (memory_maxSize <=? List.length (memoryCache w))%nat then evictMemoryCache now w else w in
  with_memoryCache w1 (assoc_set key entry (memoryCache w1)).

(** *** The two storage tiers *)

Definition cache_key (key : string) : string := "cache_" ++ key.

Definition cache_keys (st : Storage) : list string :=
  filter (fun k => startsWith k "cache_") (storage_keys st).

(** [key.replace('cache_', '')] on a key that starts with the prefix. *)
Definition strip_cache (k : string) : string :=
  match starts_with (chars "cache_") (chars k) with
  | Some r => text r
  | None => k
  end.

(** A stable sort by a comparison that may raise. *)
Fixpoint insert_by {A} (cmp : A -> A -> outcome Z) (x : A) (l : list A) : outcome (list A) :=
  match l with
  | [] => Return [x]
  | y :: r =>
      bind (cmp x y) (fun c =>
        if c <=? 0 then Return (x :: y :: r)
        else bind (insert_by cmp x r) (fun r' => Return (y :: r')))
  end.

Fixpoint sort_by {A} (cmp : A -> A -> outcome Z) (l : list A) : outcome (list A) :=
  match l with
  | [] => Return []
  | x :: r => bind (sort_by cmp r) (insert_by cmp x)
  end.

(** The sign a comparison function returns, [NaN] counting as zero. *)
Definition sign_of (x : jsnum) : Z :=
  match x with
  | Fin q => if Qltb q 0 then -1 else if Qltb 0 q then 1 else 0
  | PInf => 1
  | NInf => -1
  | NaN => 0
  end.

Definition by_lastAccess (a b : string * jsval) : outcome Z :=
  bind (read (get_prop (snd a) "lastAccess")) (fun x =>
  bind (read (get_prop (snd b) "lastAccess")) (fun y =>
  bind (js_sub x y) (fun difference =>
  bind (ToNumber difference) (fun n => Return (sign_of n))))).

Fixpoint parse_all (st : Storage) (keys : list string) : outcome (list (string * jsval)) :=
  match keys with
  | [] => Return []
  | k :: r =>
      match JSON_parse (match getItem k st with Some s => s | None => "null" end) with
      | Some v => bind (parse_all st r) (fun l => Return ((strip_cache k, v) :: l))
      | None => Throw SyntaxError
      end
  end.

(** The body shared by [evictLocalStorageCache] and
    [evictSessionStorageCache]: the oldest quarter goes; any exception
    leaves the storage as it is. *)
Definition evictStorage (st : Storage) : Storage :=
  match bind (parse_all st (cache_keys st)) (sort_by by_lastAccess) with
  | Return entries =>
      let toRemove := ((List.length entries + 3) / 4)%nat in
      fold_left (fun s e => removeItem (cache_key (fst e)) s) (firstn toRemove entries) st
  | Throw _ => st
  end.

Definition evictLocalStorageCache (w : World) : World :=
  with_localStorage w (evictStorage (localStorage w)).

Definition evictSessionStorageCache (w : World) : World :=
  with_sessionStorage w (evictStorage (sessionStorage w)).

Definition entry_text (e : CacheEntry) : string :=
  match JSON_stringify (entry_object e) with
  | Some s => s
  | None => "undefined"
  end.

(** [setLocalStorageCache] and [setSessionStorageCache]: an eviction
    when the tier is full, then the write; a write the browser refuses is
    caught, and the entry is not stored. *)
Definition setLocalStorageCache (key : string) (entry : CacheEntry) (w : World) : World :=
  let existing := cache_keys (localStorage w) in
  let w1 :=
    if (localStorage_maxSize <=? List.length existing)%nat then evictLocalStorageCache w else w in
  match setItem (localQuota w1) (cache_key key) (entry_text entry) (localStorage w1) with
  | Return st => with_localStorage w1 st
  | Throw _ => w1
  end.

Definition setSessionStorageCache (key : string) (entry : CacheEntry) (w : World) : World :=
  let existing := cache_keys (sessionStorage w) in
  let w1 :=
    if (sessionStorage_maxSize <=? List.length existing)%nat then evictSessionStorageCache w else w in
  match setItem (sessionQuota w1) (cache_key key) (entry_text entry) (sessionStorage w1) with
  | Return st => with_sessionStorage w1 st
  | Throw _ => w1
  end.

(** [item ? JSON.parse(item) : null], with [null] for any exception. *)
Definition read_entry (key : string) (st : Storage) : jsval :=
  match getItem (cache_key key) st with
  | Some item =>
      if String.eqb item EmptyString then VNull
      else match JSON_parse item with
           | Some v => v
           | None => VNull
           end
  | None => VNull
  end.

Definition getLocalStorageCache (key : string) (w : World) : jsval :=
  read_entry key (localStorage w).

Definition getSessionStorageCache (key : string) (w : World) : jsval :=
  read_entry key (sessionStorage w).

(** *** [setAutoCache] *)

(** [JSON.stringify(entry.value).length]: [entry.value] is the text
    [serialize] has produced, and it is stringified once more here; on
    [undefined] the read of [length] raises. *)
Definition dataSize (entry : CacheEntry) : option Z :=
  match JSON_stringify (value_of entry) with
  | Some s => Some (Z.of_nat (String.length s))
  | None => None
  end.

Definition setAutoCache (key : string) (entry : CacheEntry) (now : Z) (w : World) : outcome World :=
  bind (read (dataSize entry)) (fun size =>
    if size <? 1024 then Return (setMemoryCache key entry now w)
    else if size <? 10240 then Return (setSessionStorageCache key entry w)
    else Return (setLocalStorageCache key entry w)).

(** *** [set] and [get] *)

Record SetOptions : Type := {
  opt_strategy : option Strategy;      (* [strategy = 'auto'] *)
  opt_ttl : option Z;                  (* [ttl = null] *)
  opt_priority : option string         (* [priority = 'normal'] *)
}.

Definition no_options : SetOptions :=
  {| opt_strategy := None; opt_ttl := None; opt_priority := None |}.

(** [set(key, value, options)]; the only exception is the one of
    [setAutoCache]. *)
Definition set (key : string) (v : jsval) (options : SetOptions) (now : Z) (w : World)
  : outcome World :=
  let strategy := match opt_strategy options with Some s => s | None => SAuto end in
  let cacheEntry :=
    {| value := serialize v;
       timestamp := now;
       ttl := or_default (opt_ttl options) (getDefaultTTL strategy);
       priority := match opt_priority options with Some p => p | None => "normal" end;
       accessCount := 0;
       lastAccess := now |} in
  match strategy with
  | SMemory => Return (setMemoryCache key cacheEntry now w)
  | SLocalStorage => Return (setLocalStorageCache key cacheEntry w)
  | SSessionStorage => Return (setSessionStorageCache key cacheEntry w)
  | SAuto => setAutoCache key cacheEntry now w
  | SOther => Return w
  end.

(** The object [get] holds in [cacheEntry]: the very object the memory
    Map stores under the key, or an object [JSON.parse] has just built
    from the text in a storage. *)
Inductive Hit : Type :=
| Shared (key : string) (entry : CacheEntry)
| Parsed (entry : jsval).

Definition hit_object (h : Hit) : jsval :=
  match h with
  | Shared _ e => entry_object e
  | Parsed v => v
  end.

Definition set_prop (v : jsval) (k : string) (x : jsval) : jsval :=
  match v with
  | VObj l => VObj (assoc_set k x l)
  | _ => v
  end.

(** [cacheEntry.accessCount++; cacheEntry.lastAccess = Date.now()].  The
    increment makes a number of the count it finds, and raises when it
    cannot. *)
Definition touch (now : Z) (h : Hit) : outcome Hit :=
  match h with
  | Shared k e =>
      Return (Shared k {| value := value e; timestamp := timestamp e; ttl := ttl e;
                          priority := priority e; accessCount := accessCount e + 1;
                          lastAccess := now |})
  | Parsed v =>
      bind (ToNumber (member v "accessCount")) (fun count =>
        Return (Parsed (set_prop (set_prop v "accessCount" (VNum (num_add count (num_of_Z 1))))
                          "lastAccess" (VInt now))))
  end.

(** Where the assignments of [touch] are seen afterwards: in the Map for
    the object it shares, nowhere for a parsed copy, which nothing else
    refers to and which is never written back. *)
Definition commit (h : Hit) (w : World) : World :=
  match h with
  | Shared k e => with_memoryCache w (assoc_set k e (memoryCache w))
  | Parsed _ => w
  end.

Definition from_memory (key : string) (w : World) : option Hit :=
  option_map (Shared key) (getMemoryCache key w).

Definition from_storage (v : jsval) : option Hit :=
  if truthy v then Some (Parsed v) else None.

(** [a || b] on lookups. *)
Definition or_else (a : option Hit) (b : option Hit) : option Hit :=
  match a with
  | Some h => Some h
  | None => b
  end.

(** The first half of [get]: the entry [cacheEntry] ends up with, or
    [None] when it ends up falsy. *)
Definition lookup (key : string) (strategy : Strategy) (w : World) : option Hit :=
  match strategy with
  | SAuto =>
      or_else (from_memory key w)
        (or_else (from_storage (getSessionStorageCache key w))
                 (from_storage (getLocalStorageCache key w)))
  | SMemory => from_memory key w
  | SLocalStorage => from_storage (getLocalStorageCache key w)
  | SSessionStorage => from_storage (getSessionStorageCache key w)
  | SOther => None
  end.

(** [get(key, strategy)]: the value, or [null], or the exception of
    [isValid] or of the increment, and the page afterwards. *)
Definition get (key : string) (strategy : Strategy) (now : Z) (w : World)
  : outcome jsval * World :=
  match lookup key strategy w with
  | Some cacheEntry =>
      match isValid now (hit_object cacheEntry) with
      | Return true =>
          match touch now cacheEntry with
          | Return touched =>
              (Return (deserialize (member (hit_object touched) "value")), commit touched w)
          | Throw e => (Throw e, w)
          end
      | Return false => (Return VNull, w)
      | Throw e => (Throw e, w)
      end
  | None => (Return VNull, w)
  end.

(** *** [cleanup], [clear] and [getStats] *)

(** The loop of [cleanup] over the cache keys of a storage, as they were
    when it started: the entry under each key is parsed, and removed when
    it is not valid.  A text that does not parse raises, and so does
    [isValid] on an entry that is [null] or that it cannot compare; the
    exception ends the loop, and the storage stays as it is by then. *)
Fixpoint sweep (now : Z) (keys : list string) (st : Storage) : Storage :=
  match keys with
  | [] => st
  | key :: rest =>
      match JSON_parse (match getItem key st with Some s => s | None => "null" end) with
      | Some entry =>
          match isValid now entry with
          | Return valid => sweep now rest (if valid then st else removeItem key st)
          | Throw _ => st
          end
      | None => st
      end
  end.

(** [cleanup()]: the entries of the Map that are not valid are deleted,
    then the two storages are swept, [localStorage] first. *)
Definition cleanup (now : Z) (w : World) : World :=
  let w1 :=
    with_memoryCache w
      (filter (fun kv => valid_entry now (snd kv)) (memoryCache w)) in
  let w2 :=
    with_localStorage w1 (sweep now (cache_keys (localStorage w1)) (localStorage w1)) in
  with_sessionStorage w2 (sweep now (cache_keys (sessionStorage w2)) (sessionStorage w2)).

(** [keys.forEach(key => storage.removeItem(key))]. *)
Definition remove_all (keys : list string) (st : Storage) : Storage :=
  fold_left (fun s key => removeItem key s) keys st.

(** [clear()]. *)
Definition clear (w : World) : World :=
  let w1 := with_memoryCache w [] in
  let w2 :=
    with_localStorage w1 (remove_all (cache_keys (localStorage w1)) (localStorage w1)) in
  with_sessionStorage w2 (remove_all (cache_keys (sessionStorage w2)) (sessionStorage w2)).

(** [getStats()]: per tier, the number of entries and the capacity. *)
Record TierStats : Type := { tier_size : nat; tier_maxSize : nat }.

Record CacheStats : Type := {
  stats_memory : TierStats;
  stats_localStorage : TierStats;
  stats_sessionStorage : TierStats
}.

Definition getStats (w : World) : CacheStats :=
  {| stats_memory :=
       {| tier_size := List.length (memoryCache w); tier_maxSize := memory_maxSize |};
     stats_localStorage :=
       {| tier_size := List.length (cache_keys (localStorage w));
          tier_maxSize := localStorage_maxSize |};
     stats_sessionStorage :=
       {| tier_size := List.length (cache_keys (sessionStorage w));
          tier_maxSize := sessionStorage_maxSize |} |}.


(* ================================================================== *)
(** * Part V.  [DataManager]                                            *)
(* ================================================================== *)

Local Open Scope js_scope.

(** ** [setupDataStores] *)

Definition plain (t : field_type) : FieldRule :=
  {| type := t; required := true; minLength := None; maxLength := None;
     min := None; max := None; pattern := None; enum := None |}.

Definition sized (lo hi : Z) : FieldRule :=
  {| type := TString; required := true; minLength := Some lo; maxLength := Some hi;
     min := None; max := None; pattern := None; enum := None |}.

Definition ranged (lo hi : Z) : FieldRule :=
  {| type := TNumber; required := true; minLength := None; maxLength := None;
     min := Some lo; max := Some hi; pattern := None; enum := None |}.

Definition matching (r : regex) : FieldRule :=
  {| type := TString; required := true; minLength := None; maxLength := None;
     min := None; max := None; pattern := Some r; enum := None |}.

Definition among (l : list string) : FieldRule :=
  {| type := TString; required := true; minLength := None; maxLength := None;
     min := None; max := None; pattern := None; enum := Some l |}.

Definition empty_store (s : Schema) (ix rel : list string) : Store :=
  {| schema := s; data := VArr []; indexes := ix; relationships := rel |}.

(** [/^DSR\d{3}$/], [/^DE\d{3}$/] and [/^\d{1,2}-[A-Za-z]{3}$/]. *)
Definition dsrId_pattern : regex := (lit "DSR" ++ [(Digit, 3, 3)])%nat%list.
Definition deId_pattern : regex := (lit "DE" ++ [(Digit, 3, 3)])%nat%list.
Definition date_pattern : regex := ([(Digit, 1, 2)] ++ lit "-" ++ [(Alpha, 3, 3)])%nat%list.

Definition sales_schema : Schema :=
  [("id", plain TString); ("name", sized 2 50);
   ("monthlyTarget", ranged 0 999999); ("mtdTarget", ranged 0 999999);
   ("mtdActual", ranged 0 999999);
   ("createdAt", plain TDate); ("updatedAt", plain TDate)].

Definition dsr_schema : Schema :=
  [("id", plain TString); ("name", sized 2 50);
   ("dsrId", matching dsrId_pattern);
   ("cluster", among ["North"; "South"; "East"; "West"]);
   ("captainName", sized 2 50);
   ("lastMonthActual", ranged 0 999999); ("thisMonthActual", ranged 0 999999);
   ("slab", among ["Gold"; "Silver"; "Bronze"]);
   ("createdAt", plain TDate); ("updatedAt", plain TDate)].

Definition de_schema : Schema :=
  [("id", plain TString); ("name", sized 2 50);
   ("deId", matching deId_pattern);
   ("region", among ["North"; "South"; "East"; "West"]);
   ("captainName", sized 2 50);
   ("lastMonthActual", ranged 0 999999); ("thisMonthActual", ranged 0 999999);
   ("slab", among ["Gold"; "Silver"; "Bronze"]);
   ("createdAt", plain TDate); ("updatedAt", plain TDate)].

Definition salesLog_schema : Schema :=
  [("id", plain TString); ("date", matching date_pattern);
   ("captainA", ranged 0 999999); ("captainB", ranged 0 999999);
   ("captainC", ranged 0 999999); ("captainD", ranged 0 999999);
   ("total", ranged 0 999999);
   ("createdAt", plain TDate); ("updatedAt", plain TDate)].

Definition setupDataStores : list (string * Store) :=
  [("sales", empty_store sales_schema ["id"; "name"] []);
   ("dsr", empty_store dsr_schema ["id"; "dsrId"; "cluster"; "captainName"]
             ["captainName -> sales.name"]);
   ("de", empty_store de_schema ["id"; "deId"; "region"; "captainName"]
            ["captainName -> sales.name"]);
   ("salesLog", empty_store salesLog_schema ["id"; "date"] [])].

(** ** [setupValidationRules] *)

Definition sales_monthlyTarget : Rule := fun value record =>
  mtdTarget <- read (get_prop record "mtdTarget") ;;
  below <- js_lt value mtdTarget ;;
  if below
  then Return (RuleInvalid "Monthly target must be greater than or equal to MTD target")
  else Return RuleValid.

Definition sales_mtdActual : Rule := fun value record =>
  monthlyTarget <- read (get_prop record "monthlyTarget") ;;
  above <- js_gt value monthlyTarget ;;
  if above
  then Return (RuleInvalid "MTD actual cannot exceed monthly target")
  else Return RuleValid.

Definition dsr_thisMonthActual : Rule := fun value record =>
  lastMonthActual <- read (get_prop record "lastMonthActual") ;;
  difference <- js_sub value lastMonthActual ;;
  growthRate <- js_div difference lastMonthActual ;;
  above <- js_gt growthRate (VNum (Fin (1 # 2))) ;;
  if above
  then Return (RuleInvalid "Growth rate cannot exceed 50%")
  else Return RuleValid.

Definition setupValidationRules : list (string * list (string * Rule)) :=
  [("sales", [("monthlyTarget", sales_monthlyTarget); ("mtdActual", sales_mtdActual)]);
   ("dsr", [("thisMonthActual", dsr_thisMonthActual)])].

(** The page once both modules are loaded and nothing is stored yet, in
    a browser with the usual quota. *)
Definition initial_world : World :=
  {| dataStores := setupDataStores; validationRules := setupValidationRules;
     cacheManager := true; memoryCache := []; localStorage := []; sessionStorage := [];
     localQuota := five_megabytes; sessionQuota := five_megabytes |}.

(** ** [validateData] *)

Record Validation : Type := { valid : bool; errors : list string }.

Definition push (errors : list string) (message : string) : list string :=
  errors ++ [message].

Definition is_string (v : jsval) : bool := match v with VStr _ => true | _ => false end.
Definition is_number (v : jsval) : bool := match v with VNum _ => true | _ => false end.
Definition is_date (v : jsval) : bool := match v with VDate _ => true | _ => false end.

(** [enum.includes(v)]. *)
Definition includes (l : list string) (v : jsval) : bool :=
  existsb (fun e => strict_eq (VStr e) v) l.

Fixpoint foldM {A B} (f : A -> B -> outcome A) (l : list B) (a : A) : outcome A :=
  match l with
  | [] => Return a
  | x :: r => a' <- f a x ;; foldM f r a'
  end.

(** [if (c) errors.push(message)]. *)
Definition push_if (c : bool) (message : string) (errors : list string) : list string :=
  if c then push errors message else errors.

(** [if (rules.x && c) errors.push(message)] for a part [x] of the rule
    that may be left out, and a test [c] that may raise. *)
Definition push_with {X} (x : option X) (c : X -> outcome bool) (message : X -> string)
  (errors : list string) : outcome (list string) :=
  match x with
  | Some n => failed <- c n ;; Return (push_if failed (message n) errors)
  | None => Return errors
  end.

(** The body of the loop over the entries of the schema. *)
Definition validate_field (data : jsval) (errors : list string) (entry : string * FieldRule)
  : outcome (list string) :=
  let '(field, rules) := entry in
  v <- read (get_prop data field) ;;
  if required rules && (is_undefined v || is_null v || strict_eq v (VStr EmptyString)) then
    Return (push errors (field ++ " is required"))                       (* [continue] *)
  else if negb (is_undefined v) && negb (is_null v) then
    (* Type validation *)
    let errors :=
      match type rules with
      | TString => push_if (negb (is_string v)) (field ++ " must be a string") errors
      | TNumber => push_if (negb (is_number v)) (field ++ " must be a number") errors
      | TDate => push_if (negb (is_date v)) (field ++ " must be a date") errors
      end in
    (* Length validation *)
    errors <-
      push_with (minLength rules)
        (fun n => if n =? 0 then Return false else js_lt (member v "length") (VInt n))
        (fun n => field ++ " must be at least " ++ Z_to_string n ++ " characters") errors ;;
    errors <-
      push_with (maxLength rules)
        (fun n => if n =? 0 then Return false else js_gt (member v "length") (VInt n))
        (fun n => field ++ " must be at most " ++ Z_to_string n ++ " characters") errors ;;
    (* Range validation *)
    errors <-
      push_with (min rules) (fun n => js_lt v (VInt n))
        (fun n => field ++ " must be at least " ++ Z_to_string n) errors ;;
    errors <-
      push_with (max rules) (fun n => js_gt v (VInt n))
        (fun n => field ++ " must be at most " ++ Z_to_string n) errors ;;
    (* Pattern validation *)
    errors <-
      push_with (pattern rules) (fun r => matched <- regex_test r v ;; Return (negb matched))
        (fun _ => field ++ " format is invalid") errors ;;
    (* Enum validation *)
    errors <-
      push_with (enum rules) (fun l => Return (negb (includes l v)))
        (fun l => field ++ " must be one of: " ++ join ", " l) errors ;;
    Return errors
  else Return errors.

(** The body of the loop over the business rules of the store. *)
Definition apply_rule (data : jsval) (errors : list string) (entry : string * Rule)
  : outcome (list string) :=
  let '(field, rule) := entry in
  v <- read (get_prop data field) ;;
  if negb (is_undefined v) then
    result <- rule v data ;;
    match result with
    | RuleInvalid message => Return (push errors message)
    | RuleValid => Return errors
    end
  else Return errors.

Definition validateData (storeName : string) (data : jsval) (w : World) : outcome Validation :=
  match assoc storeName (dataStores w) with
  | None => Return {| valid := false; errors := ["Store not found"] |}
  | Some store =>
      errors <- foldM (validate_field data) (schema store) [] ;;
      errors <-
        match assoc storeName (validationRules w) with
        | Some businessRules => foldM (apply_rule data) businessRules errors
        | None => Return errors
        end ;;
      Return {| valid := is_nil errors; errors := errors |}
  end.

(** ** Methods that change the page

    A method is a function of the page that ends with a result or with
    an exception, and with the page as it is at that moment. *)

Definition M (A : Type) : Type := World -> outcome A * World.

Definition ret {A} (a : A) : M A := fun w => (Return a, w).
Definition throw {A} (e : exn) : M A := fun w => (Throw e, w).

Definition bindM {A B} (m : M A) (f : A -> M B) : M B :=
  fun w =>
    match m w with
    | (Return a, w') => f a w'
    | (Throw e, w') => (Throw e, w')
    end.

(** A computation that reads the page and may raise. *)
Definition inspect {A} (f : World -> outcome A) : M A := fun w => (f w, w).

(** A step that changes the page and may raise, leaving it as it was. *)
Definition change (f : World -> outcome World) : M unit :=
  fun w =>
    match f w with
    | Return w' => (Return tt, w')
    | Throw e => (Throw e, w)
    end.

Declare Scope m_scope.
Delimit Scope m_scope with m.
Notation "x <~ m ;; k" := (bindM m (fun x => k))
  (at level 61, m at next level, right associativity) : m_scope.
Notation "m ;;; k" := (bindM m (fun _ => k))
  (at level 61, right associativity) : m_scope.

Local Open Scope m_scope.

(** [this.dataStores.get(storeName)], with the [throw] of the four
    record methods when there is no such store. *)
Definition find_store (storeName : string) : M Store :=
  fun w =>
    match assoc storeName (dataStores w) with
    | Some store => (Return store, w)
    | None => (Throw (Error ("Store " ++ storeName ++ " not found")), w)
    end.

(** [store.data = d] on the store object of the Map. *)
Definition set_store_data (storeName : string) (d : jsval) : M unit :=
  fun w =>
    match assoc storeName (dataStores w) with
    | Some store =>
        (Return tt, with_dataStores w (assoc_set storeName (with_data store d) (dataStores w)))
    | None => (Return tt, w)
    end.

(** The elements of [store.data] for the array methods; they raise on
    anything that is no array. *)
Definition as_array (v : jsval) : outcome (list jsval) :=
  match v with
  | VArr l => Return l
  | _ => Throw TypeError
  end.

(** [items.findIndex(item => item.id === id)]: the index of the first
    record with that id; the read of [id] raises on an element that is
    [null].  [items.find] with the same function stops at the same place,
    and the element it returns there is truthy whenever [id] is not
    [undefined], since only an object has an [id]. *)
Fixpoint findIndex_id (items : list jsval) (id : jsval) (i : nat) : outcome (option nat) :=
  match items with
  | [] => Return None
  | item :: r =>
      (item_id <- read (get_prop item "id") ;;
       if strict_eq item_id id then Return (Some i) else findIndex_id r id (S i))%js
  end.

Fixpoint replace_nth {A} (i : nat) (x : A) (l : list A) : list A :=
  match l, i with
  | [], _ => []
  | _ :: r, O => x :: r
  | y :: r, S i' => y :: replace_nth i' x r
  end.

Fixpoint remove_nth {A} (i : nat) (l : list A) : list A :=
  match l, i with
  | [], _ => []
  | _ :: r, O => r
  | y :: r, S i' => y :: remove_nth i' r
  end.

(** The last step of the three mutations:
    [if (window.cacheManager) window.cacheManager.set(`${storeName}-data`,
    store.data, { strategy: 'memory', ttl: 5 * 60 * 1000 })]. *)
Definition cache_the_data (storeName : string) (now : Z) : M unit :=
  change (fun w =>
    if cacheManager w then
      match assoc storeName (dataStores w) with
      | Some store =>
          set (storeName ++ "-data") (data store)
              {| opt_strategy := Some SMemory; opt_ttl := Some (5 * 60 * 1000);
                 opt_priority := None |} now w
      | None => Return w
      end
    else Return w).

(** [updateIndexes] keeps no index: its body is a comment. *)
Definition updateIndexes (storeName : string) (record : jsval) : M unit := ret tt.

(** ** [addData]

    [fresh] is the string [generateId()] returns when it is called; the
    id of the enriched record is never [undefined], so that the test
    [if (store.data.find(...))] is the test that an index is found. *)
Definition addData (storeName : string) (data : jsval) (now : Z) (fresh : string) : M jsval :=
  store <~ find_store storeName ;;
  given_id <~ inspect (fun _ => read (get_prop data "id")) ;;
  let enrichedData :=
    VObj (assign (own_props data)
            [("id", if truthy given_id then given_id else VStr fresh);
             ("createdAt", VDate now);
             ("updatedAt", VDate now)]) in
  validation <~ inspect (validateData storeName enrichedData) ;;
  if negb (valid validation) then
    throw (Error ("Validation failed: " ++ join ", " (errors validation)))
  else
    items <~ inspect (fun _ => as_array (stored store)) ;;
    found <~ inspect (fun _ => findIndex_id items (member enrichedData "id") 0) ;;
    match found with
    | Some _ =>
        id <~ inspect (fun _ => ToString (member enrichedData "id")) ;;
        throw (Error ("Record with id " ++ id ++ " already exists"))
    | None =>
        set_store_data storeName (VArr (items ++ [enrichedData])%list) ;;;
        updateIndexes storeName enrichedData ;;;
        cache_the_data storeName now ;;;
        ret enrichedData
    end.

(** ** [updateData] *)
Definition updateData (storeName : string) (id : jsval) (updates : jsval) (now : Z) : M jsval :=
  store <~ find_store storeName ;;
  items <~ inspect (fun _ => as_array (data store)) ;;
  found <~ inspect (fun _ => findIndex_id items id 0) ;;
  match found with
  | None =>
      id <~ inspect (fun _ => ToString id) ;;
      throw (Error ("Record with id " ++ id ++ " not found"))
  | Some index =>
      let updatedData :=
        VObj (assign (assign (own_props (nth index items VUndef)) (own_props updates))
                [("updatedAt", VDate now)]) in
      validation <~ inspect (validateData storeName updatedData) ;;
      if negb (valid validation) then
        throw (Error ("Validation failed: " ++ join ", " (errors validation)))
      else
        set_store_data storeName (VArr (replace_nth index updatedData items)) ;;;
        updateIndexes storeName updatedData ;;;
        cache_the_data storeName now ;;;
        ret updatedData
  end.

(** ** [deleteData] *)
Definition deleteData (storeName : string) (id : jsval) (now : Z) : M jsval :=
  store <~ find_store storeName ;;
  items <~ inspect (fun _ => as_array (data store)) ;;
  found <~ inspect (fun _ => findIndex_id items id 0) ;;
  match found with
  | None =>
      id <~ inspect (fun _ => ToString id) ;;
      throw (Error ("Record with id " ++ id ++ " not found"))
  | Some index =>
      let deletedData := nth index items VUndef in
      set_store_data storeName (VArr (remove_nth index items)) ;;;
      updateIndexes storeName deletedData ;;;
      cache_the_data storeName now ;;;
      ret deletedData
  end.

(** ** [queryData] *)

Record QueryOptions : Type := {
  q_filter : option (jsval -> bool);          (* [options.filter] *)
  q_sort : option (list (string * string));   (* [options.sort], as its entries *)
  q_limit : option Z;                         (* [options.limit] *)
  q_offset : option Z                         (* [options.offset] *)
}.

(** [[...v]]: arrays and strings can be spread, nothing else. *)
Definition spread (v : jsval) : outcome (list jsval) :=
  match v with
  | VArr l => Return l
  | VStr s => Return (map (fun c => VStr (String c EmptyString)) (chars s))
  | _ => Throw TypeError
  end.

(** The comparison function handed to [results.sort]. *)
Fixpoint compare_records (sort : list (string * string)) (a b : jsval) : outcome Z :=
  match sort with
  | [] => Return 0
  | (field, direction) :: rest =>
      (aVal <- read (get_prop a field) ;;
       bVal <- read (get_prop b field) ;;
       below <- js_lt aVal bVal ;;
       comparison <-
         (if below then Return (-1)
          else above <- js_gt aVal bVal ;; Return (if above then 1 else 0)) ;;
       if negb (comparison =? 0)
       then Return (if String.eqb direction "desc" then - comparison else comparison)
       else compare_records rest a b)%js
  end.

(** [Array.prototype.sort]: stable, with the [undefined] elements last and
    never compared. *)
Definition array_sort (cmp : jsval -> jsval -> outcome Z) (l : list jsval) : outcome (list jsval) :=
  (sorted <- sort_by cmp (filter (fun v => negb (is_undefined v)) l) ;;
   Return (sorted ++ filter is_undefined l)%list)%js.

(** [Array.prototype.slice(start, end)]. *)
Definition slice {A} (l : list A) (start stop : Z) : list A :=
  let len := Z.of_nat (List.length l) in
  let clamp (x : Z) := if x <? 0 then Z.max (len + x) 0 else Z.min x len in
  firstn (Z.to_nat (clamp stop - clamp start)) (skipn (Z.to_nat (clamp start)) l).

Definition truthy_number (x : option Z) : bool :=
  match x with
  | Some z => negb (z =? 0)
  | None => false
  end.

Definition filter_step (options : QueryOptions) (results : list jsval) : list jsval :=
  match q_filter options with
  | Some f => filter f results
  | None => results
  end.

Definition sort_step (options : QueryOptions) (results : list jsval) : outcome (list jsval) :=
  match q_sort options with
  | Some s => array_sort (compare_records s) results
  | None => Return results
  end.

Definition paginate (options : QueryOptions) (results : list jsval) : list jsval :=
  if truthy_number (q_limit options) || truthy_number (q_offset options) then
    let offset := or_default (q_offset options) 0 in
    let limit := or_default (q_limit options) (Z.of_nat (List.length results)) in
    slice results offset (offset + limit)
  else results.

Definition queryData (storeName : string) (options : QueryOptions) : M (list jsval) :=
  store <~ find_store storeName ;;
  results <~ inspect (fun _ => spread (data store)) ;;
  let results := filter_step options results in
  results <~ inspect (fun _ => sort_step options results) ;;
  ret (paginate options results).

(** ** [saveAllData] and [loadAllData] *)

Definition data_key (storeName : string) : string := "data-" ++ storeName.

(** The text [setItem] receives: [JSON.stringify(store.data)], and the
    word "undefined" when that is [undefined]. *)
Definition data_text (d : jsval) : string :=
  match JSON_stringify d with
  | Some s => s
  | None => "undefined"
  end.

(** One store of [saveAllData]: its text is written under its key; a
    write the browser refuses is caught, and the loop goes on. *)
Definition save_store (accepts : Quota) (st : Storage) (entry : string * Store) : Storage :=
  match setItem accepts (data_key (fst entry)) (data_text (data (snd entry))) st with
  | Return st' => st'
  | Throw _ => st
  end.

Definition saveAllData (w : World) : World :=
  with_localStorage w (fold_left (save_store (localQuota w)) (dataStores w) (localStorage w)).

(** One store of [loadAllData]: a saved text that is not empty and parses
    replaces [store.data]; a [SyntaxError] is caught and changes nothing. *)
Definition load_store (st : Storage) (entry : string * Store) : string * Store :=
  match getItem (data_key (fst entry)) st with
  | Some saved =>
      if String.eqb saved EmptyString then entry
      else match JSON_parse saved with
           | Some d => (fst entry, with_data (snd entry) d)
           | None => entry
           end
  | None => entry
  end.

Definition loadAllData (w : World) : World :=
  with_dataStores w (map (load_store (localStorage w)) (dataStores w)).

(** ** [importData] *)

(** The two lists of [results]; a failure keeps the item and the
    exception [addData] raised on it, whose message the source stores. *)
Record ImportResults : Type := {
  success : list jsval;
  failures : list (jsval * exn)
}.

(** [Array.isArray(data) ? data : [data]]. *)
Definition as_list (data : jsval) : list jsval :=
  match data with
  | VArr l => l
  | _ => [data]
  end.

(** The loop of [importData]: each item goes through [addData], which
    reads the clock and draws an id of its own; the [i]-th call reads
    [clock i] and would draw [ids i]. *)
Fixpoint import_items (storeName : string) (items : list jsval) (clock : nat -> Z)
  (ids : nat -> string) (i : nat) (results : ImportResults) : M ImportResults :=
  match items with
  | [] => ret results
  | item :: rest =>
      fun w =>
        match addData storeName item (clock i) (ids i) w with
        | (Return result, w') =>
            import_items storeName rest clock ids (S i)
              {| success := (success results ++ [result])%list; failures := failures results |} w'
        | (Throw error, w') =>
            import_items storeName rest clock ids (S i)
              {| success := success results;
                 failures := (failures results ++ [(item, error)])%list |} w'
        end
  end.

Definition importData (storeName : string) (data : jsval) (clock : nat -> Z)
  (ids : nat -> string) : M ImportResults :=
  _ <~ find_store storeName ;;
  import_items storeName (as_list data) clock ids 0 {| success := []; failures := [] |}.


(* ================================================================== *)
(** * Part VI.  Records, pages and readings used by the theorems       *)
(* ================================================================== *)

(** A complete record of the store 'dsr', as [addData] hands it to
    [validateData]. *)
Definition dsr_record (lastMonthActual thisMonthActual : Z) : jsval :=
  VObj [("id", VStr "r1"); ("name", VStr "John"); ("dsrId", VStr "DSR001");
        ("cluster", VStr "North"); ("captainName", VStr "Captain A");
        ("lastMonthActual", VInt lastMonthActual);
        ("thisMonthActual", VInt thisMonthActual);
        ("slab", VStr "Gold"); ("createdAt", VDate 1000); ("updatedAt", VDate 1000)].

(** The same record before [addData] has stamped it. *)
Definition dsr_input (id : jsval) (lastMonthActual thisMonthActual : Z) : jsval :=
  VObj [("id", id); ("name", VStr "John"); ("dsrId", VStr "DSR001");
        ("cluster", VStr "North"); ("captainName", VStr "Captain A");
        ("lastMonthActual", VInt lastMonthActual);
        ("thisMonthActual", VInt thisMonthActual);
        ("slab", VStr "Gold")].

Definition sales_input : jsval :=
  VObj [("name", VStr "Captain A"); ("monthlyTarget", VInt 500);
        ("mtdTarget", VInt 200); ("mtdActual", VInt 150)].

(** The page after a method has run. *)
Definition after {R} (r : R * World) : World := snd r.

Definition run (o : outcome World) (w : World) : World :=
  match o with
  | Return w' => w'
  | Throw _ => w
  end.

Definition records (storeName : string) (w : World) : option jsval :=
  option_map data (assoc storeName (dataStores w)).

(** The page with one record in 'dsr', added at time 1000. *)
Definition page_one_dsr : World :=
  after (addData "dsr" (dsr_input VUndef 100 110) 1000 "abc123" initial_world).

(** The page with one record in 'sales', added at time 1000. *)
Definition page_one_sale : World :=
  after (addData "sales" sales_input 1000 "s1" initial_world).

(** [store.data = []] on every store. *)
Definition clear_records (w : World) : World :=
  with_dataStores w (map (fun e => (fst e, with_data (snd e) (VArr []))) (dataStores w)).

(** [saveAll], then the records cleared, then [loadAll]. *)
Definition reload (w : World) : World := loadAllData (clear_records (saveAllData w)).

(** The loop of the repository's own eviction test:
    [cacheManager.set(`key-${i}`, { data: i }, { strategy: 'memory' })],
    the [i]-th call reading the clock as [clock i]. *)
Definition key_n (i : nat) : string := "key-" ++ Z_to_string (Z.of_nat i).

Definition memory_options : SetOptions :=
  {| opt_strategy := Some SMemory; opt_ttl := None; opt_priority := None |}.

Definition session_options : SetOptions :=
  {| opt_strategy := Some SSessionStorage; opt_ttl := None; opt_priority := None |}.

Definition durable_options : SetOptions :=
  {| opt_strategy := Some SLocalStorage; opt_ttl := None; opt_priority := None |}.

Definition set_nth (clock : nat -> Z) (w : World) (i : nat) : World :=
  run (set (key_n i) (VObj [("data", VInt (Z.of_nat i))]) memory_options (clock i) w) w.

Definition fill (n : nat) (clock : nat -> Z) (w : World) : World :=
  fold_left (set_nth clock) (seq 0 n) w.

(** A string of 1021 letters: its JSON text has 1023 characters. *)
Definition long_value : jsval := VStr (repeat_string 1021 "a").

(** A page whose session tier holds "k", written at time 1000. *)
Definition page_session_k : World :=
  run (set "k" (VStr "v") session_options 1000 initial_world) initial_world.

(** A page where "k" was written to the memory tier with a TTL of one
    second at time 1000, and to the durable tier (TTL one hour) at time
    1500. *)
Definition page_shadowed_k : World :=
  let w1 := run (set "k" (VStr "old")
                   {| opt_strategy := Some SMemory; opt_ttl := Some 1000; opt_priority := None |}
                   1000 initial_world) initial_world in
  run (set "k" (VStr "new") durable_options 1500 w1) w1.

(** The reading of [get(key, 'auto')] in the words of the specification:
    the tiers in the order memory, session, durable, and the first entry
    that is valid. *)
Definition tiers_in_order (key : string) (w : World) : list jsval :=
  [match getMemoryCache key w with Some e => entry_object e | None => VNull end;
   getSessionStorageCache key w;
   getLocalStorageCache key w].

Definition first_valid_hit (key : string) (now : Z) (w : World) : jsval :=
  match find (fun entry => truthy entry && holds (isValid now entry)) (tiers_in_order key w) with
  | Some entry => deserialize (member entry "value")
  | None => VNull
  end.

(** The reading of [validate] in the words of the specification: per
    field the checks in the order required, type, length, range, pattern,
    enum, and only the first failure recorded.  A check is a test, which
    may raise, and the error it records when the test says so. *)
Fixpoint first_of (checks : list (outcome bool * string)) : outcome (list string) :=
  match checks with
  | [] => Return []
  | (test, message) :: rest =>
      bind test (fun failed => if failed then Return [message] else first_of rest)
  end.

(** The errors of all the checks that fail, in order. *)
Fixpoint all_of (checks : list (outcome bool * string)) : outcome (list string) :=
  match checks with
  | [] => Return []
  | (test, message) :: rest =>
      bind test (fun failed =>
      bind (all_of rest) (fun found => Return (if failed then message :: found else found)))
  end.

Definition of_option {A B} (o : option A) (f : A -> B) : list B :=
  match o with
  | Some a => [f a]
  | None => []
  end.

Definition type_check (field : string) (rules : FieldRule) (v : jsval) : outcome bool * string :=
  match type rules with
  | TString => (Return (negb (is_string v)), field ++ " must be a string")
  | TNumber => (Return (negb (is_number v)), field ++ " must be a number")
  | TDate => (Return (negb (is_date v)), field ++ " must be a date")
  end.

(** The checks on a value that is present, in the order of the source,
    each with the error it records when it fails. *)
Definition checks_of (field : string) (rules : FieldRule) (v : jsval)
  : list (outcome bool * string) :=
  [type_check field rules v]
  ++ of_option (minLength rules) (fun n =>
       (if n =? 0 then Return false else js_lt (member v "length") (VInt n),
        field ++ " must be at least " ++ Z_to_string n ++ " characters"))
  ++ of_option (maxLength rules) (fun n =>
       (if n =? 0 then Return false else js_gt (member v "length") (VInt n),
        field ++ " must be at most " ++ Z_to_string n ++ " characters"))
  ++ of_option (min rules) (fun n =>
       (js_lt v (VInt n), field ++ " must be at least " ++ Z_to_string n))
  ++ of_option (max rules) (fun n =>
       (js_gt v (VInt n), field ++ " must be at most " ++ Z_to_string n))
  ++ of_option (pattern rules) (fun r =>
       (bind (regex_test r v) (fun matched => Return (negb matched)),
        field ++ " format is invalid"))
  ++ of_option (enum rules) (fun l =>
       (Return (negb (includes l v)), field ++ " must be one of: " ++ join ", " l)).

Definition is_missing (v : jsval) : bool :=
  is_undefined v || is_null v || strict_eq v (VStr EmptyString).

Definition is_absent (v : jsval) : bool := is_undefined v || is_null v.

(** The errors of one field as the specification words them. *)
Definition field_errors_first (data : jsval) (entry : string * FieldRule)
  : outcome (list string) :=
  let v := member data (fst entry) in
  if required (snd entry) && is_missing v then Return [fst entry ++ " is required"]
  else if is_absent v then Return []
  else first_of (checks_of (fst entry) (snd entry) v).

(** The errors of one field as the source records them: every failing
    check, in order, unless a test raises. *)
Definition field_errors (data : jsval) (entry : string * FieldRule) : outcome (list string) :=
  let v := member data (fst entry) in
  if required (snd entry) && is_missing v then Return [fst entry ++ " is required"]
  else if is_absent v then Return []
  else all_of (checks_of (fst entry) (snd entry) v).

(** The errors of the fields of a schema, field after field. *)
Fixpoint gather {A} (f : A -> outcome (list string)) (l : list A) : outcome (list string) :=
  match l with
  | [] => Return []
  | x :: rest =>
      bind (f x) (fun found => bind (gather f rest) (fun more => Return (found ++ more)%list))
  end.

(** The messages of the business rules of a store, in order. *)
Definition rule_errors (data : jsval) (rules : list (string * Rule)) : outcome (list string) :=
  foldM (apply_rule data) rules [].

Definition rules_of (storeName : string) (w : World) : list (string * Rule) :=
  match assoc storeName (validationRules w) with
  | Some businessRules => businessRules
  | None => []
  end.

(** [validate] in the words of the specification: the first failure of
    each field, then the messages of the business rules. *)
Definition validate_first_failures (storeName : string) (data : jsval) (w : World)
  : outcome Validation :=
  match assoc storeName (dataStores w) with
  | None => Return {| valid := false; errors := ["Store not found"] |}
  | Some store =>
      bind (gather (field_errors_first data) (schema store)) (fun fields =>
      bind (rule_errors data (rules_of storeName w)) (fun found =>
        let errors := (fields ++ found)%list in
        Return {| valid := is_nil errors; errors := errors |}))
  end.

(** A 'dsr' record whose [cluster] is the number 5. *)
Definition dsr_bad_cluster : jsval :=
  VObj [("id", VStr "r1"); ("name", VStr "John"); ("dsrId", VStr "DSR001");
        ("cluster", VInt 5); ("captainName", VStr "Captain A");
        ("lastMonthActual", VInt 100); ("thisMonthActual", VInt 110);
        ("slab", VStr "Gold"); ("createdAt", VDate 1000); ("updatedAt", VDate 1000)].

Definition no_pagination (options : QueryOptions) : QueryOptions :=
  {| q_filter := q_filter options; q_sort := q_sort options;
     q_limit := None; q_offset := None |}.

Definition not_found (storeName : string) : exn :=
  Error ("Store " ++ storeName ++ " not found").

(** What [get] answers once [lookup] has chosen the entry: the value of
    an entry that is valid, [null] for one that is not, and the exception
    of [isValid] or of the increment of [accessCount]. *)
Definition answer (now : Z) (entry : jsval) : outcome jsval :=
  bind (isValid now entry) (fun valid =>
    if valid
    then bind (ToNumber (member entry "accessCount")) (fun _ =>
           Return (deserialize (member entry "value")))
    else Return VNull).

(** One check of a field: its error is pushed when it fails. *)
Definition record_failure (errors : list string) (check : outcome bool * string)
  : outcome (list string) :=
  bind (fst check) (fun failed => Return (push_if failed (snd check) errors)).

(** The state of the memory tier that the eviction relies on: every
    entry was last touched before the present reading of the clock, and
    no key is the empty string. *)
Definition settled (now : Z) (m : list (string * CacheEntry)) : Prop :=
  Forall (fun kv => lastAccess (snd kv) < now /\ fst kv <> EmptyString) m.

(** A run of [set(key, value, { strategy: 'memory' })] calls, each with
    the reading of the clock at the call. *)
Definition set_all (calls : list (string * jsval * Z)) (w : World) : World :=
  fold_left (fun w c => run (set (fst (fst c)) (snd (fst c)) memory_options (snd c) w) w) calls w.

(** The readings of the clock grow strictly from [t] on and no key is
    empty. *)
Fixpoint ticking (t : Z) (calls : list (string * jsval * Z)) : Prop :=
  match calls with
  | [] => True
  | c :: r => t < snd c /\ fst (fst c) <> EmptyString /\ ticking (snd c) r
  end.

(** The store 'dsr' of [page_one_dsr], and its one record. *)
Definition dsr_store_one : Store :=
  match assoc "dsr" (dataStores page_one_dsr) with
  | Some store => store
  | None => empty_store [] [] []
  end.

Definition dsr_items_one : list jsval :=
  match data dsr_store_one with
  | VArr items => items
  | _ => []
  end.

Definition limit_zero : QueryOptions :=
  {| q_filter := None; q_sort := None; q_limit := Some 0; q_offset := None |}.

(** ** Methods and the page *)

(** A method that never changes the page. *)
Definition reads_only {A} (m : M A) : Prop := forall w, snd (m w) = w.

(** A method that never raises. *)
Definition never_throws {A} (m : M A) : Prop := forall w e, fst (m w) <> Throw e.

(** A method that, when it raises, leaves the page as it found it. *)
Definition rolls_back {A} (m : M A) : Prop :=
  forall w e, fst (m w) = Throw e -> snd (m w) = w.

(** ** Values that JSON carries *)

(** The keys of an object are pairwise different. *)
Fixpoint distinct (l : list string) : bool :=
  match l with
  | [] => true
  | k :: r => negb (existsb (String.eqb k) r) && distinct r
  end.

(** A whole number, held as such. *)
Definition is_whole (x : jsnum) : bool :=
  match x with
  | Fin q => Pos.eqb (Qden q) 1
  | _ => false
  end.

(** The values built from [null], booleans, whole numbers and strings by
    arrays and by objects with distinct keys: no [undefined], no Date, no
    number that is not finite. *)
Fixpoint json_value (v : jsval) : bool :=
  match v with
  | VNull | VBool _ | VStr _ => true
  | VNum x => is_whole x
  | VUndef | VDate _ => false
  | VArr l => forallb json_value l
  | VObj l => forallb (fun kv => json_value (snd kv)) l && distinct (map fst l)
  end.

(** The text of an element of an array, and of a member of an object, in
    [JSON.stringify]. *)
Definition element_text (v : jsval) : string :=
  match JSON_stringify v with
  | Some s => s
  | None => "null"
  end.

Definition member_text (kv : string * jsval) : string :=
  JSON_quote (fst kv) ++ ":" ++ element_text (snd kv).

(** The value of a run of digits read after the value [acc]. *)
Definition digits_from (acc : Z) (cs : list ascii) : Z :=
  fold_left (fun acc c => 10 * acc + digit_val c) cs acc.

(** The decimal digits of a positive integer. *)
Definition digits (p : positive) : list ascii := chars (Z_to_string (Zpos p)).

(** What may follow a value inside a JSON text: nothing, a comma or a
    closing bracket. *)
Definition ends_value (r : list ascii) : bool :=
  match r with
  | [] => true
  | c :: _ => (code c =? 44) || (code c =? 93) || (code c =? 125)
  end.

(** The first character of a number. *)
Definition opens_number (c : ascii) : bool := is_digit c || (code c =? 45).

(** A text that starts like a value: no white space, no closing bracket. *)
Definition starts_value (s : string) : Prop :=
  exists c r, chars s = c :: r /\ is_json_space c = false
              /\ (code c =? 93) = false /\ (code c =? 125) = false.

(** [parse_value] reads back the text of [v], whatever follows it. *)
Definition round_trip (v : jsval) : Prop :=
  json_value v = true ->
  starts_value (element_text v)
  /\ forall fuel rest,
       (String.length (element_text v) < fuel)%nat ->
       ends_value rest = true ->
       parse_value fuel (chars (element_text v) ++ rest)%list = Some (v, rest).

(** ** Cache entries in a storage *)

(** The entry as [JSON.parse] returns it from the text a storage keeps:
    [JSON.stringify] leaves out a [value] that is [undefined]. *)
Definition parsed_entry (e : CacheEntry) : jsval :=
  VObj ((match value e with
         | Some s => [("value", VStr s)]
         | None => []
         end)
        ++ [("timestamp", VInt (timestamp e)); ("ttl", VInt (ttl e));
            ("priority", VStr (priority e)); ("accessCount", VInt (accessCount e));
            ("lastAccess", VInt (lastAccess e))])%list.

(** The options of a [set] that names its tier. *)
Definition options_of (strategy : Strategy) (ttl : option Z) (priority : option string)
  : SetOptions :=
  {| opt_strategy := Some strategy; opt_ttl := ttl; opt_priority := priority |}.

(** The tiers a caller can name. *)
Definition is_tier (s : Strategy) : bool :=
  match s with
  | SMemory | SLocalStorage | SSessionStorage => true
  | _ => false
  end.

(** The time an entry written with these options stays valid. *)
Definition lifetime (strategy : Strategy) (ttl : option Z) : Z :=
  or_default ttl (getDefaultTTL strategy).

(** The entry [set] builds. *)
Definition entry_of_set (v : jsval) (strategy : Strategy) (ttl : option Z)
  (priority : option string) (now : Z) : CacheEntry :=
  {| value := serialize v; timestamp := now; ttl := lifetime strategy ttl;
     priority := match priority with Some p => p | None => "normal" end;
     accessCount := 0; lastAccess := now |}.

(** ** Storages *)

(** The page [w'] agrees with [w] on the stores and on the key [k] of
    both storages. *)
Definition same_at (k : string) (w w' : World) : Prop :=
  getItem k (localStorage w') = getItem k (localStorage w)
  /\ getItem k (sessionStorage w') = getItem k (sessionStorage w)
  /\ dataStores w' = dataStores w.

(** A value that can be made a primitive. *)
Definition converts (v : jsval) : bool :=
  match ToPrimitive v with
  | Return _ => true
  | Throw _ => false
  end.

(** An entry as the cache can read it: a value with properties, whose
    [timestamp], [ttl] and [lastAccess] can be made numbers.  In the
    entries [set] writes the three are numbers. *)
Definition well_formed (entry : jsval) : bool :=
  negb (is_absent entry)
  && converts (member entry "timestamp") && converts (member entry "ttl")
  && converts (member entry "lastAccess").

(** A storage as the cache expects it: no key twice, and under every
    cache key a text that parses to a well-formed entry, as the texts
    [set] writes do. *)
Definition readable (st : Storage) : Prop :=
  NoDup (storage_keys st)
  /\ forall k, In k (cache_keys st) ->
       exists item entry,
         getItem k st = Some item /\ JSON_parse item = Some entry /\ well_formed entry = true.

(** The storage behind a tier, and the state in which the cache keeps
    it: readable, and with no more cache entries than the tier allows. *)
Definition storage_of (tier : Strategy) (w : World) : Storage :=
  match tier with
  | SLocalStorage => localStorage w
  | SSessionStorage => sessionStorage w
  | _ => []
  end.

Definition within_capacity (tier : Strategy) (w : World) : Prop :=
  readable (storage_of tier w)
  /\ (List.length (cache_keys (storage_of tier w)) <= maxSize_of tier)%nat.

(** ** Writes to a tier *)

(** The storage of a tier as [set] finds it when it comes to write:
    after the eviction, when one was due. *)
Definition before_write (tier : Strategy) (w : World) : Storage :=
  let st := storage_of tier w in
  if (maxSize_of tier <=? List.length (cache_keys st))%nat then evictStorage st else st.

(** The say of the browser on the storage of a tier; the memory tier is
    a Map of the page, and nothing is asked of the browser there. *)
Definition quota_of (tier : Strategy) (w : World) : Quota :=
  match tier with
  | SLocalStorage => localQuota w
  | SSessionStorage => sessionQuota w
  | _ => fun _ _ _ => true
  end.

(** The browser accepts the entry that a [set] on the tier writes under
    the key. *)
Definition accepted (tier : Strategy) (key : string) (entry : CacheEntry) (w : World) : bool :=
  quota_of tier w (before_write tier w) (cache_key key) (entry_text entry).

(** The tier [setAutoCache] sends an entry to. *)
Definition auto_tier (entry : CacheEntry) : Strategy :=
  match dataSize entry with
  | Some size =>
      if size <? 1024 then SMemory
      else if size <? 10240 then SSessionStorage
      else SLocalStorage
  | None => SOther
  end.

(** ** Values that pass the checks *)

(** A number that is not below the whole number [n], as the range check
    sees it: one that is [n] or more, or [NaN], which no comparison
    refuses. *)
Definition at_least (n : Z) (x : jsnum) : Prop :=
  match x with
  | Fin q => (inject_Z n <= q)%Q
  | PInf | NaN => True
  | NInf => False
  end.

(** A number that is not above [n]: one that is [n] or less, or [NaN]. *)
Definition at_most (n : Z) (x : jsnum) : Prop :=
  match x with
  | Fin q => (q <= inject_Z n)%Q
  | NInf | NaN => True
  | PInf => False
  end.

(** A value on which the tests of [validateData] do not raise: it can be
    made a primitive, and so can its [length]. *)
Definition steady (v : jsval) : bool := converts v && converts (member v "length").

(** A computation that raises nothing but a [TypeError]. *)
Definition only_TypeError {A} (o : outcome A) : Prop := forall e, o = Throw e -> e = TypeError.

(** ** Mutations of a store *)

(** The record [addData] stores for [data]. *)
Definition enrich (data : jsval) (now : Z) (fresh : string) : jsval :=
  VObj (assign (own_props data)
          [("id", if truthy (member data "id") then member data "id" else VStr fresh);
           ("createdAt", VDate now);
           ("updatedAt", VDate now)]).

(** The record [updateData] stores in the place of [old]. *)
Definition merge (old updates : jsval) (now : Z) : jsval :=
  VObj (assign (assign (own_props old) (own_props updates)) [("updatedAt", VDate now)]).

(** The own property [k] of a value, as a spread copies it. *)
Definition own (v : jsval) (k : string) : jsval :=
  match assoc k (own_props v) with
  | Some x => x
  | None => VUndef
  end.

(** The entry a mutation leaves in the memory tier for the list [d]. *)
Definition data_entry (d : jsval) (now : Z) : CacheEntry :=
  entry_of_set d SMemory (Some (5 * 60 * 1000)) None now.

(** The page once a mutation of the store [storeName] has gone through:
    the store holds the list [d], and the memory tier holds its copy when
    the cache manager is loaded. *)
Definition committed (storeName : string) (store : Store) (d : jsval) (now : Z) (w : World)
  : World :=
  let w1 := with_dataStores w (assoc_set storeName (with_data store d) (dataStores w)) in
  if cacheManager w then setMemoryCache (storeName ++ "-data") (data_entry d now) now w1 else w1.

(** Two records carry different ids. *)
Definition apart (a b : jsval) : Prop := strict_eq (member a "id") (member b "id") = false.

Definition is_object (v : jsval) : bool :=
  match v with
  | VObj _ => true
  | _ => false
  end.

(** The records of a store as the mutations keep them: every one is an
    object, and no two carry the same id. *)
Definition tidy (items : list jsval) : Prop :=
  Forall (fun item => is_object item = true) items
  /\ ForallOrdPairs apart items.

(** The three mutations, by the arguments of the call. *)
Inductive Mutation : Type :=
| Add (data : jsval) (fresh : string)
| Update (id updates : jsval)
| Delete (id : jsval).

Definition mutate (storeName : string) (m : Mutation) (now : Z) : M jsval :=
  match m with
  | Add data fresh => addData storeName data now fresh
  | Update id updates => updateData storeName id updates now
  | Delete id => deleteData storeName id now
  end.

(** A mutation that leaves the ids alone: an update whose [updates] has
    no [id] of its own. *)
Definition leaves_ids (m : Mutation) : Prop :=
  match m with
  | Update _ updates => assoc "id" (own_props updates) = None
  | _ => True
  end.

(** ** Queries *)

(** The records a query keeps, before it orders them. *)
Definition kept (options : QueryOptions) (items : list jsval) : list jsval :=
  match q_filter options with
  | Some f => filter f items
  | None => items
  end.

(** A query for the page of [limit] records after the first [offset]. *)
Definition page_of (offset limit : Z) (options : QueryOptions) : QueryOptions :=
  {| q_filter := q_filter options; q_sort := q_sort options;
     q_limit := Some limit; q_offset := Some offset |}.

(** A query for all the records after the first [offset]. *)
Definition from_offset (offset : Z) (options : QueryOptions) : QueryOptions :=
  {| q_filter := q_filter options; q_sort := q_sort options;
     q_limit := None; q_offset := Some offset |}.

(** ** Saved stores *)

(** The storage as [saveAllData] finds it when it comes to the store
    [storeName]: with the texts of the stores before it, those of them
    that the browser has accepted. *)
Fixpoint saved_before (accepts : Quota) (storeName : string) (stores : list (string * Store))
  (st : Storage) : Storage :=
  match stores with
  | [] => st
  | entry :: rest =>
      if String.eqb (fst entry) storeName then st
      else saved_before accepts storeName rest (save_store accepts st entry)
  end.

(** The browser accepts the text of the store [storeName] when
    [saveAllData] writes it. *)
Definition save_accepted (storeName : string) (w : World) : bool :=
  match assoc storeName (dataStores w) with
  | Some store =>
      localQuota w (saved_before (localQuota w) storeName (dataStores w) (localStorage w))
        (data_key storeName) (data_text (data store))
  | None => false
  end.

(** What [localStorage] holds for a store gives [loadAllData] nothing to
    load: no item, the empty text, or a text that is not JSON. *)
Definition nothing_to_load (storeName : string) (w : World) : Prop :=
  match getItem (data_key storeName) (localStorage w) with
  | Some saved => saved = EmptyString \/ JSON_parse saved = None
  | None => True
  end.

(** ** Runs of calls to the cache *)

Inductive CacheCall : Type :=
| CallSet (key : string) (v : jsval) (options : SetOptions)    (* [set(key, v, options)] *)
| CallGet (key : string) (strategy : Strategy)                 (* [get(key, strategy)] *)
| CallCleanup                                                  (* [cleanup()] *)
| CallClear.                                                   (* [clear()] *)

(** The page after one call, made when the clock reads [now]. *)
Definition call (c : CacheCall) (now : Z) (w : World) : World :=
  match c with
  | CallSet key v options => run (set key v options now w) w
  | CallGet key strategy => after (get key strategy now w)
  | CallCleanup => cleanup now w
  | CallClear => clear w
  end.

Definition run_calls (calls : list (CacheCall * Z)) (w : World) : World :=
  fold_left (fun w c => call (fst c) (snd c) w) calls w.

(** The readings of the clock grow strictly from [t] on. *)
Fixpoint advancing (t : Z) (times : list Z) : Prop :=
  match times with
  | [] => True
  | now :: later => t < now /\ advancing now later
  end.

(** The call is not a [set] under the empty string as key. *)
Definition sets_a_named_key (c : CacheCall) : Prop :=
  match c with
  | CallSet key _ _ => key <> EmptyString
  | _ => True
  end.

(** Every entry of the Map was last accessed before the clock read
    [now]. *)
Definition accessed_before (now : Z) (m : list (string * CacheEntry)) : Prop :=
  Forall (fun kv => lastAccess (snd kv) < now) m.

(** The page of [set('', 0, { strategy: 'memory' })] at time 5000
    followed by the hundred calls [set(`key-${i}`, ...)] at the times
    5001, 5002, ... *)
Definition page_unnamed_first : World :=
  fill 100 (fun i => 5001 + Z.of_nat i)
    (run (set EmptyString (VInt 0) memory_options 5000 initial_world) initial_world).


(** ** Imports *)

(** [addData] takes the item: the item is an object or a primitive (the
    read of [data.id] raises on [null] and [undefined]), the record made
    of it passes [validateData], and no record held carries its id. *)
Definition importable (storeName : string) (w : World) (held : list jsval) (item record : jsval)
  : bool :=
  negb (is_absent item)
  && match validateData storeName record w with
     | Return validation => valid validation
     | Throw _ => false
     end
  && match findIndex_id held (member record "id") 0 with
     | Return None => true
     | _ => false
     end.

(** The import read item by item: the items are taken in their order,
    the [i]-th at the reading [clock i] of the clock; an item that can be
    imported is added as the record [addData] makes of it, and is held
    from then on; any other item is refused.  The result is the list of
    the records added and the list of the items refused. *)
Fixpoint import_by_item (storeName : string) (w : World) (clock : nat -> Z) (ids : nat -> string)
  (incoming : list jsval) (i : nat) (held : list jsval) : list jsval * list jsval :=
  match incoming with
  | [] => ([], [])
  | item :: rest =>
      let record := enrich item (clock i) (ids i) in
      if importable storeName w held item record
      then let later := import_by_item storeName w clock ids rest (S i) (held ++ [record]) in
           (record :: fst later, snd later)
      else let later := import_by_item storeName w clock ids rest (S i) held in
           (fst later, item :: snd later)
  end.


(* ================================================================== *)
(** * Part VII.  Theorems                                               *)
(* ================================================================== *)

Unset Implicit Arguments.

(** ** The embedding on small inputs *)

Example number_texts :
  map number_to_string
    [num_of_Z 0; num_of_Z (-5); Fin (3 # 2); Fin (1 # 1000); Fin (1 # 10000000);
     num_of_Z (10 ^ 21); num_div (num_of_Z 1) (num_of_Z 0); num_div (num_of_Z 0) (num_of_Z 0)]
  = ["0"; "-5"; "1.5"; "0.001"; "1e-7"; "1e+21"; "Infinity"; "NaN"].
Proof. vm_compute. reflexivity. Qed.

Example numbers_of_strings :
  map StringToNumber ["5"; " 12.50 "; "-5"; "1e3"; "0x1F"; EmptyString; "abc"; "5px"]
  = [num_of_Z 5; Fin (25 # 2); num_of_Z (-5); num_of_Z 1000; num_of_Z 31; num_of_Z 0; NaN; NaN].
Proof. vm_compute. reflexivity. Qed.

Example comparisons :
  js_lt (VInt 1) (VInt 2) = Return true
  /\ js_lt (VStr "-5") (VInt 0) = Return true
  /\ js_lt (VStr "abc") (VInt 0) = Return false
  /\ js_lt (VStr "abc") (VStr "abd") = Return true
  /\ js_lt VUndef (VInt 2) = Return false
  /\ js_gt (VDate 2000) (VDate 1000) = Return true
  /\ js_lt (VObj [("a", VInt 1)]) (VStr "[object Object]") = Return false
  /\ js_lt (VArr [VInt 1; VNull; VArr [VInt 2]]) (VStr "1,,3") = Return true.
Proof. repeat split; vm_compute; reflexivity. Qed.

(** An object that has an own property [toString] cannot be made a
    primitive, nor can an array that holds one: every operator that needs
    a primitive raises on them. *)
Example conversions_that_raise :
  ToString (VObj [("toString", VInt 1)]) = Throw TypeError
  /\ js_lt (VObj [("toString", VInt 1)]) (VInt 0) = Throw TypeError
  /\ js_gt (VInt 0) (VArr [VObj [("toString", VNull)]]) = Throw TypeError
  /\ js_sub (VInt 5) (VObj [("toString", VStr "5")]) = Throw TypeError
  /\ regex_test dsrId_pattern (VObj [("toString", VInt 1)]) = Throw TypeError
  /\ ToString (VObj [("valueOf", VInt 1)]) = Return "[object Object]".
Proof. repeat split; vm_compute; reflexivity. Qed.

Example dates_as_text :
  toISOString 0 = "1970-01-01T00:00:00.000Z"
  /\ toISOString 1700000000000 = "2023-11-14T22:13:20.000Z"
  /\ toISOString 951782400000 = "2000-02-29T00:00:00.000Z"
  /\ toISOString (-1) = "1969-12-31T23:59:59.999Z".
Proof. repeat split; vm_compute; reflexivity. Qed.

Example patterns :
  map (fun s => regex_test dsrId_pattern (VStr s)) ["DSR001"; "DSR01"; "DSR0011"; "dsr001"]
  = [Return true; Return false; Return false; Return false]
  /\ map (fun s => regex_test date_pattern (VStr s)) ["1-Jan"; "12-Feb"; "123-Feb"; "1-Ja"]
     = [Return true; Return true; Return false; Return false]
  /\ regex_test dsrId_pattern (VInt 5) = Return false.
Proof. repeat split; vm_compute; reflexivity. Qed.

Example stringify_values :
  JSON_stringify (VArr [VInt 1; VNull; VBool true; VUndef; VNum NaN; VObj [("u", VUndef)]])
  = Some "[1,null,true,null,null,{}]"
  /\ JSON_stringify VUndef = None
  /\ JSON_stringify (VDate 0) = Some (JSON_quote "1970-01-01T00:00:00.000Z").
Proof. repeat split; vm_compute; reflexivity. Qed.

Example parse_values :
  JSON_parse " [1, 2.5e1, -0.5, null, true, [], {}] "
  = Some (VArr [VInt 1; VInt 25; VNum (Fin (-1 # 2)); VNull; VBool true; VArr []; VObj []])
  /\ map JSON_parse ["01"; "[1,]"; "{}x"; "nul"; "undefined"; EmptyString]
     = [None; None; None; None; None; None].
Proof. repeat split; vm_compute; reflexivity. Qed.

(** What is saved is read back as it was, as long as it holds no Date,
    no [undefined] and no number that is not finite. *)
Example parse_after_stringify :
  let v := VArr [VObj [("id", VStr "a\b"); ("n", VNum (Fin (3 # 2)));
                       ("tags", VArr [VStr "x y"; VNull; VBool false])]] in
  option_map JSON_parse (JSON_stringify v) = Some (Some v).
Proof. vm_compute. reflexivity. Qed.

Example slices :
  slice [1; 2; 3; 4; 5] 1 3 = [2; 3]
  /\ slice [1; 2; 3; 4; 5] (-2) 10 = [4; 5]
  /\ slice [1; 2; 3; 4; 5] 3 1 = [].
Proof. repeat split; reflexivity. Qed.

(** The life of one record: added with a generated id, found by a query,
    updated, deleted; each step refreshes the entry of the store in the
    memory tier. *)
Example one_record :
  fst (addData "dsr" (dsr_input VUndef 100 110) 1000 "abc123" initial_world)
    = Return (VObj [("id", VStr "abc123"); ("name", VStr "John"); ("dsrId", VStr "DSR001");
                    ("cluster", VStr "North"); ("captainName", VStr "Captain A");
                    ("lastMonthActual", VInt 100); ("thisMonthActual", VInt 110);
                    ("slab", VStr "Gold");
                    ("createdAt", VDate 1000); ("updatedAt", VDate 1000)])
  /\ fst (queryData "dsr" limit_zero page_one_dsr) = Return dsr_items_one
  /\ option_map (fun kv => timestamp (snd kv)) (hd_error (memoryCache page_one_dsr)) = Some 1000
  /\ records "dsr" (after (updateData "dsr" (VStr "abc123")
                             (VObj [("thisMonthActual", VInt 120)]) 2000 page_one_dsr))
     = Some (VArr [VObj [("id", VStr "abc123"); ("name", VStr "John");
                         ("dsrId", VStr "DSR001"); ("cluster", VStr "North");
                         ("captainName", VStr "Captain A");
                         ("lastMonthActual", VInt 100); ("thisMonthActual", VInt 120);
                         ("slab", VStr "Gold");
                         ("createdAt", VDate 1000); ("updatedAt", VDate 2000)]])
  /\ records "dsr" (after (deleteData "dsr" (VStr "abc123") 2000 page_one_dsr))
     = Some (VArr [])
  /\ fst (get "dsr-data" SMemory 2500
            (after (deleteData "dsr" (VStr "abc123") 2000 page_one_dsr)))
     = Return (VArr []).
Proof. repeat split; vm_compute; reflexivity. Qed.

(** ** Property lists *)

Section Assoc.
Context {A : Type}.
Implicit Types (l : list (string * A)) (k : string) (v : A).

Lemma assoc_set_same l k v : assoc k (assoc_set k v l) = Some v.
Proof.
  induction l as [|[k' v'] l IH]; simpl.
  - now rewrite String.eqb_refl.
  - destruct (String.eqb k k') eqn:E; simpl.
    + now rewrite String.eqb_refl.
    + now rewrite E.
Qed.

Lemma assoc_set_other l k k' v : k <> k' -> assoc k (assoc_set k' v l) = assoc k l.
Proof.
  intros Hne. induction l as [|[k0 v0] l IH]; simpl.
  - destruct (String.eqb_spec k k'); congruence.
  - destruct (String.eqb_spec k' k0) as [->|Hk0]; simpl.
    + destruct (String.eqb_spec k k0); congruence.
    + destruct (String.eqb_spec k k0); auto.
Qed.

Lemma assoc_set_length l k v :
  List.length (assoc_set k v l) = match assoc k l with
                                  | Some _ => List.length l
                                  | None => S (List.length l)
                                  end.
Proof.
  induction l as [|[k0 v0] l IH]; simpl; auto.
  destruct (String.eqb k k0); simpl; auto.
  rewrite IH. now destruct (assoc k l).
Qed.

Lemma assoc_remove_length l k :
  In k (map fst l) -> S (List.length (assoc_remove k l)) = List.length l.
Proof.
  induction l as [|[k0 v0] l IH]; simpl; [tauto|].
  intros [->|Hin].
  - now rewrite String.eqb_refl.
  - destruct (String.eqb k k0); simpl; auto.
Qed.

Lemma assoc_In l k v : assoc k l = Some v -> In (k, v) l.
Proof.
  induction l as [|[k0 v0] l IH]; simpl; [discriminate|].
  destruct (String.eqb_spec k k0) as [->|]; intros H.
  - left. congruence.
  - right. auto.
Qed.

End Assoc.

(** ** Whole numbers inside [jsnum] *)

Lemma Qltb_inject (a b : Z) : Qltb (inject_Z a) (inject_Z b) = (a <? b).
Proof.
  unfold Qltb. destruct (Z.ltb_spec a b) as [H|H].
  - apply negb_true_iff. destruct (Qle_bool (inject_Z b) (inject_Z a)) eqn:E; auto.
    apply Qle_bool_iff in E. rewrite <- Zle_Qle in E. lia.
  - apply negb_false_iff. apply Qle_bool_iff. rewrite <- Zle_Qle. lia.
Qed.

Lemma Qltb_proper (a a' b b' : Q) : a == a' -> b == b' -> Qltb a b = Qltb a' b'.
Proof.
  intros Ha Hb. unfold Qltb. f_equal.
  destruct (Qle_bool b a) eqn:E, (Qle_bool b' a') eqn:E'; auto.
  - apply Qle_bool_iff in E. rewrite Ha, Hb in E. apply Qle_bool_iff in E. congruence.
  - apply Qle_bool_iff in E'. rewrite <- Ha, <- Hb in E'. apply Qle_bool_iff in E'. congruence.
Qed.

Lemma Qis_zero_proper (a a' : Q) : a == a' -> Qis_zero a = Qis_zero a'.
Proof.
  intros Ha. unfold Qis_zero.
  destruct (Qeq_bool a 0) eqn:E, (Qeq_bool a' 0) eqn:E'; auto.
  - apply Qeq_bool_iff in E. rewrite Ha in E. apply Qeq_bool_iff in E. congruence.
  - apply Qeq_bool_iff in E'. rewrite <- Ha in E'. apply Qeq_bool_iff in E'. congruence.
Qed.

(** [a - b] on two whole numbers is the whole number [a - b]. *)
Lemma num_sub_Z (a b : Z) :
  exists q, num_sub (num_of_Z a) (num_of_Z b) = Fin q /\ q == inject_Z (a - b).
Proof.
  eexists. split; [reflexivity|].
  rewrite Qred_correct, Qred_correct.
  unfold Z.sub. rewrite inject_Z_plus, inject_Z_opp. reflexivity.
Qed.

(** The operators on numbers: nothing is converted and nothing raises. *)
Lemma js_sub_num (x y : jsnum) : js_sub (VNum x) (VNum y) = Return (VNum (num_sub x y)).
Proof. reflexivity. Qed.

Lemma js_div_num (x y : jsnum) : js_div (VNum x) (VNum y) = Return (VNum (num_div x y)).
Proof. reflexivity. Qed.

Lemma js_lt_num (x y : jsnum) : js_lt (VNum x) (VNum y) = Return (num_ltb x y).
Proof. reflexivity. Qed.

Lemma js_gt_num (x y : jsnum) : js_gt (VNum x) (VNum y) = Return (num_ltb y x).
Proof. reflexivity. Qed.

Lemma js_lt_whole (a b : Z) : js_lt (VInt a) (VInt b) = Return (a <? b).
Proof. unfold VInt. rewrite js_lt_num. f_equal. apply Qltb_inject. Qed.

Lemma js_gt_whole (a b : Z) : js_gt (VInt a) (VInt b) = Return (b <? a).
Proof. unfold VInt. rewrite js_gt_num. f_equal. apply Qltb_inject. Qed.

(** [now - timestamp < ttl] on whole numbers, as [isValid] computes it. *)
Lemma age_below (now stamp life : Z) :
  bind (js_sub (VInt now) (VInt stamp)) (fun age => js_lt age (VInt life))
  = Return (now - stamp <? life).
Proof.
  unfold VInt. rewrite js_sub_num. cbn [bind].
  destruct (num_sub_Z now stamp) as (q & -> & Hq).
  rewrite js_lt_num. f_equal. cbn [num_ltb num_of_Z].
  rewrite (Qltb_proper q (inject_Z (now - stamp)) _ (inject_Z life) Hq (Qeq_refl _)).
  apply Qltb_inject.
Qed.

(** [isValid] on an entry that [set] has built is the comparison of
    whole numbers [now - timestamp < ttl]. *)
Lemma isValid_entry (now : Z) (e : CacheEntry) :
  isValid now (entry_object e) = Return (now - timestamp e <? ttl e).
Proof.
  unfold isValid.
  change (get_prop (entry_object e) "timestamp") with (Some (VInt (timestamp e))).
  change (get_prop (entry_object e) "ttl") with (Some (VInt (ttl e))).
  cbn [read bind]. apply age_below.
Qed.

Lemma valid_entry_spec (now : Z) (e : CacheEntry) :
  valid_entry now e = (now - timestamp e <? ttl e).
Proof. unfold valid_entry. now rewrite isValid_entry. Qed.

(** ** The growth rule of the store 'dsr' *)

(** On a baseline of zero every positive [thisMonthActual] gives the
    growth rate [Infinity], which the rule rejects. *)
Lemma zero_baseline_rejected (t : Z) (record : jsval) :
  0 < t ->
  get_prop record "lastMonthActual" = Some (VInt 0) ->
  dsr_thisMonthActual (VInt t) record = Return (RuleInvalid "Growth rate cannot exceed 50%").
Proof.
  intros Ht Hlast. unfold dsr_thisMonthActual. rewrite Hlast. cbn [read bind].
  unfold VInt. rewrite js_sub_num. cbn [bind]. rewrite js_div_num. cbn [bind].
  rewrite js_gt_num. cbn [bind].
  destruct (num_sub_Z t 0) as (q & -> & Hq).
  assert (Hpos : Qltb 0 q = true).
  { rewrite (Qltb_proper 0 (inject_Z 0) q (inject_Z t)).
    - rewrite Qltb_inject. now apply Z.ltb_lt.
    - reflexivity.
    - rewrite Hq. now rewrite Z.sub_0_r. }
  assert (Hnz : Qis_zero q = false).
  { rewrite (Qis_zero_proper q (inject_Z t)) by (rewrite Hq; now rewrite Z.sub_0_r).
    unfold Qis_zero, Qeq_bool, inject_Z. cbn. apply Z.eqb_neq. lia. }
  unfold num_div, num_of_Z.
  change (Qis_zero (inject_Z 0)) with true. cbv iota.
  rewrite Hnz, Hpos. reflexivity.
Qed.

Lemma zero_baseline_rejected_witness :
  dsr_thisMonthActual (VInt 50) (dsr_record 0 50)
  = Return (RuleInvalid "Growth rate cannot exceed 50%").
Proof.
  apply zero_baseline_rejected; [lia | reflexivity].
Defined.

(** C1 (the code departs from the claim).  [validate('dsr', r)] on a
    complete record [r] with [lastMonthActual: 0] and [thisMonthActual: 50]
    does not pass: the rule divides by the baseline, the growth rate is
    [Infinity], and the record is rejected with the growth-ceiling error,
    the very error of the record with 100 and 160.  (A growth of exactly
    one half passes, and so does [0] over [0], whose rate is [NaN].) *)
Theorem validate_dsr_zero_baseline :
  validateData "dsr" (dsr_record 0 50) initial_world
    = Return {| valid := false; errors := ["Growth rate cannot exceed 50%"] |}
  /\ validateData "dsr" (dsr_record 100 160) initial_world
    = Return {| valid := false; errors := ["Growth rate cannot exceed 50%"] |}
  /\ validateData "dsr" (dsr_record 100 150) initial_world
    = Return {| valid := true; errors := [] |}
  /\ validateData "dsr" (dsr_record 0 0) initial_world
    = Return {| valid := true; errors := [] |}.
Proof.
  repeat split; vm_compute; reflexivity.
Qed.

(** ** [get]: which entry is taken *)

Lemma member_touched (v a b : jsval) :
  member (set_prop (set_prop v "accessCount" a) "lastAccess" b) "value" = member v "value".
Proof.
  destruct v; try reflexivity.
  unfold set_prop, member, get_prop.
  rewrite !assoc_set_other by discriminate. reflexivity.
Qed.

Lemma value_touched (now : Z) (h h' : Hit) :
  touch now h = Return h' ->
  member (hit_object h') "value" = member (hit_object h) "value".
Proof.
  destruct h as [k e|v]; cbn [touch].
  - now intros [= <-].
  - destruct (ToNumber (member v "accessCount")) as [count|]; cbn [bind]; [|discriminate].
    intros [= <-]. apply member_touched.
Qed.

(** The increment of [get] raises when the count it finds cannot be made
    a number, and only then. *)
Lemma touch_count (now : Z) (h : Hit) :
  match touch now h with
  | Return _ => exists count, ToNumber (member (hit_object h) "accessCount") = Return count
  | Throw e => ToNumber (member (hit_object h) "accessCount") = Throw e
  end.
Proof.
  destruct h as [k e|v]; cbn [touch hit_object].
  - now eexists.
  - destruct (ToNumber (member v "accessCount")) as [count|]; cbn [bind]; [now eexists | reflexivity].
Qed.

Lemma get_answer (key : string) (strategy : Strategy) (now : Z) (w : World) :
  fst (get key strategy now w) =
  match lookup key strategy w with
  | Some h => answer now (hit_object h)
  | None => Return VNull
  end.
Proof.
  unfold get, answer. destruct (lookup key strategy w) as [h|]; [|reflexivity].
  destruct (isValid now (hit_object h)) as [[|]|e]; cbn [bind fst]; try reflexivity.
  pose proof (touch_count now h) as C. pose proof (value_touched now h) as V.
  destruct (touch now h) as [h'|e].
  - destruct C as [count ->]. cbn [bind fst]. now rewrite (V h' eq_refl).
  - now rewrite C.
Qed.

(** [get] changes the page only when it returns a value it has found. *)
Lemma get_page (key : string) (strategy : Strategy) (now : Z) (w : World) :
  after (get key strategy now w) = w
  \/ exists h h', lookup key strategy w = Some h
                  /\ isValid now (hit_object h) = Return true
                  /\ touch now h = Return h'
                  /\ after (get key strategy now w) = commit h' w.
Proof.
  unfold get, after. destruct (lookup key strategy w) as [h|]; [|now left].
  destruct (isValid now (hit_object h)) as [[|]|e] eqn:V; try (now left).
  destruct (touch now h) as [h'|e] eqn:T; [|now left].
  right. exists h, h'. repeat split; assumption.
Qed.

(** C2 (counterexample).  "k" sits in the memory tier, expired, and in
    the durable tier, valid.  The first valid hit in the order memory,
    session, durable is the durable one, "new"; [get("k", 'auto')]
    answers [null]. *)
Lemma get_auto_shadowed :
  first_valid_hit "k" 3000 page_shadowed_k = VStr "new"
  /\ fst (get "k" SAuto 3000 page_shadowed_k) = Return VNull
  /\ fst (get "k" SAuto 3000 page_shadowed_k)
     <> Return (first_valid_hit "k" 3000 page_shadowed_k).
Proof.
  assert (H1 : first_valid_hit "k" 3000 page_shadowed_k = VStr "new") by (vm_compute; reflexivity).
  assert (H2 : fst (get "k" SAuto 3000 page_shadowed_k) = Return VNull)
    by (vm_compute; reflexivity).
  repeat split; auto. rewrite H1, H2. discriminate.
Qed.

(** C2 (as amended).  [get(key, 'auto')] looks into the memory tier, then
    the session tier, then the durable tier, and stops at the first tier
    that holds an entry for the key, valid or not; the answer is the
    value of that entry when it is valid and [null] when it is not, so an
    expired entry of an earlier tier hides the entries of the later ones.
    (On an entry read from a storage whose [timestamp], [ttl] or
    [accessCount] cannot be made a number the answer is the [TypeError]
    of that conversion.) *)
Theorem get_auto_first_present (key : string) (now : Z) (w : World) :
  fst (get key SAuto now w) =
  match getMemoryCache key w with
  | Some e => answer now (entry_object e)
  | None =>
      if truthy (getSessionStorageCache key w)
      then answer now (getSessionStorageCache key w)
      else if truthy (getLocalStorageCache key w)
           then answer now (getLocalStorageCache key w)
           else Return VNull
  end.
Proof.
  rewrite get_answer. unfold lookup, from_memory, from_storage.
  destruct (getMemoryCache key w) as [e|]; cbn [option_map or_else]; [reflexivity|].
  destruct (truthy (getSessionStorageCache key w)); cbn [or_else]; [reflexivity|].
  destruct (truthy (getLocalStorageCache key w)); reflexivity.
Qed.

(** On an entry of the Map [get] answers its value for as long as it is
    valid, and [null] afterwards: nothing raises. *)
Lemma answer_entry (now : Z) (e : CacheEntry) :
  answer now (entry_object e)
  = Return (if now - timestamp e <? ttl e then deserialize (value_of e) else VNull).
Proof.
  unfold answer. rewrite isValid_entry. cbn [bind].
  now destruct (now - timestamp e <? ttl e).
Qed.

(** An entry that is valid is an object, hence truthy. *)
Lemma isValid_truthy (now : Z) (v : jsval) : isValid now v = Return true -> truthy v = true.
Proof.
  destruct v; try reflexivity; unfold isValid; intros H; exfalso; revert H.
  - cbn. discriminate.
  - cbn. discriminate.
  - cbn. discriminate.
  - cbn. discriminate.
  - unfold get_prop.
    change (String.eqb "timestamp" "length") with false.
    change (String.eqb "ttl" "length") with false.
    change (index_of_key "timestamp") with (@None nat).
    change (index_of_key "ttl") with (@None nat). cbn. discriminate.
Qed.

(** A value that only the durable tier holds is found by an 'auto' read:
    the two tiers probed first miss and the read falls through. *)
Lemma get_auto_falls_through (key : string) (now : Z) (w : World) (count : jsnum) :
  getMemoryCache key w = None ->
  truthy (getSessionStorageCache key w) = false ->
  isValid now (getLocalStorageCache key w) = Return true ->
  ToNumber (member (getLocalStorageCache key w) "accessCount") = Return count ->
  fst (get key SAuto now w)
  = Return (deserialize (member (getLocalStorageCache key w) "value")).
Proof.
  intros Hm Hs Hv Hc. rewrite get_answer. unfold lookup, from_memory, from_storage.
  rewrite Hm, Hs, (isValid_truthy now _ Hv). cbn [option_map or_else hit_object].
  unfold answer. rewrite Hv. cbn [bind]. now rewrite Hc.
Qed.

Lemma get_auto_falls_through_witness :
  fst (get "k" SAuto 2000
         (run (set "k" (VStr "v") durable_options 1000 initial_world) initial_world))
  = Return (VStr "v").
Proof.
  exact (get_auto_falls_through "k" 2000
           (run (set "k" (VStr "v") durable_options 1000 initial_world) initial_world)
           (num_of_Z 0) eq_refl eq_refl eq_refl eq_refl).
Defined.

(** ** The capacity of the memory tier *)

(** C3 (the code departs from the claim).  The loop of the repository's
    eviction test, [set(`key-${i}`, { data: i }, { strategy: 'memory' })],
    run within one millisecond: [evictMemoryCache] starts its scan from
    [oldestTime = Date.now()] and keeps an entry only if its [lastAccess]
    is strictly below, so no entry written in the same millisecond is
    ever chosen, nothing is evicted, and the Map holds 101 entries after
    101 calls (150 after the 150 calls of the test).  When the clock
    advances between the calls the Map stays at 100 and the first key is
    the one that is gone. *)
Theorem memory_tier_overflows :
  List.length (memoryCache (fill 101 (fun _ => 5000) initial_world)) = 101%nat
  /\ List.length (memoryCache (fill 150 (fun _ => 5000) initial_world)) = 150%nat
  /\ List.length (memoryCache (fill 101 (fun i => 5000 + Z.of_nat i) initial_world)) = 100%nat
  /\ getMemoryCache (key_n 0) (fill 101 (fun i => 5000 + Z.of_nat i) initial_world) = None.
Proof.
  repeat split; vm_compute; reflexivity.
Qed.

(** The scan of [evictMemoryCache] either keeps its starting point,
    because no entry is older, or ends on a key of the Map. *)
Lemma oldest_scan (m : list (string * CacheEntry)) :
  forall acc,
    (fst (fold_left oldest_step m acc) = fst acc
     /\ Forall (fun kv => snd acc <= lastAccess (snd kv)) m)
    \/ (exists k, fst (fold_left oldest_step m acc) = Some k /\ In k (map fst m)).
Proof.
  induction m as [|kv m IH]; intros acc; cbn [fold_left].
  - left. split; [reflexivity | constructor].
  - assert (E : oldest_step acc kv =
                 if lastAccess (snd kv) <? snd acc
                 then (Some (fst kv), lastAccess (snd kv)) else acc) by reflexivity.
    rewrite E. clear E.
    destruct (Z.ltb_spec (lastAccess (snd kv)) (snd acc)) as [Hlt|Hge].
    + right. destruct (IH (Some (fst kv), lastAccess (snd kv))) as [[Hk _]|(k & Hk & Hin)].
      * exists (fst kv). split; [exact Hk | now left].
      * exists k. split; [exact Hk | now right].
    + destruct (IH acc) as [[Hk Hall]|(k & Hk & Hin)].
      * left. split; [exact Hk | now constructor].
      * right. exists k. split; [exact Hk | now right].
Qed.

Lemma settled_later (t now : Z) (m : list (string * CacheEntry)) :
  t <= now -> settled t m -> settled now m.
Proof.
  intros Hle H. unfold settled in *. rewrite Forall_forall in *.
  intros kv Hin. destruct (H kv Hin). split; [lia | assumption].
Qed.

Lemma settled_remove (now : Z) (k : string) (m : list (string * CacheEntry)) :
  settled now m -> settled now (assoc_remove k m).
Proof.
  unfold settled. induction m as [|[k0 e0] m IH]; cbn [assoc_remove]; intros H; [constructor|].
  inversion H; subst. destruct (String.eqb k k0); [assumption|].
  constructor; auto.
Qed.

Lemma settled_set (now : Z) (k : string) (e : CacheEntry) (m : list (string * CacheEntry)) :
  lastAccess e < now -> k <> EmptyString -> settled now m -> settled now (assoc_set k e m).
Proof.
  intros He Hk. unfold settled.
  induction m as [|[k0 e0] m IH]; cbn [assoc_set]; intros H.
  - constructor; [split; assumption | constructor].
  - inversion H; subst. destruct (String.eqb k k0); constructor; auto.
Qed.

(** The key the scan ends on belongs to an entry whose [lastAccess] is
    the least of the Map: the entry evicted is a least recently accessed
    one. *)
Lemma oldest_is_least (m : list (string * CacheEntry)) :
  forall acc k,
    fst (fold_left oldest_step m acc) = Some k ->
    fst acc = None ->
    exists e, In (k, e) m
              /\ lastAccess e = snd (fold_left oldest_step m acc)
              /\ Forall (fun kv => lastAccess e <= lastAccess (snd kv)) m.
Proof.
  assert (Hinv : forall m acc,
             let r := fold_left oldest_step m acc in
             snd r <= snd acc
             /\ Forall (fun kv => snd r <= lastAccess (snd kv)) m
             /\ (r = acc \/ exists kv, In kv m /\ r = (Some (fst kv), lastAccess (snd kv)))).
  { clear m. induction m as [|kv m IH]; intros acc; cbn [fold_left].
    - split; [lia|]. split; [constructor | now left].
    - destruct (IH (oldest_step acc kv)) as (Hle & Hall & Hr).
      assert (Hstep : snd (oldest_step acc kv) <= snd acc
                      /\ snd (oldest_step acc kv) <= lastAccess (snd kv)
                      /\ (oldest_step acc kv = acc
                          \/ oldest_step acc kv = (Some (fst kv), lastAccess (snd kv)))).
      { unfold oldest_step.
        destruct (Z.ltb_spec (lastAccess (snd kv)) (snd acc)); cbn [snd]; repeat split;
          try lia; auto. }
      destruct Hstep as (Hs1 & Hs2 & Hs3).
      split; [lia|]. split; [constructor; [lia | exact Hall]|].
      destruct Hr as [Hr|(kv' & Hin & Hr)].
      + rewrite Hr. destruct Hs3 as [->| ->]; [now left|].
        right. exists kv. split; [now left | reflexivity].
      + right. exists kv'. split; [now right | exact Hr]. }
  intros acc k Hk Hnone. destruct (Hinv m acc) as (_ & Hall & Hr).
  destruct Hr as [Hr|(kv & Hin & Hr)].
  - rewrite Hr in Hk. congruence.
  - rewrite Hr in Hk, Hall |- *. cbn [fst snd] in *.
    exists (snd kv). injection Hk as <-. split; [now destruct kv|]. split; [reflexivity | exact Hall].
Qed.

Lemma oldest_is_least_witness :
  exists e,
    In ("a", e) [("b", {| value := None; timestamp := 0; ttl := 1; priority := "normal";
                          accessCount := 0; lastAccess := 7 |});
                 ("a", {| value := None; timestamp := 0; ttl := 1; priority := "normal";
                          accessCount := 0; lastAccess := 3 |})]
    /\ lastAccess e = 3
    /\ Forall (fun kv => lastAccess e <= lastAccess (snd kv))
         [("b", {| value := None; timestamp := 0; ttl := 1; priority := "normal";
                   accessCount := 0; lastAccess := 7 |});
          ("a", {| value := None; timestamp := 0; ttl := 1; priority := "normal";
                   accessCount := 0; lastAccess := 3 |})].
Proof.
  exact (oldest_is_least
           [("b", {| value := None; timestamp := 0; ttl := 1; priority := "normal";
                     accessCount := 0; lastAccess := 7 |});
            ("a", {| value := None; timestamp := 0; ttl := 1; priority := "normal";
                     accessCount := 0; lastAccess := 3 |})]
           (None, 10) "a" eq_refl eq_refl).
Defined.

(** On a settled, non-empty tier [evictMemoryCache] removes one entry. *)
Lemma evictMemoryCache_removes_one (now : Z) (w : World) :
  settled now (memoryCache w) ->
  memoryCache w <> [] ->
  S (List.length (memoryCache (evictMemoryCache now w))) = List.length (memoryCache w)
  /\ settled now (memoryCache (evictMemoryCache now w)).
Proof.
  intros Hs Hne. unfold evictMemoryCache, oldest.
  destruct (oldest_scan (memoryCache w) (None, now)) as [[_ Hall]|(k & Hk & Hin)].
  - exfalso. destruct (memoryCache w) as [|kv m]; [congruence|].
    inversion Hall; subst. inversion Hs; subst. cbn [snd] in *. lia.
  - rewrite Hk.
    assert (Hnonempty : String.eqb k EmptyString = false).
    { apply String.eqb_neq. unfold settled in Hs. rewrite Forall_forall in Hs.
      apply in_map_iff in Hin. destruct Hin as (kv & <- & Hkv). apply (Hs kv Hkv). }
    rewrite Hnonempty. cbn [memoryCache with_memoryCache]. split.
    + now apply assoc_remove_length.
    + now apply settled_remove.
Qed.

(** One [setMemoryCache] on a settled tier within its capacity leaves it
    within its capacity. *)
Lemma setMemoryCache_within_capacity (key : string) (entry : CacheEntry) (now : Z) (w : World) :
  settled now (memoryCache w) ->
  (List.length (memoryCache w) <= memory_maxSize)%nat ->
  (List.length (memoryCache (setMemoryCache key entry now w)) <= memory_maxSize)%nat.
Proof.
  intros Hs Hlen. unfold setMemoryCache.
  destruct (Nat.leb_spec memory_maxSize (List.length (memoryCache w))) as [Hfull|Hroom];
    cbn [memoryCache with_memoryCache]; rewrite assoc_set_length.
  - destruct (evictMemoryCache_removes_one now w Hs) as [Hone _].
    { intros E. rewrite E in Hfull. cbv in Hfull. lia. }
    destruct (assoc key (memoryCache (evictMemoryCache now w))); lia.
  - destruct (assoc key (memoryCache w)); lia.
Qed.

(** When the clock advances between any two calls, the memory tier never
    exceeds its capacity. *)
Lemma memory_capacity_when_ticking (calls : list (string * jsval * Z)) :
  forall (t : Z) (w : World),
    ticking t calls ->
    settled (t + 1) (memoryCache w) ->
    (List.length (memoryCache w) <= memory_maxSize)%nat ->
    (List.length (memoryCache (set_all calls w)) <= memory_maxSize)%nat.
Proof.
  induction calls as [|[[k v] now] calls IH]; intros t w Htick Hs Hlen; [exact Hlen|].
  destruct Htick as (Hlt & Hk & Htick). cbn [fst snd] in *.
  unfold set_all. cbn [fold_left fst snd]. fold (set_all calls).
  change (run (set k v memory_options now w) w)
    with (setMemoryCache k
            {| value := serialize v; timestamp := now; ttl := 5 * 60 * 1000;
               priority := "normal"; accessCount := 0; lastAccess := now |} now w).
  assert (Hnow : settled now (memoryCache w)) by (apply (settled_later (t + 1)); [lia | exact Hs]).
  apply (IH now).
  - exact Htick.
  - unfold setMemoryCache.
    destruct (memory_maxSize <=? List.length (memoryCache w))%nat;
      cbn [memoryCache with_memoryCache]; apply settled_set; cbn [lastAccess]; try lia; auto.
    + apply (settled_later now); [lia|].
      unfold evictMemoryCache. destruct (fst (oldest now (memoryCache w))) as [k0|]; [|exact Hnow].
      destruct (String.eqb k0 EmptyString); [exact Hnow|].
      cbn [memoryCache with_memoryCache]. now apply settled_remove.
    + apply (settled_later now); [lia | exact Hnow].
  - now apply setMemoryCache_within_capacity.
Qed.

Lemma memory_capacity_when_ticking_witness :
  Nat.le
    (List.length (memoryCache (set_all [("a", VInt 1, 10); ("b", VInt 2, 11)] initial_world)))
    memory_maxSize.
Proof.
  apply (memory_capacity_when_ticking [("a", VInt 1, 10); ("b", VInt 2, 11)] 9).
  - cbn. repeat split; try lia; discriminate.
  - constructor.
  - cbn. unfold memory_maxSize. lia.
Defined.

(** ** [validateData]: which errors are recorded *)

(** C4 (counterexample).  The field [cluster] holds the number 5: the
    type check fails, and the enum check, which comes later for the same
    field, fails as well and is recorded too.  Only the first of the two
    would be recorded if a field were left at its first failure. *)
Lemma validate_records_later_failures :
  validateData "dsr" dsr_bad_cluster initial_world
    = Return {| valid := false;
                errors := ["cluster must be a string";
                           "cluster must be one of: North, South, East, West"] |}
  /\ validate_first_failures "dsr" dsr_bad_cluster initial_world
    = Return {| valid := false; errors := ["cluster must be a string"] |}
  /\ validateData "dsr" dsr_bad_cluster initial_world
     <> validate_first_failures "dsr" dsr_bad_cluster initial_world.
Proof.
  assert (H1 : validateData "dsr" dsr_bad_cluster initial_world
               = Return {| valid := false;
                           errors := ["cluster must be a string";
                                      "cluster must be one of: North, South, East, West"] |})
    by (vm_compute; reflexivity).
  assert (H2 : validate_first_failures "dsr" dsr_bad_cluster initial_world
               = Return {| valid := false; errors := ["cluster must be a string"] |})
    by (vm_compute; reflexivity).
  split; [exact H1|]. split; [exact H2|].
  rewrite H1, H2. discriminate.
Qed.

Lemma record_failures (checks : list (outcome bool * string)) :
  forall errors,
    foldM record_failure checks errors
    = bind (all_of checks) (fun found => Return (errors ++ found)%list).
Proof.
  induction checks as [|[test message] checks IH]; intros errors; cbn [foldM all_of bind].
  - now rewrite app_nil_r.
  - unfold record_failure at 1. cbn [fst snd].
    destruct test as [failed|e]; cbn [bind]; [|reflexivity].
    rewrite IH. destruct (all_of checks) as [found|e]; cbn [bind]; [|reflexivity].
    unfold push_if, push. destruct failed; [|reflexivity].
    now rewrite <- app_assoc.
Qed.

Lemma get_prop_present (data : jsval) (k : string) :
  is_absent data = false -> get_prop data k = Some (member data k).
Proof.
  intros H. unfold member.
  destruct data; try discriminate H; unfold get_prop; try reflexivity;
    (destruct (String.eqb k "length"); [reflexivity|]);
    destruct (index_of_key k); reflexivity.
Qed.

(** On a value that is present the body of the loop runs the checks of
    the field one after the other. *)
Lemma validate_field_checks (data : jsval) (errors : list string) (field : string)
  (rules : FieldRule) :
  is_absent data = false ->
  (required rules && is_missing (member data field)) = false ->
  is_absent (member data field) = false ->
  validate_field data errors (field, rules)
  = foldM record_failure (checks_of field rules (member data field)) errors.
Proof.
  intros Hdata Hreq Hpresent. unfold validate_field.
  rewrite (get_prop_present data field Hdata). cbn [read bind].
  revert Hreq Hpresent. generalize (member data field). intros v Hreq Hpresent.
  change (is_undefined v || is_null v || strict_eq v (VStr EmptyString)) with (is_missing v).
  rewrite Hreq.
  replace (negb (is_undefined v) && negb (is_null v)) with (negb (is_absent v))
    by (unfold is_absent; now destruct (is_undefined v), (is_null v)).
  rewrite Hpresent. cbn [negb].
  unfold checks_of, type_check, push_with, of_option.
  destruct (type rules), (minLength rules), (maxLength rules), (min rules), (max rules),
    (pattern rules), (enum rules); reflexivity.
Qed.

(** The body of the loop appends to [errors] exactly the errors of the
    field: the failure of the required check alone, or else every
    failing check of a present value; and it raises when a test does. *)
Lemma validate_field_appends (data : jsval) (errors : list string) (entry : string * FieldRule) :
  is_absent data = false ->
  validate_field data errors entry
  = bind (field_errors data entry) (fun found => Return (errors ++ found)%list).
Proof.
  intros Hdata. destruct entry as [field rules].
  destruct (required rules && is_missing (member data field)) eqn:Hreq.
  - unfold validate_field, field_errors. cbn [fst snd].
    rewrite (get_prop_present data field Hdata). cbn [read bind].
    change (is_undefined (member data field) || is_null (member data field)
            || strict_eq (member data field) (VStr EmptyString))
      with (is_missing (member data field)).
    now rewrite Hreq.
  - destruct (is_absent (member data field)) eqn:Hpresent.
    + unfold validate_field, field_errors. cbn [fst snd].
      rewrite (get_prop_present data field Hdata). cbn [read bind].
      change (is_undefined (member data field) || is_null (member data field)
              || strict_eq (member data field) (VStr EmptyString))
        with (is_missing (member data field)).
      rewrite Hreq, Hpresent.
      replace (negb (is_undefined (member data field)) && negb (is_null (member data field)))
        with (negb (is_absent (member data field)))
        by (unfold is_absent;
            now destruct (is_undefined (member data field)), (is_null (member data field))).
      rewrite Hpresent. cbn [negb bind]. now rewrite app_nil_r.
    + rewrite (validate_field_checks data errors field rules Hdata Hreq Hpresent).
      unfold field_errors. cbn [fst snd]. rewrite Hreq, Hpresent.
      apply record_failures.
Qed.

Lemma validate_fields (data : jsval) (s : Schema) :
  is_absent data = false ->
  forall errors,
    foldM (validate_field data) s errors
    = bind (gather (field_errors data) s) (fun found => Return (errors ++ found)%list).
Proof.
  intros Hdata. induction s as [|entry s IH]; intros errors; cbn [foldM gather bind].
  - now rewrite app_nil_r.
  - rewrite (validate_field_appends data errors entry Hdata).
    destruct (field_errors data entry) as [found|e]; cbn [bind]; [|reflexivity].
    rewrite IH. destruct (gather (field_errors data) s) as [more|e]; cbn [bind]; [|reflexivity].
    now rewrite app_assoc.
Qed.

(** The business rules only append to the errors they are given. *)
Lemma apply_rules_appends (data : jsval) (rules : list (string * Rule)) :
  forall errors,
    foldM (apply_rule data) rules errors
    = bind (rule_errors data rules) (fun found => Return (errors ++ found)%list).
Proof.
  unfold rule_errors.
  induction rules as [|[field rule] rules IH]; intros errors; cbn [foldM bind].
  - now rewrite app_nil_r.
  - unfold apply_rule at 1 3.
    destruct (get_prop data field) as [v|]; cbn [read bind]; [|reflexivity].
    destruct (is_undefined v); cbn [negb bind].
    + apply IH.
    + destruct (rule v data) as [[|message]|e]; cbn [bind]; [apply IH| |reflexivity].
      rewrite (IH (push errors message)), (IH (push [] message)).
      destruct (foldM (apply_rule data) rules []) as [found|e]; cbn [bind]; [|reflexivity].
      unfold push. cbn [app]. now rewrite <- app_assoc.
Qed.

(** C4 (as amended).  For a record that is an object, [validate] records
    for each field of the schema, in the order of the schema, either the
    failure of the required check alone, or else every failing check of
    the value among type, length, range, pattern and enum, in that order:
    only a missing required value moves on to the next field at once.
    The messages of the business rules, which run on the whole record,
    come after the errors of all the fields, and the record is valid when
    nothing was recorded.  One thing ends the run early: a length, range
    or pattern test, or a business rule, that meets a value it cannot make
    a primitive raises a [TypeError], and [validate], which does not
    catch it, ends with that exception and without a result. *)
Theorem validateData_all_failures
  (storeName : string) (data : jsval) (w : World) (store : Store) :
  assoc storeName (dataStores w) = Some store ->
  is_absent data = false ->
  validateData storeName data w =
  bind (gather (field_errors data) (schema store)) (fun fields =>
  bind (rule_errors data (rules_of storeName w)) (fun found =>
    let errors := (fields ++ found)%list in
    Return {| valid := is_nil errors; errors := errors |})).
Proof.
  intros Hstore Hdata. unfold validateData, rules_of. rewrite Hstore.
  rewrite (validate_fields data (schema store) Hdata []).
  destruct (gather (field_errors data) (schema store)) as [fields|e]; cbn [bind app];
    [|reflexivity].
  destruct (assoc storeName (validationRules w)) as [businessRules|].
  - rewrite apply_rules_appends.
    destruct (rule_errors data businessRules); reflexivity.
  - cbn [rule_errors foldM bind]. now rewrite app_nil_r.
Qed.

Lemma validateData_all_failures_witness :
  validateData "dsr" dsr_bad_cluster initial_world
  = Return {| valid := false;
              errors := ["cluster must be a string";
                         "cluster must be one of: North, South, East, West"] |}.
Proof.
  exact (validateData_all_failures "dsr" dsr_bad_cluster initial_world
           (empty_store dsr_schema ["id"; "dsrId"; "cluster"; "captainName"]
              ["captainName -> sales.name"])
           eq_refl eq_refl).
Defined.

(** The run that ends early: [monthlyTarget] is an object with an own
    property [toString], the range check [data[field] < rules.min] cannot
    make it a primitive, and [validateData] ends with the [TypeError];
    with a plain object in its place the type check records its error and
    the run goes on to the other fields. *)
Example validate_raises_on_unconvertible :
  validateData "sales" (VObj [("monthlyTarget", VObj [("toString", VInt 1)])]) initial_world
  = Throw TypeError
  /\ validateData "sales" (VObj [("monthlyTarget", VObj [("text", VInt 1)])]) initial_world
     = Return {| valid := false;
                 errors := ["id is required"; "name is required";
                            "monthlyTarget must be a number"; "mtdTarget is required";
                            "mtdActual is required"; "createdAt is required";
                            "updatedAt is required"] |}.
Proof. split; vm_compute; reflexivity. Qed.

(** ** Methods that fail leave the page as it was *)

Section Effects.
Context {A : Type}.

Lemma reads_only_rolls_back (m : M A) : reads_only m -> rolls_back m.
Proof. intros H w e _. apply H. Qed.

Lemma never_throws_rolls_back (m : M A) : never_throws m -> rolls_back m.
Proof. intros H w e Hthrow. destruct (H w e Hthrow). Qed.

Lemma reads_only_ret (a : A) : reads_only (ret a).
Proof. intros w. reflexivity. Qed.

Lemma reads_only_throw (e : exn) : reads_only (@throw A e).
Proof. intros w. reflexivity. Qed.

Lemma reads_only_inspect (f : World -> outcome A) : reads_only (inspect f).
Proof. intros w. reflexivity. Qed.

Lemma never_throws_ret (a : A) : never_throws (ret a).
Proof. intros w e. discriminate. Qed.

End Effects.

Lemma reads_only_find_store (storeName : string) : reads_only (find_store storeName).
Proof. intros w. unfold find_store. now destruct (assoc storeName (dataStores w)). Qed.

Lemma reads_only_bind {A B} (m : M A) (f : A -> M B) :
  reads_only m -> (forall a, reads_only (f a)) -> reads_only (bindM m f).
Proof.
  intros Hm Hf w. unfold bindM. specialize (Hm w).
  destruct (m w) as [[a|e] w']; cbn [snd] in Hm; subst w'.
  - apply Hf.
  - reflexivity.
Qed.

Lemma rolls_back_bind {A B} (m : M A) (f : A -> M B) :
  reads_only m -> (forall a, rolls_back (f a)) -> rolls_back (bindM m f).
Proof.
  intros Hm Hf w e. unfold bindM. specialize (Hm w).
  destruct (m w) as [[a|e'] w']; cbn [snd] in Hm; subst w'.
  - apply Hf.
  - reflexivity.
Qed.

Lemma never_throws_bind {A B} (m : M A) (f : A -> M B) :
  never_throws m -> (forall a, never_throws (f a)) -> never_throws (bindM m f).
Proof.
  intros Hm Hf w e. unfold bindM. specialize (Hm w).
  destruct (m w) as [[a|e'] w'].
  - apply Hf.
  - destruct (Hm e' eq_refl).
Qed.

Lemma never_throws_set_store_data (storeName : string) (d : jsval) :
  never_throws (set_store_data storeName d).
Proof.
  intros w e. unfold set_store_data.
  destruct (assoc storeName (dataStores w)); discriminate.
Qed.

Lemma never_throws_updateIndexes (storeName : string) (record : jsval) :
  never_throws (updateIndexes storeName record).
Proof. intros w e. discriminate. Qed.

(** The write to the memory tier cannot raise. *)
Lemma never_throws_cache_the_data (storeName : string) (now : Z) :
  never_throws (cache_the_data storeName now).
Proof.
  intros w e. unfold cache_the_data, change.
  destruct (cacheManager w); [|discriminate].
  destruct (assoc storeName (dataStores w)); discriminate.
Qed.

(** The three steps that end a mutation: none of them raises. *)
Lemma never_throws_commit (storeName : string) (d record : jsval) (now : Z) :
  never_throws (bindM (set_store_data storeName d) (fun _ =>
                bindM (updateIndexes storeName record) (fun _ =>
                bindM (cache_the_data storeName now) (fun _ => ret record)))).
Proof.
  apply never_throws_bind; [apply never_throws_set_store_data|]. intros _.
  apply never_throws_bind; [apply never_throws_updateIndexes|]. intros _.
  apply never_throws_bind; [apply never_throws_cache_the_data|]. intros _.
  apply never_throws_ret.
Qed.

Create HintDb page discriminated.

#[local] Hint Resolve reads_only_find_store reads_only_inspect reads_only_throw
  reads_only_ret : page.

(** The steps of a method before its first assignment only read the
    page. *)
Ltac reading_step := apply rolls_back_bind; [ solve [ auto with page ] | intro ].

Ltac raising :=
  apply reads_only_rolls_back;
  repeat (apply reads_only_bind; [ solve [ auto with page ] | intro ]);
  solve [ auto with page ].

Ltac committing := apply never_throws_rolls_back, never_throws_commit.

Lemma addData_rolls_back (storeName : string) (data : jsval) (now : Z) (fresh : string) :
  rolls_back (addData storeName data now fresh).
Proof.
  unfold addData. do 3 reading_step.
  match goal with |- context [valid ?v] => destruct (negb (valid v)) end; [raising|].
  do 2 reading_step.
  match goal with |- rolls_back (match ?found with _ => _ end) => destruct found end;
    [raising | committing].
Qed.

Lemma updateData_rolls_back (storeName : string) (id updates : jsval) (now : Z) :
  rolls_back (updateData storeName id updates now).
Proof.
  unfold updateData. do 3 reading_step.
  match goal with |- rolls_back (match ?found with _ => _ end) => destruct found end;
    [|raising].
  reading_step.
  match goal with |- context [valid ?v] => destruct (negb (valid v)) end;
    [raising | committing].
Qed.

Lemma deleteData_rolls_back (storeName : string) (id : jsval) (now : Z) :
  rolls_back (deleteData storeName id now).
Proof.
  unfold deleteData. do 3 reading_step.
  match goal with |- rolls_back (match ?found with _ => _ end) => destruct found end;
    [committing | raising].
Qed.

(** The search for an id that some record of the list carries does not
    come back empty-handed: it finds a record, or raises on the way. *)
Lemma findIndex_id_present (items : list jsval) (id item : jsval) :
  In item items ->
  strict_eq (member item "id") id = true ->
  forall i, findIndex_id items id i <> Return None.
Proof.
  intros Hin Heq. induction items as [|x items IH]; [destruct Hin|].
  intros i. cbn [findIndex_id]. unfold member in Heq.
  destruct (get_prop x "id") as [xid|] eqn:Ex; cbn [read bind]; [|discriminate].
  destruct (strict_eq xid id) eqn:Es; [discriminate|].
  destruct Hin as [->|Hin]; [|now apply IH].
  rewrite Ex in Heq. congruence.
Qed.

Lemma enriched_id (base : list (string * jsval)) (id createdAt updatedAt : jsval) :
  member (VObj (assign base [("id", id); ("createdAt", createdAt); ("updatedAt", updatedAt)])) "id"
  = id.
Proof.
  unfold member, get_prop, assign. cbn [fold_left fst snd].
  rewrite !assoc_set_other by discriminate. now rewrite assoc_set_same.
Qed.

(** [addData] with an id that a record of the store already carries
    raises. *)
Lemma addData_duplicate_throws
  (storeName : string) (data : jsval) (now : Z) (fresh : string) (w : World)
  (store : Store) (items : list jsval) (item : jsval) :
  assoc storeName (dataStores w) = Some store ->
  stored store = VArr items ->
  In item items ->
  truthy (member data "id") = true ->
  strict_eq (member item "id") (member data "id") = true ->
  exists e, fst (addData storeName data now fresh w) = Throw e.
Proof.
  intros Hstore Hdata Hin Htruthy Heq.
  unfold addData, bindM, find_store. rewrite Hstore.
  unfold inspect at 1. unfold member in Htruthy, Heq at 2.
  destruct (get_prop data "id") as [given|]; cbn [read]; [|now exists TypeError].
  rewrite Htruthy.
  unfold inspect at 1.
  destruct (validateData storeName _ w) as [validation|e]; [|now exists e].
  destruct (negb (valid validation)); [now eexists|].
  unfold inspect at 1. rewrite Hdata. cbn [as_array].
  unfold inspect at 1. rewrite enriched_id.
  pose proof (findIndex_id_present items given item Hin Heq 0%nat) as Hfound.
  destruct (findIndex_id items given 0) as [[index|]|e].
  - unfold inspect, throw. destruct (ToString given); now eexists.
  - congruence.
  - now exists e.
Qed.

(** C5.  When [addData] or [updateData] raises (no such store, a record
    that fails validation, an id that exists already, an id that is not
    found), the page is what it was before the call: the records of every
    store, the memory tier with its entry for '<storeName>-data', and the
    two storages.  And [addData] with the id of a record of the store
    does raise. *)
Theorem failed_mutation_changes_nothing
  (storeName : string) (data id updates : jsval) (now : Z) (fresh : string) (w : World) :
  (forall e, fst (addData storeName data now fresh w) = Throw e ->
             after (addData storeName data now fresh w) = w)
  /\ (forall e, fst (updateData storeName id updates now w) = Throw e ->
                after (updateData storeName id updates now w) = w)
  /\ (forall store items item,
        assoc storeName (dataStores w) = Some store ->
        stored store = VArr items ->
        In item items ->
        truthy (member data "id") = true ->
        strict_eq (member item "id") (member data "id") = true ->
        exists e, fst (addData storeName data now fresh w) = Throw e
                  /\ after (addData storeName data now fresh w) = w).
Proof.
  split; [|split].
  - intros e. apply addData_rolls_back.
  - intros e. apply updateData_rolls_back.
  - intros store items item Hstore Hdata Hin Htruthy Heq.
    destruct (addData_duplicate_throws storeName data now fresh w store items item
                Hstore Hdata Hin Htruthy Heq) as [e He].
    exists e. split; [exact He|]. exact (addData_rolls_back storeName data now fresh w e He).
Qed.

Lemma failed_mutation_changes_nothing_witness :
  (fst (addData "dsr" (dsr_input (VStr "abc123") 100 110) 2000 "zz" page_one_dsr)
   = Throw (Error "Record with id abc123 already exists")
   /\ after (addData "dsr" (dsr_input (VStr "abc123") 100 110) 2000 "zz" page_one_dsr)
      = page_one_dsr)
  /\ (fst (updateData "dsr" (VStr "abc123") (VObj [("thisMonthActual", VInt 500)]) 2000 page_one_dsr)
      = Throw (Error "Validation failed: Growth rate cannot exceed 50%")
      /\ after (updateData "dsr" (VStr "abc123") (VObj [("thisMonthActual", VInt 500)]) 2000
                  page_one_dsr)
         = page_one_dsr)
  /\ exists e, fst (addData "dsr" (dsr_input (VStr "abc123") 100 110) 2000 "zz" page_one_dsr)
               = Throw e
               /\ after (addData "dsr" (dsr_input (VStr "abc123") 100 110) 2000 "zz" page_one_dsr)
                  = page_one_dsr.
Proof.
  pose proof (failed_mutation_changes_nothing "dsr" (dsr_input (VStr "abc123") 100 110)
                (VStr "abc123") (VObj [("thisMonthActual", VInt 500)]) 2000 "zz" page_one_dsr)
    as (Hadd & Hupdate & Hduplicate).
  assert (Ea : fst (addData "dsr" (dsr_input (VStr "abc123") 100 110) 2000 "zz" page_one_dsr)
               = Throw (Error "Record with id abc123 already exists"))
    by (vm_compute; reflexivity).
  assert (Eu : fst (updateData "dsr" (VStr "abc123") (VObj [("thisMonthActual", VInt 500)])
                      2000 page_one_dsr)
               = Throw (Error "Validation failed: Growth rate cannot exceed 50%"))
    by (vm_compute; reflexivity).
  split; [|split].
  - split; [exact Ea | exact (Hadd _ Ea)].
  - split; [exact Eu | exact (Hupdate _ Eu)].
  - apply (Hduplicate dsr_store_one dsr_items_one (nth 0 dsr_items_one VUndef)).
    + vm_compute; reflexivity.
    + vm_compute; reflexivity.
    + vm_compute. left. reflexivity.
    + vm_compute; reflexivity.
    + vm_compute; reflexivity.
Defined.

(** ** [saveAllData] and [loadAllData] *)

(** C6 (the code departs from the claim).  The store 'sales' holds one
    valid record, stamped by [addData] with two Date objects.
    [JSON.stringify] writes a Date as its ISO text and [JSON.parse] reads
    that text back as a string, so after [saveAll], a clearing of the
    records and [loadAll] the record carries two strings where it carried
    two Dates: the list is not the one that was saved, and the record no
    longer passes the schema of its own store, which asks for a date (an
    update of it is refused). *)
Theorem reload_turns_dates_into_strings :
  records "sales" page_one_sale
    = Some (VArr [VObj [("name", VStr "Captain A"); ("monthlyTarget", VInt 500);
                        ("mtdTarget", VInt 200); ("mtdActual", VInt 150);
                        ("id", VStr "s1");
                        ("createdAt", VDate 1000); ("updatedAt", VDate 1000)]])
  /\ records "sales" (reload page_one_sale)
    = Some (VArr [VObj [("name", VStr "Captain A"); ("monthlyTarget", VInt 500);
                        ("mtdTarget", VInt 200); ("mtdActual", VInt 150);
                        ("id", VStr "s1");
                        ("createdAt", VStr "1970-01-01T00:00:01.000Z");
                        ("updatedAt", VStr "1970-01-01T00:00:01.000Z")]])
  /\ records "sales" (reload page_one_sale) <> records "sales" page_one_sale
  /\ fst (updateData "sales" (VStr "s1") (VObj [("mtdActual", VInt 160)]) 2000
            (reload page_one_sale))
     = Throw (Error "Validation failed: createdAt must be a date").
Proof.
  assert (H1 : records "sales" page_one_sale
               = Some (VArr [VObj [("name", VStr "Captain A"); ("monthlyTarget", VInt 500);
                                   ("mtdTarget", VInt 200); ("mtdActual", VInt 150);
                                   ("id", VStr "s1");
                                   ("createdAt", VDate 1000); ("updatedAt", VDate 1000)]]))
    by (vm_compute; reflexivity).
  assert (H2 : records "sales" (reload page_one_sale)
               = Some (VArr [VObj [("name", VStr "Captain A"); ("monthlyTarget", VInt 500);
                                   ("mtdTarget", VInt 200); ("mtdActual", VInt 150);
                                   ("id", VStr "s1");
                                   ("createdAt", VStr "1970-01-01T00:00:01.000Z");
                                   ("updatedAt", VStr "1970-01-01T00:00:01.000Z")]]))
    by (vm_compute; reflexivity).
  split; [exact H1|]. split; [exact H2|]. split.
  - rewrite H1, H2. discriminate.
  - vm_compute; reflexivity.
Qed.

(** ** [setAutoCache]: the size that chooses the tier *)

(** The size [setAutoCache] measures is the length of the serialized
    value once more put between quotes and escaped. *)
Lemma setAutoCache_tiers (key : string) (entry : CacheEntry) (now : Z) (w : World) (s : string) :
  value entry = Some s ->
  setAutoCache key entry now w =
  Return (let size := Z.of_nat (String.length (JSON_quote s)) in
          if size <? 1024 then setMemoryCache key entry now w
          else if size <? 10240 then setSessionStorageCache key entry w
          else setLocalStorageCache key entry w).
Proof.
  intros Hs. unfold setAutoCache, dataSize, value_of. rewrite Hs.
  cbn [JSON_stringify read bind].
  destruct (Z.of_nat (String.length (JSON_quote s)) <? 1024); [reflexivity|].
  destruct (Z.of_nat (String.length (JSON_quote s)) <? 10240); reflexivity.
Qed.

Lemma setAutoCache_tiers_witness :
  setAutoCache "k"
    {| value := Some "1"; timestamp := 0; ttl := 1; priority := "normal";
       accessCount := 0; lastAccess := 0 |} 0 initial_world
  = Return (setMemoryCache "k"
              {| value := Some "1"; timestamp := 0; ttl := 1; priority := "normal";
                 accessCount := 0; lastAccess := 0 |} 0 initial_world).
Proof.
  exact (setAutoCache_tiers "k"
           {| value := Some "1"; timestamp := 0; ttl := 1; priority := "normal";
              accessCount := 0; lastAccess := 0 |} 0 initial_world "1" eq_refl).
Defined.

Lemma length_text (l : list ascii) : String.length (text l) = List.length l.
Proof. induction l as [|c l IH]; cbn; [reflexivity | now rewrite <- IH]. Qed.

Lemma length_chars (s : string) : List.length (chars s) = String.length s.
Proof. induction s as [|c s IH]; cbn; [reflexivity | now rewrite <- IH]. Qed.

Lemma quote_char_nonempty (c : ascii) : (1 <= List.length (quote_char c))%nat.
Proof.
  unfold quote_char.
  repeat match goal with
         | |- context [if ?b then _ else _] => destruct b
         end; cbn; lia.
Qed.

Lemma quoted_chars_longer (l : list ascii) :
  (List.length l <= List.length (flat_map quote_char l))%nat.
Proof.
  induction l as [|c l IH]; cbn [flat_map List.length]; [lia|].
  rewrite length_app. pose proof (quote_char_nonempty c). lia.
Qed.

(** A text between quotes is at least two characters longer than the
    text: whatever the value, the size [setAutoCache] measures exceeds
    the length of the serialized value. *)
Lemma requoted_is_longer (s : string) :
  (String.length s + 2 <= String.length (JSON_quote s))%nat.
Proof.
  unfold JSON_quote. rewrite length_text. cbn [List.length].
  rewrite length_app. cbn [List.length].
  pose proof (quoted_chars_longer (chars s)) as H. rewrite length_chars in H. lia.
Qed.

(** C7 (the code departs from the claim).  The value is a string of 1021
    letters; its serialized form has 1023 characters, below 1KB.
    [setAutoCache] measures [JSON.stringify(entry.value)], the serialized
    form serialized again: 1027 characters.  Under 'auto' the value goes
    to the session tier, and the memory tier stays empty. *)
Theorem auto_measures_requoted_value :
  option_map String.length (serialize long_value) = Some 1023%nat
  /\ dataSize {| value := serialize long_value; timestamp := 1000; ttl := 300000;
                 priority := "normal"; accessCount := 0; lastAccess := 1000 |} = Some 1027
  /\ memoryCache (run (set "k" long_value no_options 1000 initial_world) initial_world) = []
  /\ storage_keys (sessionStorage (run (set "k" long_value no_options 1000 initial_world)
                                      initial_world)) = ["cache_k"]
  /\ localStorage (run (set "k" long_value no_options 1000 initial_world) initial_world) = [].
Proof.
  repeat split; vm_compute; reflexivity.
Qed.

(** ** [get]: absent entries, expired entries, and what a hit records *)

Lemma get_missing (key : string) (strategy : Strategy) (now : Z) (w : World) :
  lookup key strategy w = None -> get key strategy now w = (Return VNull, w).
Proof. intros H. unfold get. now rewrite H. Qed.

Lemma get_missing_witness :
  get "nothing" SAuto 5 initial_world = (Return VNull, initial_world).
Proof. exact (get_missing "nothing" SAuto 5 initial_world eq_refl). Defined.

(** An entry of any tier whose age has reached its TTL is reported
    absent, swept or not, and the page is left alone. *)
Lemma get_expired (key : string) (strategy : Strategy) (now : Z) (w : World) (h : Hit) :
  lookup key strategy w = Some h ->
  isValid now (hit_object h) = Return false ->
  get key strategy now w = (Return VNull, w).
Proof. intros Hl Hv. unfold get. now rewrite Hl, Hv. Qed.

Lemma get_expired_witness :
  get "k" SSessionStorage 1801000 page_session_k = (Return VNull, page_session_k).
Proof.
  exact (get_expired "k" SSessionStorage 1801000 page_session_k
           (Parsed (getSessionStorageCache "k" page_session_k)) eq_refl eq_refl).
Defined.

(** A hit in the memory tier is recorded in the entry the Map holds. *)
Lemma get_memory_hit (key : string) (now : Z) (w : World) (e : CacheEntry) :
  getMemoryCache key w = Some e ->
  now - timestamp e < ttl e ->
  fst (get key SMemory now w) = Return (deserialize (value_of e))
  /\ getMemoryCache key (after (get key SMemory now w))
     = Some {| value := value e; timestamp := timestamp e; ttl := ttl e;
               priority := priority e; accessCount := accessCount e + 1;
               lastAccess := now |}.
Proof.
  intros He Hfresh. unfold get, lookup, from_memory. rewrite He. cbn [option_map hit_object].
  rewrite isValid_entry. apply Z.ltb_lt in Hfresh. rewrite Hfresh.
  split; [reflexivity|].
  unfold after, getMemoryCache. cbn [snd touch commit memoryCache with_memoryCache].
  apply assoc_set_same.
Qed.

Lemma get_memory_hit_witness :
  fst (get "k" SMemory 1200 page_shadowed_k) = Return (VStr "old")
  /\ getMemoryCache "k" (after (get "k" SMemory 1200 page_shadowed_k))
     = Some {| value := serialize (VStr "old"); timestamp := 1000; ttl := 1000;
               priority := "normal"; accessCount := 1; lastAccess := 1200 |}.
Proof.
  apply (get_memory_hit "k" 1200 page_shadowed_k
           {| value := serialize (VStr "old"); timestamp := 1000; ttl := 1000;
              priority := "normal"; accessCount := 0; lastAccess := 1000 |}).
  - reflexivity.
  - cbn. lia.
Defined.

(** [get] writes to neither storage. *)
Lemma get_leaves_storages (key : string) (strategy : Strategy) (now : Z) (w : World) :
  sessionStorage (after (get key strategy now w)) = sessionStorage w
  /\ localStorage (after (get key strategy now w)) = localStorage w.
Proof.
  destruct (get_page key strategy now w) as [-> | (h & h' & _ & _ & _ & ->)];
    [split; reflexivity|].
  destruct h'; split; reflexivity.
Qed.

(** C8 (the code departs from the claim).  The session tier holds "k",
    written at time 1000.  A read at time 2000 is a hit and returns the
    value; the count and the time of the access are assigned to the
    object [JSON.parse] has built for this read, and the text in
    [sessionStorage] is not written again: the next read of the tier
    still finds [accessCount] 0 and [lastAccess] 1000.  No read changes
    either storage. *)
Theorem storage_hit_is_not_recorded :
  fst (get "k" SSessionStorage 2000 page_session_k) = Return (VStr "v")
  /\ getSessionStorageCache "k" (after (get "k" SSessionStorage 2000 page_session_k))
     = entry_object {| value := serialize (VStr "v"); timestamp := 1000; ttl := 1800000;
                       priority := "normal"; accessCount := 0; lastAccess := 1000 |}
  /\ (forall key strategy now w,
        sessionStorage (after (get key strategy now w)) = sessionStorage w
        /\ localStorage (after (get key strategy now w)) = localStorage w).
Proof.
  split; [vm_compute; reflexivity|]. split; [vm_compute; reflexivity|].
  exact get_leaves_storages.
Qed.

(** ** [queryData] *)

Lemma falsy_number (x : option Z) : x = None \/ x = Some 0 -> truthy_number x = false.
Proof. intros [->| ->]; reflexivity. Qed.

(** C9.  With [limit] left out or 0 and [offset] left out or 0 the
    pagination step is skipped: [queryData] answers what it answers
    without the two options, and on a store whose records are the array
    [items] that is the whole filtered and sorted list (or the exception
    of the comparison) and not an empty one. *)
Theorem queryData_without_pagination
  (storeName : string) (options : QueryOptions) (w : World) :
  q_limit options = None \/ q_limit options = Some 0 ->
  q_offset options = None \/ q_offset options = Some 0 ->
  queryData storeName options w = queryData storeName (no_pagination options) w
  /\ (forall store items,
        assoc storeName (dataStores w) = Some store ->
        data store = VArr items ->
        queryData storeName options w = (sort_step options (filter_step options items), w)).
Proof.
  intros Hlimit Hoffset.
  assert (Hskip : forall results, paginate options results = results).
  { intros results. unfold paginate.
    now rewrite (falsy_number _ Hlimit), (falsy_number _ Hoffset). }
  split.
  - unfold queryData, bindM, find_store.
    destruct (assoc storeName (dataStores w)) as [store|]; [|reflexivity].
    unfold inspect at 1 3. destruct (spread (data store)) as [results|e]; [|reflexivity].
    unfold inspect, ret.
    change (filter_step (no_pagination options)) with (filter_step options).
    change (sort_step (no_pagination options)) with (sort_step options).
    destruct (sort_step options (filter_step options results)) as [sorted|e]; [|reflexivity].
    now rewrite Hskip.
  - intros store items Hstore Hdata.
    unfold queryData, bindM, find_store. rewrite Hstore.
    unfold inspect at 1. rewrite Hdata. cbn [spread].
    unfold inspect, ret.
    destruct (sort_step options (filter_step options items)) as [sorted|e]; [|reflexivity].
    now rewrite Hskip.
Qed.

Lemma queryData_without_pagination_witness :
  queryData "dsr" limit_zero page_one_dsr
  = (Return dsr_items_one, page_one_dsr).
Proof.
  refine (proj2 (queryData_without_pagination "dsr" limit_zero page_one_dsr
                   (or_intror eq_refl) (or_introl eq_refl))
                dsr_store_one dsr_items_one _ _).
  - vm_compute; reflexivity.
  - vm_compute; reflexivity.
Defined.

(** ** A store name that is not registered *)

(** C10.  For a name that no store carries, [validateData] returns
    [{ valid: false, errors: ['Store not found'] }] whatever the record
    is, while [addData], [updateData], [deleteData] and [queryData] each
    raise the error "Store <name> not found" and leave the page as it
    was. *)
Theorem unknown_store
  (storeName : string) (data id updates : jsval) (options : QueryOptions)
  (now : Z) (fresh : string) (w : World) :
  assoc storeName (dataStores w) = None ->
  validateData storeName data w = Return {| valid := false; errors := ["Store not found"] |}
  /\ addData storeName data now fresh w = (Throw (not_found storeName), w)
  /\ updateData storeName id updates now w = (Throw (not_found storeName), w)
  /\ deleteData storeName id now w = (Throw (not_found storeName), w)
  /\ queryData storeName options w = (Throw (not_found storeName), w).
Proof.
  intros Hnone. unfold validateData, addData, updateData, deleteData, queryData.
  unfold bindM, find_store. rewrite Hnone. repeat split.
Qed.

Lemma unknown_store_witness :
  validateData "orders" VNull initial_world
    = Return {| valid := false; errors := ["Store not found"] |}
  /\ addData "orders" VNull 5 "x" initial_world = (Throw (not_found "orders"), initial_world)
  /\ updateData "orders" VNull VNull 5 initial_world = (Throw (not_found "orders"), initial_world)
  /\ deleteData "orders" VNull 5 initial_world = (Throw (not_found "orders"), initial_world)
  /\ queryData "orders" limit_zero initial_world = (Throw (not_found "orders"), initial_world).
Proof.
  exact (unknown_store "orders" VNull VNull VNull limit_zero 5 "x" initial_world eq_refl).
Defined.

(* ================================================================== *)
(** * Part VIII.  Further properties of the two managers                *)
(* ================================================================== *)

(** ** [JSON.parse] after [JSON.stringify]

    The texts of the cache entries and of the saved stores are written by
    [JSON.stringify] and read by [JSON.parse]; on the values JSON carries
    the second undoes the first. *)

(** *** Strings and their characters *)

Lemma chars_app (a b : string) : chars (a ++ b) = (chars a ++ chars b)%list.
Proof. induction a as [|c a IH]; simpl; [reflexivity|]. unfold chars in *. simpl. now rewrite IH. Qed.

Lemma text_chars (s : string) : text (chars s) = s.
Proof. apply string_of_list_ascii_of_string. Qed.

Lemma chars_text (l : list ascii) : chars (text l) = l.
Proof. apply list_ascii_of_string_of_list_ascii. Qed.

(** *** The digits of a whole number *)

Lemma digits_from_cons acc c cs : digits_from acc (c :: cs) = digits_from (10 * acc + digit_val c) cs.
Proof. reflexivity. Qed.

Lemma dv_uint_acc (d : Decimal.uint) :
  forall acc, digits_from (Zpos acc) (chars (NilEmpty.string_of_uint d)) = Zpos (Pos.of_uint_acc d acc).
Proof.
  induction d; intro acc; [reflexivity | ..];
  change (chars (NilEmpty.string_of_uint ?x)) with (chars (NilEmpty.string_of_uint x));
  cbn [NilEmpty.string_of_uint]; 
  match goal with |- digits_from _ (chars (String ?c ?s)) = _ => change (chars (String c s)) with (c :: chars s) end;
  rewrite digits_from_cons; cbn [Pos.of_uint_acc]; rewrite <- IHd; f_equal;
  match goal with |- context [digit_val ?c] => let v := eval vm_compute in (digit_val c) in change (digit_val c) with v end; lia.
Qed.

Lemma dv_uint (d : Decimal.uint) :
  digits_from 0 (chars (NilEmpty.string_of_uint d)) = Z.of_N (Pos.of_uint d).
Proof.
  induction d; [reflexivity | ..];
  cbn [NilEmpty.string_of_uint]; 
  match goal with |- digits_from _ (chars (String ?c ?s)) = _ => change (chars (String c s)) with (c :: chars s) end;
  rewrite digits_from_cons; cbn [Pos.of_uint];
  match goal with |- context [digit_val ?c] => let v := eval vm_compute in (digit_val c) in change (digit_val c) with v end;
  [ exact IHd | .. ];
  match goal with |- digits_from ?x _ = Z.of_N (N.pos (Pos.of_uint_acc _ ?a)) =>
    let v := eval vm_compute in x in change x with v; apply (dv_uint_acc d a) end.
Qed.

Lemma digits_uint (d : Decimal.uint) : forallb is_digit (chars (NilEmpty.string_of_uint d)) = true.
Proof. induction d; [reflexivity | ..]; exact IHd. Qed.

Lemma Z_to_string_pos (p : positive) :
  Z_to_string (Zpos p) = NilEmpty.string_of_uint (Pos.to_uint p).
Proof.
  unfold Z_to_string. cbn [Z.to_int NilZero.string_of_int]. unfold NilZero.string_of_uint.
  pose proof (DecimalPos.Unsigned.to_uint_nonnil p). destruct (Pos.to_uint p); congruence.
Qed.

Lemma digits_value_pos (p : positive) : digits_value 10 (digits p) = Zpos p.
Proof.
  unfold digits. rewrite Z_to_string_pos. change (digits_value 10 ?l) with (digits_from 0 l).
  rewrite dv_uint, DecimalPos.Unsigned.of_to. reflexivity.
Qed.

Lemma digits_are_digits (p : positive) : forallb is_digit (digits p) = true.
Proof. unfold digits. rewrite Z_to_string_pos. apply digits_uint. Qed.

Lemma to_uint_head (p : positive) : forall d, Pos.to_uint p <> Decimal.D0 d.
Proof.
  intros d E.
  pose proof (DecimalPos.Unsigned.to_of (Pos.to_uint p)) as H.
  rewrite DecimalPos.Unsigned.of_to in H. cbn [N.to_uint] in H.
  rewrite E in H. unfold Decimal.unorm in H. cbn [Decimal.nzhead] in H.
  pose proof (DecimalFacts.nb_digits_nzhead d) as L.
  destruct (Decimal.nzhead d) eqn:N.
  - injection H as H. subst d. apply (DecimalPos.Unsigned.to_uint_nonzero p). exact E.
  - injection H as H. subst u. cbn in L. lia.
  - discriminate. - discriminate. - discriminate. - discriminate. - discriminate.
  - discriminate. - discriminate. - discriminate. - discriminate.
Qed.

Lemma digits_head (p : positive) :
  exists c r, digits p = c :: r /\ is_digit c = true /\ (code c =? 48) = false.
Proof.
  unfold digits. rewrite Z_to_string_pos.
  pose proof (to_uint_head p) as H. pose proof (DecimalPos.Unsigned.to_uint_nonnil p) as N.
  destruct (Pos.to_uint p) as [|d|d|d|d|d|d|d|d|d|d]; [congruence | exfalso; eapply H; reflexivity | ..];
  cbn [NilEmpty.string_of_uint];
  match goal with |- context [chars (String ?c ?s)] => exists c, (chars s) end; repeat split; reflexivity.
Qed.

(** *** [Number::toString] on a whole number *)

Lemma strip_factor_spec (p : Z) (fuel : nat) :
  1 < p -> forall d count, 0 < d ->
  0 < snd (strip_factor fuel p d count)
  /\ count <= fst (strip_factor fuel p d count)
  /\ d = snd (strip_factor fuel p d count) * p ^ (fst (strip_factor fuel p d count) - count).
Proof.
  intro Hp. induction fuel as [|fuel IH]; intros d count Hd; cbn [strip_factor].
  - cbn [fst snd]. rewrite Z.sub_diag. cbn. lia.
  - destruct ((d mod p =? 0) && negb (d =? 0)) eqn:C; cbn [fst snd].
    + apply andb_prop in C. destruct C as [C _]. apply Z.eqb_eq in C.
      assert (E : d = p * (d / p)) by (apply Z_div_exact_2; lia).
      assert (0 < d / p) by nia.
      destruct (IH (d / p) (count + 1) H) as (I1 & I2 & I3).
      repeat split; [exact I1 | lia |].
      set (c := fst (strip_factor fuel p (d / p) (count + 1))) in *.
      set (r := snd (strip_factor fuel p (d / p) (count + 1))) in *.
      replace (c - count) with (Z.succ (c - (count + 1))) by lia.
      rewrite Z.pow_succ_r by lia. rewrite E at 1. rewrite I3. ring.
    + rewrite Z.sub_diag. cbn. lia.
Qed.

Lemma Qred_whole (z : Z) : Qred (inject_Z z) = inject_Z z.
Proof.
  unfold Qred, inject_Z.
  pose proof (Z.ggcd_gcd z 1) as G. pose proof (Z.ggcd_correct_divisors z 1) as D.
  destruct (Z.ggcd z 1) as [g [a b]]. cbn [fst snd] in *.
  rewrite Z.gcd_1_r in G. subst g. destruct D as [D1 D2].
  assert (Ha : a = z) by lia. assert (Hb : b = 1) by lia. rewrite Ha, Hb. reflexivity.
Qed.

Lemma decimal_of_whole (z : Z) :
  0 < z ->
  decimal_of (inject_Z z)
  = (snd (strip_factor (Zsize z) 10 z 0), fst (strip_factor (Zsize z) 10 z 0) - 0).
Proof.
  intro Hz. unfold decimal_of. rewrite Qred_whole. cbn [Qnum Qden inject_Z].
  change (strip_factor (Zsize 1) 2 1 0) with (0, 1). cbn iota beta zeta.
  change (strip_factor (Zsize 1) 5 1 0) with (0, 1). cbn iota beta zeta.
  change (1 =? 1) with true. cbn iota. change (Z.max 0 0) with 0.
  replace ((2 * z * 10 ^ 0 + 1) / (2 * 1)) with z.
  - destruct (strip_factor (Zsize z) 10 z 0). reflexivity.
  - apply Z.div_unique with 1; [lia|]. change (10 ^ 0) with 1. lia.
Qed.

(** *** Reading a numeral back *)

Lemma ends_value_head (c : ascii) (r : list ascii) :
  ends_value (c :: r) = true ->
  is_digit c = false /\ (code c =? 46) = false /\ (code c =? 101) = false
  /\ (code c =? 69) = false /\ is_json_space c = false.
Proof.
  destruct c as [[] [] [] [] [] [] [] []]; cbn; intro H; try discriminate H; repeat split.
Qed.

Lemma take_while_app (p : ascii -> bool) (a r : list ascii) :
  forallb p a = true ->
  match r with [] => true | c :: _ => negb (p c) end = true ->
  take_while p (a ++ r)%list = (a, r).
Proof.
  intros Ha Hr. induction a as [|x a IH]; cbn [app take_while].
  - destruct r as [|c r]; [reflexivity|]. cbn [take_while].
    destruct (p c); [discriminate Hr | reflexivity].
  - cbn [forallb] in Ha. apply andb_prop in Ha. destruct Ha as [Hx Ha].
    rewrite Hx, (IH Ha). reflexivity.
Qed.

Lemma stops_digits (r : list ascii) :
  ends_value r = true -> match r with [] => true | c :: _ => negb (is_digit c) end = true.
Proof.
  destruct r as [|c r]; [reflexivity|]. intro H.
  destruct (ends_value_head c r H) as (D & _). now rewrite D.
Qed.

Lemma scan_exponent_none (r : list ascii) : ends_value r = true -> scan_exponent r = (0, r).
Proof.
  destruct r as [|c r]; [reflexivity|]. intro H.
  destruct (ends_value_head c r H) as (_ & _ & E1 & E2 & _).
  unfold scan_exponent. now rewrite E1, E2.
Qed.

Lemma scale10_whole (m e : Z) : 0 <= e -> scale10 m e = inject_Z (m * 10 ^ e).
Proof. intro H. unfold scale10. destruct (0 <=? e) eqn:E; [reflexivity | lia]. Qed.

Lemma scan_whole (ip rest : list ascii) :
  ip <> [] ->
  forallb is_digit ip = true ->
  match ip with c :: _ :: _ => code c =? 48 | _ => false end = false ->
  ends_value rest = true ->
  scan_decimal true (ip ++ rest)%list = Some (inject_Z (digits_value 10 ip), rest).
Proof.
  intros Hne Hd Hz Hr. unfold scan_decimal.
  rewrite (take_while_app is_digit ip rest Hd (stops_digits rest Hr)).
  assert (E : match rest with
              | c :: r => if code c =? 46
                          then let '(f, r') := take_while is_digit r in (true, f, r')
                          else (false, [], rest)
              | [] => (false, [], rest)
              end = (false, @nil ascii, rest)).
  { destruct rest as [|c r]; [reflexivity|].
    destruct (ends_value_head c r Hr) as (_ & E & _). now rewrite E. }
  rewrite E. rewrite Hz. destruct ip as [|c ip]; [congruence|].
  cbn [is_nil negb andb orb]. rewrite (scan_exponent_none rest Hr).
  rewrite app_nil_r. cbn [List.length Z.of_nat]. rewrite scale10_whole by lia.
  change (10 ^ (0 - 0)) with 1. now rewrite Z.mul_1_r.
Qed.

Lemma scan_exponent_plus (n rest : list ascii) :
  n <> [] -> forallb is_digit n = true -> ends_value rest = true ->
  scan_exponent ("e"%char :: "+"%char :: n ++ rest)%list = (digits_value 10 n, rest).
Proof.
  intros Hne Hd Hr. unfold scan_exponent.
  change (code "e" =? 101) with true. cbn [orb].
  change (code "+" =? 45) with false. change (code "+" =? 43) with true. cbn iota.
  rewrite (take_while_app is_digit n rest Hd (stops_digits rest Hr)).
  destruct n as [|c n]; [congruence|]. cbn [is_nil].
  now rewrite Z.mul_1_l.
Qed.

Lemma scan_scientific (d : ascii) (fp n rest : list ascii) :
  is_digit d = true -> forallb is_digit fp = true ->
  n <> [] -> forallb is_digit n = true -> ends_value rest = true ->
  scan_decimal true
    (d :: (if is_nil fp then [] else "."%char :: fp) ++ "e"%char :: "+"%char :: n ++ rest)%list
  = Some (scale10 (digits_value 10 (d :: fp))
                  (digits_value 10 n - Z.of_nat (List.length fp)), rest).
Proof.
  intros Hd Hfp Hne Hn Hr. unfold scan_decimal.
  destruct fp as [|f fp]; cbn [is_nil app].
  - change (d :: "e"%char :: "+"%char :: n ++ rest)%list
      with ([d] ++ "e"%char :: "+"%char :: n ++ rest)%list.
    rewrite (take_while_app is_digit [d]); [| cbn; now rewrite Hd | reflexivity].
    change (code "e" =? 46) with false. cbn iota. cbn [is_nil negb andb orb].
    rewrite (scan_exponent_plus n rest Hne Hn Hr). reflexivity.
  - change (d :: "."%char :: f :: fp ++ "e"%char :: "+"%char :: n ++ rest)%list
      with ([d] ++ "."%char :: (f :: fp) ++ "e"%char :: "+"%char :: n ++ rest)%list.
    rewrite (take_while_app is_digit [d]); [| cbn; now rewrite Hd | reflexivity].
    change (code "." =? 46) with true. cbn iota.
    rewrite (take_while_app is_digit (f :: fp)); [| exact Hfp | reflexivity].
    cbn [is_nil negb andb orb].
    rewrite (scan_exponent_plus n rest Hne Hn Hr). reflexivity.
Qed.

Lemma chars_zeros (m : nat) : chars (repeat_string m "0") = repeat "0"%char m.
Proof. induction m as [|m IH]; [reflexivity|]. cbn [repeat_string repeat]. now rewrite chars_app, IH. Qed.

Lemma dv_app (acc : Z) (a b : list ascii) : digits_from acc (a ++ b)%list = digits_from (digits_from acc a) b.
Proof. apply fold_left_app. Qed.

Lemma dv_zeros (m : nat) : forall acc, digits_from acc (repeat "0"%char m) = acc * 10 ^ Z.of_nat m.
Proof.
  induction m as [|m IH]; intro acc.
  - cbn. lia.
  - cbn [repeat]. rewrite digits_from_cons, IH. change (digit_val "0") with 0.
    rewrite Nat2Z.inj_succ, Z.pow_succ_r by lia. ring.
Qed.

Lemma digits_zeros (m : nat) : forallb is_digit (repeat "0"%char m) = true.
Proof. induction m; [reflexivity | exact IHm]. Qed.

Lemma substring_all (s : string) : substring 0 (String.length s) s = s.
Proof. induction s as [|c s IH]; [reflexivity|]. cbn. now rewrite IH. Qed.

Lemma substring_none (s : string) : substring 0 0 s = EmptyString.
Proof. destruct s; reflexivity. Qed.

Lemma scan_positive (z : Z) (rest : list ascii) :
  0 < z -> ends_value rest = true ->
  scan_decimal true (chars (positive_to_string (inject_Z z)) ++ rest)%list
    = Some (inject_Z z, rest)
  /\ exists c r, chars (positive_to_string (inject_Z z)) = c :: r
                 /\ is_digit c = true.
Proof.
  intros Hz Hr. unfold positive_to_string. rewrite (decimal_of_whole z Hz).
  destruct (strip_factor_spec 10 (Zsize z) ltac:(lia) z 0 Hz) as (Hs & Hc & Hzs).
  set (zc := fst (strip_factor (Zsize z) 10 z 0)) in *.
  set (s := snd (strip_factor (Zsize z) 10 z 0)) in *.
  destruct s as [|sp|sp] eqn:Es; [lia | | lia]. clear Hs.
  rewrite !Z.sub_0_r in *.
  destruct (digits_head sp) as (c0 & D' & HD & Hc0 & Hnz).
  pose proof (digits_are_digits sp) as Hdig.
  pose proof (digits_value_pos sp) as Hval.
  unfold digits_of.
  assert (Hlen : String.length (Z_to_string (Z.pos sp)) = S (List.length D')).
  { rewrite <- length_chars. change (chars (Z_to_string (Z.pos sp))) with (digits sp).
    now rewrite HD. }
  rewrite Hlen.
  set (k := Z.of_nat (S (List.length D'))).
  assert (Hk : 1 <= k) by (unfold k; lia).
  replace (k <=? k + zc) with true by (symmetry; apply Z.leb_le; lia).
  cbn [andb].
  destruct (k + zc <=? 21) eqn:Hn.
  - (* plain digits *)
    rewrite chars_app, chars_zeros. change (chars (Z_to_string (Z.pos sp))) with (digits sp).
    replace (k + zc - k) with zc by lia.
    split.
    + rewrite scan_whole.
      * f_equal. f_equal. change (digits_value 10 ?l) with (digits_from 0 l).
        rewrite dv_app. change (digits_from 0 (digits sp)) with (digits_value 10 (digits sp)).
        rewrite Hval, dv_zeros, Z2Nat.id by lia. now rewrite Hzs.
      * rewrite HD. discriminate.
      * rewrite forallb_app, Hdig, digits_zeros. reflexivity.
      * rewrite HD. cbn [app]. destruct (D' ++ repeat "0"%char (Z.to_nat zc))%list; [reflexivity | exact Hnz].
      * exact Hr.
    + rewrite HD. exists c0, (D' ++ repeat "0"%char (Z.to_nat zc))%list. split; [reflexivity | exact Hc0].
  - (* exponent *)
    replace ((0 <? k + zc) && false) with false by (now rewrite andb_false_r).
    apply Z.leb_gt in Hn.
    replace ((-6 <? k + zc) && (k + zc <=? 0)) with false
      by (symmetry; apply andb_false_iff; right; apply Z.leb_gt; lia).
    replace (k + zc - 1 <? 0) with false by (symmetry; apply Z.ltb_ge; lia).
    rewrite Z.abs_eq by lia.
    destruct (k + zc - 1) as [|np|np] eqn:En; [lia | | lia].
    pose proof (digits_are_digits np) as Hndig.
    pose proof (digits_value_pos np) as Hnval.
    destruct (digits_head np) as (n0 & N' & HN & _ & _).
    assert (Hds : Z_to_string (Z.pos sp) = String c0 (text D')).
    { rewrite <- (text_chars (Z_to_string (Z.pos sp))).
      change (chars (Z_to_string (Z.pos sp))) with (digits sp). now rewrite HD. }
    assert (Hshape :
      chars (if k =? 1
             then Z_to_string (Z.pos sp) ++ "e" ++ "+" ++ Z_to_string (Z.pos np)
             else string_take 1 (Z_to_string (Z.pos sp)) ++ "." ++
                  string_drop 1 (Z_to_string (Z.pos sp)) ++ "e" ++ "+" ++ Z_to_string (Z.pos np))
      = (c0 :: (if is_nil D' then [] else "."%char :: D') ++ "e"%char :: "+"%char :: digits np)%list).
    { destruct (k =? 1) eqn:K.
      - apply Z.eqb_eq in K. assert (D' = []) by (destruct D'; [reflexivity | unfold k in K; cbn in K; lia]).
        subst D'. rewrite Hds. reflexivity.
      - apply Z.eqb_neq in K. destruct D' as [|d1 D'']; [unfold k in K; cbn in K; lia|].
        rewrite !chars_app. unfold string_take, string_drop. rewrite Hlen, Hds.
        change (Z.to_nat 1) with 1%nat.
        cbn [substring]. rewrite substring_none.
        replace (S (List.length (d1 :: D'')) - 1)%nat with (String.length (text (d1 :: D'')))
          by (rewrite length_text; cbn; lia).
        rewrite substring_all. rewrite chars_text. reflexivity. }
    rewrite Hshape. split.
    + cbn [app]. rewrite <- app_assoc. cbn [app].
      rewrite scan_scientific.
      * f_equal. f_equal. rewrite Hnval.
        change (c0 :: D') with ([c0] ++ D')%list. cbn [app]. rewrite <- HD, Hval.
        rewrite scale10_whole by (unfold k in En; lia).
        f_equal. rewrite Hzs. f_equal. f_equal. unfold k in En. lia.
      * exact Hc0.
      * rewrite HD in Hdig. cbn [forallb] in Hdig. now apply andb_prop in Hdig.
      * rewrite HN. discriminate.
      * exact Hndig.
      * exact Hr.
    + eexists _, _. split; [reflexivity | exact Hc0].
Qed.


(** *** Values *)

Lemma jsval_induction (P : jsval -> Prop) :
  P VUndef -> P VNull -> (forall b, P (VBool b)) -> (forall x, P (VNum x)) ->
  (forall s, P (VStr s)) -> (forall t, P (VDate t)) ->
  (forall l, Forall P l -> P (VArr l)) ->
  (forall l, Forall (fun kv => P (snd kv)) l -> P (VObj l)) ->
  forall v, P v.
Proof.
  intros H1 H2 H3 H4 H5 H6 H7 H8. fix IH 1.
  intros [ | | b | x | s | t | l | l].
  - exact H1.
  - exact H2.
  - apply H3.
  - apply H4.
  - apply H5.
  - apply H6.
  - apply H7. induction l as [|x l IHl]; constructor; [apply IH | exact IHl].
  - apply H8. induction l as [|x l IHl]; constructor; [apply IH | exact IHl].
Qed.

Lemma parse_string_quote_char (c : ascii) (r acc : list ascii) :
  parse_string (quote_char c ++ r)%list acc = parse_string r (c :: acc).
Proof. destruct c as [[] [] [] [] [] [] [] []]; reflexivity. Qed.

Lemma parse_string_quoted (cs : list ascii) :
  forall acc r,
    parse_string (flat_map quote_char cs ++ dquote :: r)%list acc
    = Some (text (rev acc ++ cs), r).
Proof.
  induction cs as [|c cs IH]; intros acc r.
  - cbn [flat_map app]. rewrite app_nil_r. reflexivity.
  - cbn [flat_map]. rewrite <- app_assoc, parse_string_quote_char, IH.
    cbn [rev]. now rewrite <- app_assoc.
Qed.

Lemma chars_JSON_quote (s : string) :
  chars (JSON_quote s) = (dquote :: flat_map quote_char (chars s) ++ [dquote])%list.
Proof. unfold JSON_quote. apply chars_text. Qed.

Lemma parse_quoted (s : string) (r : list ascii) :
  parse_string (flat_map quote_char (chars s) ++ dquote :: r)%list [] = Some (s, r).
Proof. rewrite parse_string_quoted. cbn [rev app]. now rewrite text_chars. Qed.

Lemma parse_value_number (f : nat) (c : ascii) (r : list ascii) :
  opens_number c = true -> parse_value (S f) (c :: r) = parse_number (c :: r).
Proof.
  destruct c as [[] [] [] [] [] [] [] []]; intro H; try discriminate H; reflexivity.
Qed.

Lemma opens_number_starts (c : ascii) :
  opens_number c = true ->
  is_json_space c = false /\ (code c =? 93) = false /\ (code c =? 125) = false.
Proof.
  destruct c as [[] [] [] [] [] [] [] []]; intro H; try discriminate H; repeat split.
Qed.

Lemma digit_not_minus (c : ascii) : is_digit c = true -> (code c =? 45) = false.
Proof.
  destruct c as [[] [] [] [] [] [] [] []]; intro H; try discriminate H; reflexivity.
Qed.

Lemma parse_number_whole (z : Z) (rest : list ascii) :
  ends_value rest = true ->
  parse_number (chars (number_to_string (Fin (inject_Z z))) ++ rest)%list
    = Some (VNum (Fin (inject_Z z)), rest)
  /\ exists c r, chars (number_to_string (Fin (inject_Z z))) = c :: r
                 /\ opens_number c = true.
Proof.
  intro Hr. destruct z as [|p|p].
  - change (number_to_string (Fin (inject_Z 0))) with "0". split.
    + unfold parse_number. change (chars "0" ++ rest)%list with (["0"%char] ++ rest)%list.
      cbn [app]. change (code "0" =? 45) with false. cbn iota.
      change ("0"%char :: rest) with (["0"%char] ++ rest)%list.
      rewrite scan_whole; [reflexivity | discriminate | reflexivity | reflexivity | exact Hr].
    + exists "0"%char, []. split; reflexivity.
  - assert (E : number_to_string (Fin (inject_Z (Z.pos p)))
                = positive_to_string (inject_Z (Z.pos p))) by reflexivity.
    rewrite E. destruct (scan_positive (Z.pos p) rest ltac:(lia) Hr) as (S1 & c & r & Hc & Hd).
    split.
    + unfold parse_number. rewrite Hc in *. cbn [app] in *.
      rewrite (digit_not_minus c Hd). now rewrite S1.
    + exists c, r. split; [exact Hc|]. unfold opens_number. now rewrite Hd.
  - assert (E : number_to_string (Fin (inject_Z (Z.neg p)))
                = "-" ++ positive_to_string (inject_Z (Z.pos p))) by reflexivity.
    rewrite E. destruct (scan_positive (Z.pos p) rest ltac:(lia) Hr) as (S1 & _).
    split.
    + unfold parse_number. rewrite chars_app. change (chars "-") with ["-"%char].
      cbn [app]. change (code "-" =? 45) with true. cbn iota. rewrite S1.
      change (- inject_Z (Z.pos p))%Q with (inject_Z (Z.neg p)). now rewrite Qred_whole.
    + rewrite chars_app. eexists _, _. split; reflexivity.
Qed.

Lemma length_app (a b : string) :
  String.length (a ++ b) = (String.length a + String.length b)%nat.
Proof. induction a as [|c a IH]; [reflexivity|]. cbn. now rewrite IH. Qed.

Lemma json_value_text (v : jsval) :
  json_value v = true -> exists s, JSON_stringify v = Some s.
Proof.
  destruct v as [ | | [] | [] | | | | ]; cbn; intro H; try discriminate H; eexists; reflexivity.
Qed.

Lemma members_text (l : list (string * jsval)) :
  forallb (fun kv => json_value (snd kv)) l = true ->
  flat_map (fun kv => match JSON_stringify (snd kv) with
                      | Some s => [JSON_quote (fst kv) ++ ":" ++ s]
                      | None => []
                      end) l
  = map member_text l.
Proof.
  induction l as [|kv l IH]; intro H; [reflexivity|].
  cbn [forallb] in H. apply andb_prop in H. destruct H as [Hv Hl].
  cbn [flat_map map]. rewrite (IH Hl).
  destruct (json_value_text _ Hv) as [s E]. unfold member_text at 2, element_text.
  rewrite E. reflexivity.
Qed.

Lemma distinct_NoDup (l : list string) : distinct l = true -> NoDup l.
Proof.
  induction l as [|k l IH]; intro H; constructor.
  - cbn [distinct] in H. apply andb_prop in H. destruct H as [H _].
    intro I. apply negb_true_iff in H.
    assert (existsb (String.eqb k) l = true); [|congruence].
    apply existsb_exists. exists k. split; [exact I | apply String.eqb_refl].
  - apply IH. cbn [distinct] in H. apply andb_prop in H. tauto.
Qed.

Lemma assoc_set_fresh {A} (k : string) (v : A) (l : list (string * A)) :
  ~ In k (map fst l) -> assoc_set k v l = (l ++ [(k, v)])%list.
Proof.
  induction l as [|[k' v'] l IH]; intro H; [reflexivity|].
  cbn [assoc_set app]. cbn [map fst In] in H.
  destruct (String.eqb k k') eqn:E.
  - apply String.eqb_eq in E. subst. tauto.
  - rewrite IH by tauto. reflexivity.
Qed.

Lemma skip_ws_value (s : string) (rest : list ascii) :
  starts_value s -> skip_ws (chars s ++ rest)%list = (chars s ++ rest)%list.
Proof.
  intros (c & r & E & Hs & _). rewrite E. cbn [app skip_ws drop_while]. unfold skip_ws. cbn [drop_while].
  now rewrite Hs.
Qed.

Lemma parse_array_elements (l : list jsval) :
  Forall round_trip l -> forallb json_value l = true -> l <> [] ->
  forall acc fuel rest,
    (String.length (join "," (map element_text l)) + 1 < fuel)%nat ->
    parse_array fuel (chars (join "," (map element_text l)) ++ "]"%char :: rest)%list acc
    = Some (VArr (rev acc ++ l), rest).
Proof.
  induction l as [|x l IH]; intros HP Hj Hne acc fuel rest Hf; [congruence|].
  inversion HP as [|? ? Px Pl]; subst.
  cbn [forallb] in Hj. apply andb_prop in Hj. destruct Hj as [Jx Jl].
  destruct (Px Jx) as [_ Rx].
  destruct fuel as [|fuel]; [lia|]. cbn [parse_array].
  destruct l as [|y l].
  - cbn [map join] in *. rewrite (Rx fuel ("]"%char :: rest)) by (lia || reflexivity).
    reflexivity.
  - change (join "," (map element_text (x :: y :: l)))
      with (element_text x ++ "," ++ join "," (map element_text (y :: l))) in *.
    rewrite !length_app in Hf. rewrite !chars_app, <- !app_assoc.
    change (chars "," ++ ?t)%list with (","%char :: t).
    rewrite (Rx fuel) by (lia || reflexivity).
    change (skip_ws (","%char :: ?t)) with (","%char :: t). cbn beta iota.
    change (code "," =? 44) with true. cbn iota.
    rewrite IH; [ | exact Pl | exact Jl | discriminate | cbn [String.length] in Hf; lia].
    cbn [rev]. now rewrite <- app_assoc.
Qed.

Lemma chars_member (k : string) (v : jsval) (t : list ascii) :
  (chars (member_text (k, v)) ++ t)%list
  = (dquote :: flat_map quote_char (chars k) ++ dquote :: ":"%char :: chars (element_text v) ++ t)%list.
Proof.
  unfold member_text. cbn [fst snd]. rewrite !chars_app, chars_JSON_quote.
  cbn [app]. rewrite <- !app_assoc. reflexivity.
Qed.

Lemma parse_object_members (l : list (string * jsval)) :
  Forall (fun kv => round_trip (snd kv)) l ->
  forallb (fun kv => json_value (snd kv)) l = true -> l <> [] ->
  forall acc fuel rest,
    NoDup (map fst (acc ++ l)) ->
    (String.length (join "," (map member_text l)) + 1 < fuel)%nat ->
    parse_object fuel (chars (join "," (map member_text l)) ++ "}"%char :: rest)%list acc
    = Some (VObj (acc ++ l), rest).
Proof.
  induction l as [|[k v] l IH]; intros HP Hj Hne acc fuel rest Hd Hf; [congruence|].
  inversion HP as [|? ? Px Pl]; subst.
  cbn [forallb snd] in Hj. apply andb_prop in Hj. destruct Hj as [Jx Jl].
  cbn [snd] in Px. destruct (Px Jx) as [_ Rx].
  assert (Hk : ~ In k (map fst acc)).
  { rewrite map_app in Hd. cbn [map fst] in Hd. apply NoDup_remove_2 in Hd.
    intro I. apply Hd. apply in_or_app. now left. }
  destruct fuel as [|fuel]; [lia|]. cbn [parse_object].
  destruct l as [|y l].
  - cbn [map join] in *. rewrite chars_member.
    change (skip_ws (dquote :: ?t)) with (dquote :: t). cbn beta iota.
    change (code dquote =? 34) with true. cbn iota.
    rewrite parse_quoted.
    change (skip_ws (":"%char :: ?t)) with (":"%char :: t). cbn beta iota.
    change (code ":" =? 58) with true. cbn iota.
    assert (L : (String.length (element_text v) < fuel)%nat).
    { unfold member_text in Hf. rewrite !length_app in Hf. cbn [snd] in Hf. lia. }
    rewrite (Rx fuel ("}"%char :: rest) L eq_refl).
    change (skip_ws ("}"%char :: ?t)) with ("}"%char :: t). cbn beta iota.
    change (code "}" =? 44) with false. change (code "}" =? 125) with true. cbn iota.
    now rewrite (assoc_set_fresh k v acc Hk).
  - change (join "," (map member_text ((k, v) :: y :: l)))
      with (member_text (k, v) ++ "," ++ join "," (map member_text (y :: l))) in *.
    rewrite !length_app in Hf. rewrite chars_app, <- app_assoc, chars_member.
    rewrite chars_app, <- app_assoc. change (chars "," ++ ?t)%list with (","%char :: t).
    change (skip_ws (dquote :: ?t)) with (dquote :: t). cbn beta iota.
    change (code dquote =? 34) with true. cbn iota.
    rewrite parse_quoted.
    change (skip_ws (":"%char :: ?t)) with (":"%char :: t). cbn beta iota.
    change (code ":" =? 58) with true. cbn iota.
    assert (L : (String.length (element_text v) < fuel)%nat).
    { unfold member_text in Hf. rewrite !length_app in Hf. cbn [snd] in Hf. lia. }
    rewrite (Rx fuel (","%char :: _) L eq_refl).
    change (skip_ws (","%char :: ?t)) with (","%char :: t). cbn beta iota.
    change (code "," =? 44) with true. cbn iota.
    rewrite (assoc_set_fresh k v acc Hk).
    rewrite IH; [ | exact Pl | exact Jl | discriminate | | cbn [String.length] in Hf; lia].
    + now rewrite <- app_assoc.
    + now rewrite <- app_assoc.
Qed.

Lemma json_round_trip (v : jsval) : round_trip v.
Proof.
  induction v using jsval_induction; intro J; try discriminate J.
  - split; [exists "n"%char, (chars "ull"); repeat split|].
    intros [|fuel] rest L _; [cbn in L; lia | reflexivity].
  - split; [destruct b; eexists _, _; repeat split|].
    intros [|fuel] rest L _; [cbn in L; lia | destruct b; reflexivity].
  - destruct x as [[n d] | | |]; try discriminate J.
    cbn [json_value is_whole Qden] in J. apply Pos.eqb_eq in J. subst d.
    change (n # 1) with (inject_Z n).
    change (element_text (VNum (Fin (inject_Z n)))) with (number_to_string (Fin (inject_Z n))).
    split.
    + destruct (parse_number_whole n [] eq_refl) as (_ & c & r & E & O).
      exists c, r. split; [exact E | now apply opens_number_starts].
    + intros [|fuel] rest L Hr; [lia|].
      destruct (parse_number_whole n rest Hr) as (P & c & r & E & O).
      rewrite E in *. cbn [app] in *. rewrite parse_value_number by exact O. exact P.
  - change (element_text (VStr s)) with (JSON_quote s). split.
    + unfold starts_value. rewrite chars_JSON_quote. eexists dquote, _. repeat split.
    + intros [|fuel] rest L _; [lia|].
      rewrite chars_JSON_quote. cbn [app]. rewrite <- app_assoc. cbn [app].
      cbn [parse_value]. change (skip_ws (dquote :: ?t)) with (dquote :: t). cbn beta iota.
      change (code dquote =? 91) with false. change (code dquote =? 123) with false.
      change (code dquote =? 34) with true. cbn iota. now rewrite parse_quoted.
  - cbn [json_value] in J.
    change (element_text (VArr l)) with ("[" ++ join "," (map element_text l) ++ "]").
    split; [eexists "["%char, _; repeat split|].
    intros [|fuel] rest L _; [lia|].
    rewrite !chars_app, <- !app_assoc. change (chars "[" ++ ?t)%list with ("["%char :: t).
    change (chars "]" ++ ?t)%list with ("]"%char :: t).
    rewrite !length_app in L. cbn [String.length] in L.
    cbn [parse_value]. change (skip_ws ("["%char :: ?t)) with ("["%char :: t). cbn beta iota.
    change (code "[" =? 91) with true. cbn iota.
    destruct l as [|x l]; [reflexivity|].
    assert (Sx : starts_value (element_text x)).
    { inversion H as [|? ? Px _]; subst. cbn [forallb] in J. apply andb_prop in J. now apply Px. }
    assert (E : exists c r, (chars (join "," (map element_text (x :: l))) ++ "]"%char :: rest)%list = c :: r
                            /\ is_json_space c = false /\ (code c =? 93) = false).
    { destruct Sx as (c & r & E & S1 & S2 & _).
      destruct l; cbn [map join]; [|rewrite chars_app]; rewrite E; eexists _, _; repeat split; assumption. }
    destruct E as (c & r & E & S1 & S2).
    rewrite E. unfold skip_ws at 1. cbn [drop_while]. rewrite S1, S2. rewrite <- E.
    rewrite (parse_array_elements (x :: l) H J ltac:(discriminate) [] fuel rest) by lia.
    reflexivity.
  - cbn [json_value] in J. apply andb_prop in J. destruct J as [J D].
    assert (T : element_text (VObj l) = "{" ++ join "," (map member_text l) ++ "}").
    { unfold element_text. cbn [JSON_stringify]. now rewrite (members_text l J). }
    rewrite T.
    split; [eexists "{"%char, _; repeat split|].
    intros [|fuel] rest L _; [lia|].
    rewrite !chars_app, <- !app_assoc. change (chars "{" ++ ?t)%list with ("{"%char :: t).
    change (chars "}" ++ ?t)%list with ("}"%char :: t).
    rewrite !length_app in L. cbn [String.length] in L.
    cbn [parse_value]. change (skip_ws ("{"%char :: ?t)) with ("{"%char :: t). cbn beta iota.
    change (code "{" =? 91) with false. change (code "{" =? 123) with true. cbn iota.
    destruct l as [|[k x] l]; [reflexivity|].
    assert (E : exists r, (chars (join "," (map member_text ((k, x) :: l))) ++ "}"%char :: rest)%list
                          = dquote :: r).
    { destruct l; cbn [map join]; [|rewrite chars_app, <- app_assoc]; rewrite chars_member;
        eexists; reflexivity. }
    destruct E as (r & E).
    rewrite E. change (skip_ws (dquote :: r)) with (dquote :: r). cbn beta iota.
    change (code dquote =? 125) with false. cbn iota. rewrite <- E.
    rewrite (parse_object_members ((k, x) :: l) H J ltac:(discriminate) [] fuel rest); [reflexivity | | lia].
    cbn [app]. now apply distinct_NoDup.
Qed.

Lemma parse_text (v : jsval) : json_value v = true -> JSON_parse (element_text v) = Some v.
Proof.
  intro J. destruct (json_round_trip v J) as [_ R].
  unfold JSON_parse. rewrite <- (app_nil_r (chars (element_text v))).
  rewrite (R (2 * String.length (element_text v) + 2)%nat [] ltac:(lia) eq_refl). reflexivity.
Qed.

Lemma stringify_text (v : jsval) :
  json_value v = true -> JSON_stringify v = Some (element_text v).
Proof. intro J. unfold element_text. now destruct (json_value_text v J) as [s ->]. Qed.

(** X1.  On a value made of [null], booleans, whole numbers, strings,
    arrays and objects with distinct keys, [JSON.stringify] returns a
    text, and [JSON.parse] of that text returns the value. *)
Theorem JSON_parse_stringify (v : jsval) :
  json_value v = true ->
  exists s, JSON_stringify v = Some s /\ JSON_parse s = Some v.
Proof.
  intro J. exists (element_text v). split; [now apply stringify_text | now apply parse_text].
Qed.

Lemma JSON_parse_stringify_witness :
  exists s,
    JSON_stringify (VArr [VObj [("id", VStr "a\b"); ("n", VInt (-1500)); ("ok", VBool true)];
                          VNull; VInt (10 ^ 22)]) = Some s
    /\ JSON_parse s
       = Some (VArr [VObj [("id", VStr "a\b"); ("n", VInt (-1500)); ("ok", VBool true)];
                     VNull; VInt (10 ^ 22)]).
Proof.
  exact (JSON_parse_stringify
           (VArr [VObj [("id", VStr "a\b"); ("n", VInt (-1500)); ("ok", VBool true)];
                  VNull; VInt (10 ^ 22)]) eq_refl).
Defined.

(** ** The cache: what is written is read back *)

Lemma deserialize_text (v : jsval) :
  json_value v = true -> deserialize (VStr (element_text v)) = v.
Proof. intro J. unfold deserialize. cbn [ToString]. now rewrite (parse_text v J). Qed.

Lemma entry_text_parsed (e : CacheEntry) :
  entry_text e = element_text (parsed_entry e) /\ json_value (parsed_entry e) = true.
Proof.
  unfold entry_text, element_text, entry_object, parsed_entry, value_of.
  destruct (value e); split; reflexivity.
Qed.

Lemma parse_entry_text (e : CacheEntry) : JSON_parse (entry_text e) = Some (parsed_entry e).
Proof. destruct (entry_text_parsed e) as [E J]. rewrite E. now apply parse_text. Qed.

Lemma entry_text_not_empty (e : CacheEntry) : String.eqb (entry_text e) EmptyString = false.
Proof. unfold entry_text, entry_object. cbn [JSON_stringify]. reflexivity. Qed.

Lemma read_entry_written (key : string) (e : CacheEntry) (st : Storage) :
  read_entry key (assoc_set (cache_key key) (entry_text e) st) = parsed_entry e.
Proof.
  unfold read_entry, getItem. rewrite assoc_set_same.
  now rewrite entry_text_not_empty, parse_entry_text.
Qed.

Lemma parsed_entry_members (e : CacheEntry) :
  member (parsed_entry e) "value" = value_of e
  /\ get_prop (parsed_entry e) "timestamp" = Some (VInt (timestamp e))
  /\ get_prop (parsed_entry e) "ttl" = Some (VInt (ttl e))
  /\ member (parsed_entry e) "accessCount" = VInt (accessCount e)
  /\ member (parsed_entry e) "lastAccess" = VInt (lastAccess e).
Proof. unfold parsed_entry, value_of. destruct (value e); repeat split. Qed.

Lemma isValid_parsed (now : Z) (e : CacheEntry) :
  isValid now (parsed_entry e) = Return (now - timestamp e <? ttl e).
Proof.
  unfold isValid. destruct (parsed_entry_members e) as (_ & -> & -> & _).
  cbn [read bind]. apply age_below.
Qed.

Lemma parsed_entry_well_formed (e : CacheEntry) : well_formed (parsed_entry e) = true.
Proof.
  unfold well_formed, member.
  destruct (parsed_entry_members e) as (_ & -> & -> & _ & L).
  unfold member in L. destruct (get_prop (parsed_entry e) "lastAccess") as [x|] eqn:G.
  - subst x. reflexivity.
  - unfold parsed_entry in G. discriminate G.
Qed.

(** What [get] makes of the entry a tier holds under the key. *)
Lemma get_parsed (key : string) (strategy : Strategy) (now : Z) (w : World) (e : CacheEntry) :
  lookup key strategy w = Some (Parsed (parsed_entry e)) ->
  get key strategy now w
  = if now - timestamp e <? ttl e
    then (Return (deserialize (value_of e)), w)
    else (Return VNull, w).
Proof.
  intro L. unfold get. rewrite L. cbn [hit_object]. rewrite isValid_parsed.
  destruct (now - timestamp e <? ttl e); [|reflexivity].
  destruct (parsed_entry_members e) as (V & _ & _ & C & _).
  cbn [touch]. rewrite C. cbn [ToNumber ToPrimitive VInt bind hit_object commit].
  now rewrite member_touched, V.
Qed.

Lemma get_shared (key : string) (strategy : Strategy) (now : Z) (w : World) (e : CacheEntry) :
  lookup key strategy w = Some (Shared key e) ->
  fst (get key strategy now w)
  = Return (if now - timestamp e <? ttl e then deserialize (value_of e) else VNull).
Proof.
  intro L. rewrite get_answer, L. cbn [hit_object]. apply answer_entry.
Qed.

Lemma serialize_json (v : jsval) : json_value v = true -> serialize v = Some (element_text v).
Proof. apply stringify_text. Qed.

(** The page after a write to a storage tier: the eviction, when one was
    due, and the entry, when the browser has accepted it. *)
Lemma setLocalStorageCache_page (key : string) (e : CacheEntry) (w : World) :
  setLocalStorageCache key e w
  = with_localStorage w
      (if accepted SLocalStorage key e w
       then assoc_set (cache_key key) (entry_text e) (before_write SLocalStorage w)
       else before_write SLocalStorage w).
Proof.
  unfold setLocalStorageCache, accepted, before_write, quota_of, storage_of,
    evictLocalStorageCache, setItem.
  change (maxSize_of SLocalStorage) with localStorage_maxSize.
  destruct w as [ds vr cm mc ls ss lq sq].
  cbn [localStorage localQuota with_localStorage dataStores validationRules cacheManager
       memoryCache sessionStorage sessionQuota].
  destruct (localStorage_maxSize <=? List.length (cache_keys ls))%nat;
    cbn [localStorage localQuota with_localStorage dataStores validationRules cacheManager
         memoryCache sessionStorage sessionQuota];
    match goal with |- context [lq ?st ?k ?v] => destruct (lq st k v) end; reflexivity.
Qed.

Lemma setSessionStorageCache_page (key : string) (e : CacheEntry) (w : World) :
  setSessionStorageCache key e w
  = with_sessionStorage w
      (if accepted SSessionStorage key e w
       then assoc_set (cache_key key) (entry_text e) (before_write SSessionStorage w)
       else before_write SSessionStorage w).
Proof.
  unfold setSessionStorageCache, accepted, before_write, quota_of, storage_of,
    evictSessionStorageCache, setItem.
  change (maxSize_of SSessionStorage) with sessionStorage_maxSize.
  destruct w as [ds vr cm mc ls ss lq sq].
  cbn [localStorage localQuota with_sessionStorage dataStores validationRules cacheManager
       memoryCache sessionStorage sessionQuota].
  destruct (sessionStorage_maxSize <=? List.length (cache_keys ss))%nat;
    cbn [localStorage localQuota with_sessionStorage dataStores validationRules cacheManager
         memoryCache sessionStorage sessionQuota];
    match goal with |- context [sq ?st ?k ?v] => destruct (sq st k v) end; reflexivity.
Qed.

Lemma lookup_after_set
  (key : string) (v : jsval) (strategy : Strategy) (life : option Z) (priority : option string)
  (now : Z) (w : World) :
  is_tier strategy = true ->
  accepted strategy key (entry_of_set v strategy life priority now) w = true ->
  lookup key strategy (run (set key v (options_of strategy life priority) now w) w)
  = Some (match strategy with
          | SMemory => Shared key (entry_of_set v strategy life priority now)
          | _ => Parsed (parsed_entry (entry_of_set v strategy life priority now))
          end).
Proof.
  intros T Acc.
  destruct strategy; try discriminate T;
    cbn [set options_of opt_strategy opt_ttl opt_priority run lookup].
  - unfold from_memory, getMemoryCache, setMemoryCache. cbn [memoryCache with_memoryCache].
    now rewrite assoc_set_same.
  - fold (lifetime SLocalStorage life). fold (entry_of_set v SLocalStorage life priority now).
    rewrite setLocalStorageCache_page, Acc.
    unfold getLocalStorageCache. cbn [localStorage with_localStorage].
    now rewrite read_entry_written.
  - fold (lifetime SSessionStorage life). fold (entry_of_set v SSessionStorage life priority now).
    rewrite setSessionStorageCache_page, Acc.
    unfold getSessionStorageCache. cbn [sessionStorage with_sessionStorage].
    now rewrite read_entry_written.
Qed.

Lemma get_after_set
  (key : string) (v : jsval) (strategy : Strategy) (life : option Z) (priority : option string)
  (now now' : Z) (w : World) :
  is_tier strategy = true ->
  accepted strategy key (entry_of_set v strategy life priority now) w = true ->
  fst (get key strategy now' (run (set key v (options_of strategy life priority) now w) w))
  = Return (if now' - now <? lifetime strategy life
            then deserialize (value_of (entry_of_set v strategy life priority now))
            else VNull).
Proof.
  intros T Acc. pose proof (lookup_after_set key v strategy life priority now w T Acc) as L.
  destruct strategy; try discriminate T.
  - now rewrite (get_shared _ _ _ _ _ L).
  - rewrite (get_parsed _ _ _ _ _ L). cbn [entry_of_set timestamp ttl].
    now destruct (now' - now <? lifetime SLocalStorage life).
  - rewrite (get_parsed _ _ _ _ _ L). cbn [entry_of_set timestamp ttl].
    now destruct (now' - now <? lifetime SSessionStorage life).
Qed.

(** X2.  A value made of [null], booleans, whole numbers, strings,
    arrays and objects with distinct keys, written with [set] to the tier
    the caller names, is what [get] returns from that tier as long as the
    entry lives (for the TTL given, or the default TTL of the tier),
    provided the browser has accepted the write; the memory tier asks
    nothing of the browser. *)
Theorem set_then_get
  (key : string) (v : jsval) (strategy : Strategy) (life : option Z) (priority : option string)
  (now now' : Z) (w : World) :
  json_value v = true ->
  is_tier strategy = true ->
  accepted strategy key (entry_of_set v strategy life priority now) w = true ->
  now' - now < lifetime strategy life ->
  fst (get key strategy now' (run (set key v (options_of strategy life priority) now w) w))
  = Return v.
Proof.
  intros J T Acc H. rewrite (get_after_set key v strategy life priority now now' w T Acc).
  replace (now' - now <? lifetime strategy life) with true by (symmetry; now apply Z.ltb_lt).
  unfold value_of, entry_of_set. cbn [value]. rewrite (serialize_json v J).
  f_equal. now apply deserialize_text.
Qed.

Lemma set_then_get_witness :
  fst (get "k" SSessionStorage 2000
         (run (set "k" (VObj [("data", VInt 7)]) (options_of SSessionStorage None None)
                 1000 initial_world) initial_world))
  = Return (VObj [("data", VInt 7)]).
Proof.
  apply (set_then_get "k" (VObj [("data", VInt 7)]) SSessionStorage None None 1000 2000
           initial_world); reflexivity.
Defined.

(** A write the browser refuses stores nothing: the tier holds what the
    eviction, if one was due, has left of it. *)
Lemma refused_write_stores_nothing
  (key : string) (v : jsval) (tier : Strategy) (life : option Z) (priority : option string)
  (now : Z) (w : World) :
  tier = SLocalStorage \/ tier = SSessionStorage ->
  accepted tier key (entry_of_set v tier life priority now) w = false ->
  storage_of tier (run (set key v (options_of tier life priority) now w) w)
  = before_write tier w.
Proof.
  intros [-> | ->] Acc; cbn [set options_of opt_strategy opt_ttl opt_priority run storage_of].
  - fold (lifetime SLocalStorage life). fold (entry_of_set v SLocalStorage life priority now).
    now rewrite setLocalStorageCache_page, Acc.
  - fold (lifetime SSessionStorage life). fold (entry_of_set v SSessionStorage life priority now).
    now rewrite setSessionStorageCache_page, Acc.
Qed.



Lemma lookup_auto_none (key : string) (w : World) :
  lookup key SAuto w = None ->
  from_memory key w = None
  /\ from_storage (getSessionStorageCache key w) = None
  /\ from_storage (getLocalStorageCache key w) = None.
Proof.
  cbn [lookup]. destruct (from_memory key w); [discriminate|].
  destruct (from_storage (getSessionStorageCache key w)); [discriminate|].
  destruct (from_storage (getLocalStorageCache key w)); [discriminate|].
  repeat split.
Qed.

Lemma setMemoryCache_storages (key : string) (e : CacheEntry) (now : Z) (w : World) :
  sessionStorage (setMemoryCache key e now w) = sessionStorage w
  /\ localStorage (setMemoryCache key e now w) = localStorage w
  /\ dataStores (setMemoryCache key e now w) = dataStores w.
Proof.
  unfold setMemoryCache, evictMemoryCache.
  destruct (memory_maxSize <=? List.length (memoryCache w))%nat; [|repeat split].
  destruct (fst (oldest now (memoryCache w))) as [k|]; [|repeat split].
  destruct (String.eqb k EmptyString); repeat split.
Qed.

(** X4.  The usual pair of calls, [set(key, value)] and [get(key)], both
    on the strategy 'auto', with a value made of [null], booleans, whole
    numbers, strings, arrays and objects with distinct keys: when no tier
    holds the key beforehand and the browser accepts the write to the
    tier the size of the value has chosen, the value is read back for
    five minutes. *)
Theorem set_then_get_auto (key : string) (v : jsval) (now now' : Z) (w : World) :
  json_value v = true ->
  lookup key SAuto w = None ->
  accepted (auto_tier (entry_of_set v SAuto None None now)) key
    (entry_of_set v SAuto None None now) w = true ->
  now' - now < 5 * 60 * 1000 ->
  fst (get key SAuto now' (run (set key v no_options now w) w)) = Return v.
Proof.
  intros J L Acc H. destruct (lookup_auto_none key w L) as (Lm & Ls & Ll).
  set (e := entry_of_set v SAuto None None now) in *.
  assert (V : deserialize (value_of e) = v).
  { unfold value_of, e, entry_of_set. cbn [value]. rewrite (serialize_json v J).
    now apply deserialize_text. }
  assert (T : (now' - timestamp e <? ttl e) = true) by (apply Z.ltb_lt; exact H).
  assert (Hset : set key v no_options now w = setAutoCache key e now w) by reflexivity.
  rewrite Hset. unfold setAutoCache. unfold auto_tier in Acc.
  assert (Q : dataSize e = Some (Z.of_nat (String.length (JSON_quote (element_text v))))).
  { unfold dataSize, value_of, e, entry_of_set. cbn [value]. now rewrite (serialize_json v J). }
  rewrite Q in *. cbn [read bind].
  destruct (Z.of_nat (String.length (JSON_quote (element_text v))) <? 1024);
    [| destruct (Z.of_nat (String.length (JSON_quote (element_text v))) <? 10240)];
    cbn [run].
  - rewrite (get_shared key SAuto now' _ e); [now rewrite T, V|].
    cbn [lookup]. unfold from_memory, getMemoryCache, setMemoryCache.
    cbn [memoryCache with_memoryCache]. now rewrite assoc_set_same.
  - rewrite (get_parsed key SAuto now' _ e); [now rewrite T, V|].
    rewrite setSessionStorageCache_page, Acc.
    cbn [lookup]. unfold from_memory, getMemoryCache in *.
    cbn [memoryCache with_sessionStorage]. rewrite Lm. cbn [or_else].
    unfold getSessionStorageCache. cbn [sessionStorage with_sessionStorage].
    now rewrite read_entry_written.
  - rewrite (get_parsed key SAuto now' _ e); [now rewrite T, V|].
    rewrite setLocalStorageCache_page, Acc.
    cbn [lookup]. unfold from_memory, getMemoryCache, getSessionStorageCache in *.
    cbn [memoryCache sessionStorage with_localStorage]. rewrite Lm, Ls. cbn [or_else].
    unfold getLocalStorageCache. cbn [localStorage with_localStorage].
    now rewrite read_entry_written.
Qed.

Lemma set_then_get_auto_witness :
  fst (get "user" SAuto 1500
         (run (set "user" (VObj [("name", VStr "Asha"); ("visits", VInt 3)]) no_options
                 1000 initial_world) initial_world))
  = Return (VObj [("name", VStr "Asha"); ("visits", VInt 3)]).
Proof.
  apply (set_then_get_auto "user" (VObj [("name", VStr "Asha"); ("visits", VInt 3)])
           1000 1500 initial_world); reflexivity.
Defined.

(** ** The cache and the rest of the storages *)

Lemma assoc_remove_other {A} (l : list (string * A)) (k k' : string) :
  k <> k' -> assoc k (assoc_remove k' l) = assoc k l.
Proof.
  intro N. induction l as [|[k0 v0] l IH]; [reflexivity|]. cbn [assoc_remove].
  destruct (String.eqb k' k0) eqn:E.
  - apply String.eqb_eq in E. subst k0. cbn [assoc].
    destruct (String.eqb k k') eqn:E'; [apply String.eqb_eq in E'; congruence | reflexivity].
  - cbn [assoc]. now rewrite IH.
Qed.

Lemma cache_key_prefixed (key : string) : startsWith (cache_key key) "cache_" = true.
Proof. reflexivity. Qed.

Lemma outside_cache (k key : string) : startsWith k "cache_" = false -> k <> cache_key key.
Proof. intros H E. subst k. now rewrite cache_key_prefixed in H. Qed.

Lemma cache_keys_prefixed (st : Storage) (k : string) :
  In k (cache_keys st) -> startsWith k "cache_" = true /\ In k (storage_keys st).
Proof. unfold cache_keys. intro H. apply filter_In in H. tauto. Qed.

Lemma remove_cache_keys (k : string) (keys : list string) :
  Forall (fun key => k <> key) keys ->
  forall st, getItem k (remove_all keys st) = getItem k st.
Proof.
  induction 1 as [|key keys N _ IH]; intro st; [reflexivity|].
  unfold remove_all in *. cbn [fold_left]. rewrite IH. unfold getItem, removeItem.
  now apply assoc_remove_other.
Qed.

Lemma apart_from_cache_keys (k : string) (st : Storage) :
  startsWith k "cache_" = false -> Forall (fun key => k <> key) (cache_keys st).
Proof.
  intro H. apply Forall_forall. intros key I E. subst key.
  apply cache_keys_prefixed in I. destruct I as [I _]. congruence.
Qed.

Lemma evictStorage_outside (k : string) (st : Storage) :
  startsWith k "cache_" = false -> getItem k (evictStorage st) = getItem k st.
Proof.
  intro H. unfold evictStorage.
  destruct (bind (parse_all st (cache_keys st)) (sort_by by_lastAccess)) as [entries|]; [|reflexivity].
  generalize (firstn ((List.length entries + 3) / 4) entries). intro l. revert st.
  induction l as [|e l IH]; intro st; [reflexivity|].
  cbn [fold_left]. rewrite IH. unfold getItem, removeItem.
  apply assoc_remove_other. now apply outside_cache.
Qed.

Lemma sweep_outside (now : Z) (k : string) (keys : list string) :
  Forall (fun key => k <> key) keys ->
  forall st, getItem k (sweep now keys st) = getItem k st.
Proof.
  induction 1 as [|key keys N _ IH]; intro st; [reflexivity|].
  cbn [sweep].
  destruct (JSON_parse _) as [entry|]; [|reflexivity].
  destruct (isValid now entry) as [[|]|e]; [apply IH | | reflexivity].
  rewrite IH. unfold getItem, removeItem. now apply assoc_remove_other.
Qed.

Lemma same_at_refl (k : string) (w : World) : same_at k w w.
Proof. repeat split. Qed.

Lemma before_write_outside (k : string) (tier : Strategy) (w : World) :
  startsWith k "cache_" = false ->
  getItem k (before_write tier w) = getItem k (storage_of tier w).
Proof.
  intro H. unfold before_write.
  destruct (maxSize_of tier <=? List.length (cache_keys (storage_of tier w)))%nat;
    [now apply evictStorage_outside | reflexivity].
Qed.

Lemma set_outside (k key : string) (v : jsval) (options : SetOptions) (now : Z) (w : World) :
  startsWith k "cache_" = false -> same_at k w (run (set key v options now w) w).
Proof.
  intro H.
  assert (Hm : forall e, same_at k w (setMemoryCache key e now w)).
  { intro e. destruct (setMemoryCache_storages key e now w) as (S1 & S2 & S3).
    unfold same_at. now rewrite S1, S2, S3. }
  assert (Hl : forall e, same_at k w (setLocalStorageCache key e w)).
  { intro e. rewrite setLocalStorageCache_page. unfold same_at.
    cbn [localStorage sessionStorage dataStores with_localStorage].
    repeat split.
    destruct (accepted SLocalStorage key e w).
    - unfold getItem at 1. rewrite assoc_set_other by (now apply outside_cache).
      now apply (before_write_outside k SLocalStorage w).
    - now apply (before_write_outside k SLocalStorage w). }
  assert (Hs : forall e, same_at k w (setSessionStorageCache key e w)).
  { intro e. rewrite setSessionStorageCache_page. unfold same_at.
    cbn [localStorage sessionStorage dataStores with_sessionStorage].
    repeat split.
    destruct (accepted SSessionStorage key e w).
    - unfold getItem at 1. rewrite assoc_set_other by (now apply outside_cache).
      now apply (before_write_outside k SSessionStorage w).
    - now apply (before_write_outside k SSessionStorage w). }
  unfold set. destruct (match opt_strategy options with Some s => s | None => SAuto end);
    cbn [run]; try apply Hm; try apply Hl; try apply Hs; try apply same_at_refl.
  unfold setAutoCache. destruct (dataSize _) as [size|]; cbn [read bind run]; [|apply same_at_refl].
  destruct (size <? 1024); [apply Hm|]. destruct (size <? 10240); [apply Hs | apply Hl].
Qed.

Lemma get_stores (key : string) (strategy : Strategy) (now : Z) (w : World) :
  dataStores (after (get key strategy now w)) = dataStores w.
Proof.
  destruct (get_page key strategy now w) as [-> | (h & h' & _ & _ & _ & ->)]; [reflexivity|].
  now destruct h'.
Qed.

(** X5.  The cache keeps to its own keys.  Whatever [set], [get],
    [cleanup] and [clear] do, the stores of the data manager stay as they
    are, and so does every item of [localStorage] and [sessionStorage]
    whose key does not start with "cache_": the saved stores, under
    "data-...", among them. *)
Theorem cache_keeps_to_its_keys
  (k key : string) (v : jsval) (options : SetOptions) (strategy : Strategy) (now : Z) (w : World) :
  startsWith k "cache_" = false ->
  same_at k w (run (set key v options now w) w)
  /\ same_at k w (after (get key strategy now w))
  /\ same_at k w (cleanup now w)
  /\ same_at k w (clear w).
Proof.
  intro H. split; [now apply set_outside|]. split; [|split].
  - destruct (get_leaves_storages key strategy now w) as [S1 S2].
    unfold same_at. now rewrite S1, S2, get_stores.
  - unfold same_at, cleanup.
    cbn [localStorage sessionStorage dataStores with_memoryCache with_localStorage with_sessionStorage].
    repeat split; apply sweep_outside; now apply apart_from_cache_keys.
  - unfold same_at, clear.
    cbn [localStorage sessionStorage dataStores with_memoryCache with_localStorage with_sessionStorage].
    repeat split; apply remove_cache_keys; now apply apart_from_cache_keys.
Qed.

Lemma cache_keeps_to_its_keys_witness :
  same_at "data-sales" (saveAllData page_one_sale)
    (run (set "k" long_value durable_options 2000 (saveAllData page_one_sale))
       (saveAllData page_one_sale))
  /\ same_at "data-sales" (saveAllData page_one_sale)
       (after (get "k" SAuto 2000 (saveAllData page_one_sale)))
  /\ same_at "data-sales" (saveAllData page_one_sale) (cleanup 2000 (saveAllData page_one_sale))
  /\ same_at "data-sales" (saveAllData page_one_sale) (clear (saveAllData page_one_sale)).
Proof.
  exact (cache_keeps_to_its_keys "data-sales" "k" long_value durable_options SAuto 2000
           (saveAllData page_one_sale) eq_refl).
Defined.

(** ** [cleanup] and [clear] *)

Lemma assoc_filter_kept {A} (p : string * A -> bool) (l : list (string * A)) (k : string) (v : A) :
  assoc k l = Some v -> p (k, v) = true -> assoc k (filter p l) = Some v.
Proof.
  induction l as [|[k0 v0] l IH]; intros H P; [discriminate H|].
  cbn [assoc] in H. cbn [filter].
  destruct (String.eqb k k0) eqn:E.
  - apply String.eqb_eq in E. subst k0. injection H as ->. rewrite P. cbn [assoc].
    now rewrite String.eqb_refl.
  - destruct (p (k0, v0)); [cbn [assoc]; rewrite E|]; now apply IH.
Qed.

Lemma assoc_filter_In {A} (p : string * A -> bool) (l : list (string * A)) (k : string) (v : A) :
  assoc k (filter p l) = Some v -> p (k, v) = true.
Proof.
  intro H. apply assoc_In in H. apply filter_In in H. tauto.
Qed.

Lemma sweep_keeps (now : Z) (k item : string) (entry : jsval) (keys : list string) :
  JSON_parse item = Some entry -> isValid now entry = Return true ->
  forall st, getItem k st = Some item -> getItem k (sweep now keys st) = Some item.
Proof.
  intros P V. induction keys as [|key keys IH]; intros st G; [exact G|].
  cbn [sweep]. destruct (String.eqb k key) eqn:E.
  - apply String.eqb_eq in E. subst key. rewrite G, P, V. now apply IH.
  - apply String.eqb_neq in E.
    destruct (JSON_parse (match getItem key st with Some s => s | None => "null" end)) as [e|];
      [|exact G].
    destruct (isValid now e) as [[|]|x]; [now apply IH | | exact G].
    apply IH. unfold getItem, removeItem. now rewrite assoc_remove_other.
Qed.

Lemma read_entry_hit (key : string) (st : Storage) :
  truthy (read_entry key st) = true ->
  exists item, getItem (cache_key key) st = Some item
               /\ JSON_parse item = Some (read_entry key st).
Proof.
  unfold read_entry. destruct (getItem (cache_key key) st) as [item|]; [|discriminate].
  destruct (String.eqb item EmptyString); [discriminate|].
  destruct (JSON_parse item) as [v|] eqn:P; [|discriminate].
  intros _. exists item. split; [reflexivity | exact P].
Qed.

Lemma read_entry_same (key : string) (st st' : Storage) :
  getItem (cache_key key) st' = getItem (cache_key key) st ->
  read_entry key st' = read_entry key st.
Proof. unfold read_entry. now intros ->. Qed.

Lemma sweep_keeps_entry (now : Z) (key : string) (keys : list string) (st : Storage) :
  truthy (read_entry key st) = true ->
  isValid now (read_entry key st) = Return true ->
  read_entry key (sweep now keys st) = read_entry key st.
Proof.
  intros T V. destruct (read_entry_hit key st T) as (item & G & P).
  apply read_entry_same. rewrite G. now apply (sweep_keeps now _ item (read_entry key st)).
Qed.

Lemma from_storage_hit (v : jsval) (h : Hit) :
  from_storage v = Some h -> h = Parsed v /\ truthy v = true.
Proof. unfold from_storage. destruct (truthy v); [|discriminate]. now intros [= <-]. Qed.

(** X6.  [cleanup] never takes away an entry that is still valid: a
    [get] on a named tier that hits a valid entry gives the same answer
    after a [cleanup], at whatever time it is asked. *)
Theorem cleanup_keeps_valid_entries
  (key : string) (strategy : Strategy) (now now' : Z) (w : World) (h : Hit) :
  is_tier strategy = true ->
  lookup key strategy w = Some h ->
  isValid now (hit_object h) = Return true ->
  fst (get key strategy now' (cleanup now w)) = fst (get key strategy now' w).
Proof.
  intros T L V. rewrite !get_answer.
  assert (E : lookup key strategy (cleanup now w) = lookup key strategy w);
    [|now rewrite E].
  rewrite L. destruct strategy; try discriminate T; cbn [lookup] in *.
  - unfold from_memory, getMemoryCache, cleanup in *.
    cbn [memoryCache with_memoryCache with_localStorage with_sessionStorage].
    destruct (assoc key (memoryCache w)) as [e|] eqn:A; [|discriminate L].
    cbn [option_map] in L. injection L as <-. cbn [hit_object] in V.
    rewrite (assoc_filter_kept _ _ key e A); [reflexivity|].
    cbn [snd]. unfold valid_entry. now rewrite V.
  - destruct (from_storage_hit _ _ L) as [-> Tr]. cbn [hit_object] in V.
    unfold getLocalStorageCache, cleanup in *.
    cbn [localStorage with_memoryCache with_localStorage with_sessionStorage].
    rewrite (sweep_keeps_entry now key _ _ Tr V). unfold from_storage. now rewrite Tr.
  - destruct (from_storage_hit _ _ L) as [-> Tr]. cbn [hit_object] in V.
    unfold getSessionStorageCache, cleanup in *.
    cbn [sessionStorage with_memoryCache with_localStorage with_sessionStorage].
    rewrite (sweep_keeps_entry now key _ _ Tr V). unfold from_storage. now rewrite Tr.
Qed.

Lemma cleanup_keeps_valid_entries_witness :
  fst (get "k" SLocalStorage 3500 (cleanup 3000 page_shadowed_k))
  = fst (get "k" SLocalStorage 3500 page_shadowed_k).
Proof.
  apply (cleanup_keeps_valid_entries "k" SLocalStorage 3000 3500 page_shadowed_k
           (Parsed (getLocalStorageCache "k" page_shadowed_k))); reflexivity.
Defined.

Lemma assoc_absent {A} (l : list (string * A)) (k : string) :
  ~ In k (map fst l) -> assoc k l = None.
Proof.
  induction l as [|[k0 v0] l IH]; intro N; [reflexivity|].
  cbn [assoc]. cbn [map fst In] in N. destruct (String.eqb k k0) eqn:E.
  - apply String.eqb_eq in E. subst. tauto.
  - apply IH. tauto.
Qed.

Lemma assoc_present {A} (l : list (string * A)) (k : string) (v : A) :
  assoc k l = Some v -> In k (map fst l).
Proof. intro H. apply assoc_In in H. apply (in_map fst) in H. exact H. Qed.

Lemma assoc_remove_keys {A} (l : list (string * A)) (k k' : string) :
  In k' (map fst (assoc_remove k l)) -> In k' (map fst l).
Proof.
  induction l as [|[k0 v0] l IH]; [tauto|]. cbn [assoc_remove].
  destruct (String.eqb k k0); cbn [map fst In]; tauto.
Qed.

Lemma NoDup_assoc_remove {A} (l : list (string * A)) (k : string) :
  NoDup (map fst l) -> NoDup (map fst (assoc_remove k l)).
Proof.
  induction l as [|[k0 v0] l IH]; intro N; [exact N|].
  cbn [assoc_remove]. cbn [map fst] in N. inversion N as [|? ? N1 N2]; subst.
  destruct (String.eqb k k0); [exact N2|].
  cbn [map fst]. constructor; [|now apply IH].
  intro I. apply N1. now apply assoc_remove_keys in I.
Qed.

Lemma assoc_remove_same {A} (l : list (string * A)) (k : string) :
  NoDup (map fst l) -> assoc k (assoc_remove k l) = None.
Proof.
  induction l as [|[k0 v0] l IH]; intro N; [reflexivity|].
  cbn [assoc_remove]. cbn [map fst] in N. inversion N as [|? ? N1 N2]; subst.
  destruct (String.eqb k k0) eqn:E.
  - apply String.eqb_eq in E. subst k0. now apply assoc_absent.
  - cbn [assoc]. rewrite E. now apply IH.
Qed.

(** On a well-formed entry [isValid] returns. *)
Lemma isValid_returns (now : Z) (entry : jsval) :
  well_formed entry = true -> exists valid, isValid now entry = Return valid.
Proof.
  unfold well_formed. intro W.
  apply andb_prop in W. destruct W as [W _].
  apply andb_prop in W. destruct W as [W Cl].
  apply andb_prop in W. destruct W as [A Cs]. apply negb_true_iff in A.
  unfold isValid. rewrite !(get_prop_present entry _ A). cbn [read bind].
  unfold converts in Cs, Cl.
  unfold js_sub, ToNumber. cbn [ToPrimitive VInt bind].
  destruct (ToPrimitive (member entry "timestamp")) as [stamp|]; [|discriminate Cs].
  cbn [bind]. unfold js_lt. cbn [ToPrimitive bind].
  destruct (ToPrimitive (member entry "ttl")) as [life|]; [|discriminate Cl].
  cbn [bind]. now eexists.
Qed.

Lemma well_formed_present (entry : jsval) : well_formed entry = true -> is_absent entry = false.
Proof.
  unfold well_formed. intro W.
  apply andb_prop in W. destruct W as [W _].
  apply andb_prop in W. destruct W as [W _].
  apply andb_prop in W. destruct W as [A _]. now apply negb_true_iff in A.
Qed.

(** What a sweep leaves under the keys it has visited, in a storage where
    every one of them holds an entry. *)
Lemma sweep_valid (now : Z) (keys : list string) :
  NoDup keys ->
  forall st,
    NoDup (storage_keys st) ->
    (forall k, In k keys ->
       exists item entry,
         getItem k st = Some item /\ JSON_parse item = Some entry /\ well_formed entry = true) ->
    forall k, In k keys ->
      getItem k (sweep now keys st) = None
      \/ exists item entry,
           getItem k (sweep now keys st) = Some item
           /\ JSON_parse item = Some entry /\ isValid now entry = Return true.
Proof.
  induction 1 as [|key keys Nk Nkeys IH]; intros st Nst R k I; [destruct I|].
  cbn [sweep].
  destruct (R key (or_introl eq_refl)) as (item & entry & G & P & A).
  rewrite G, P. destruct (isValid_returns now entry A) as [valid V]. rewrite V.
  assert (Out : Forall (fun key' => key <> key') keys).
  { apply Forall_forall. intros key' I' E. subst key'. contradiction. }
  destruct valid.
  - destruct I as [<- | I].
    + right. exists item, entry. rewrite (sweep_outside now key keys Out st). repeat split; assumption.
    + apply (IH st Nst); [|exact I]. intros k' I'. apply R. now right.
  - destruct I as [<- | I].
    + left. rewrite (sweep_outside now key keys Out). unfold getItem, removeItem.
      now apply assoc_remove_same.
    + apply IH; [now apply NoDup_assoc_remove | | exact I].
      intros k' I'. destruct (R k' (or_intror I')) as (item' & entry' & G' & P' & A').
      exists item', entry'. repeat split; try assumption.
      unfold getItem, removeItem. rewrite assoc_remove_other; [exact G'|].
      intro E. subst k'. contradiction.
Qed.

Lemma sweep_storage_valid (now : Z) (key : string) (st : Storage) :
  readable st ->
  truthy (read_entry key (sweep now (cache_keys st) st)) = true ->
  isValid now (read_entry key (sweep now (cache_keys st) st)) = Return true.
Proof.
  intros [N R] T. destruct (read_entry_hit key _ T) as (item & G & P).
  destruct (in_dec string_dec (cache_key key) (cache_keys st)) as [I | I].
  - destruct (sweep_valid now (cache_keys st) (NoDup_filter _ N) st N R (cache_key key) I)
      as [E | (item' & entry & G' & P' & V)]; [congruence|].
    assert (item' = item) by congruence. subst item'. congruence.
  - exfalso. apply I. rewrite sweep_outside in G.
    + unfold cache_keys. apply filter_In. split; [|apply cache_key_prefixed].
      now apply assoc_present in G.
    + apply Forall_forall. intros k' I' E. subst k'. contradiction.
Qed.

(** X7.  After [cleanup] nothing expired is left to be found.  In
    storages that hold no key twice and, under every cache key, an entry
    whose [timestamp], [ttl] and [lastAccess] can be made numbers (as the
    entries [set] writes are), every entry a [get] can still come upon,
    on any strategy, is valid at the time of the cleanup. *)
Theorem cleanup_removes_expired_entries
  (key : string) (strategy : Strategy) (now : Z) (w : World) (h : Hit) :
  readable (localStorage w) ->
  readable (sessionStorage w) ->
  lookup key strategy (cleanup now w) = Some h ->
  isValid now (hit_object h) = Return true.
Proof.
  intros Rl Rs L.
  assert (M : forall h', from_memory key (cleanup now w) = Some h' ->
                         isValid now (hit_object h') = Return true).
  { intros h' F. unfold from_memory, getMemoryCache, cleanup in F.
    cbn [memoryCache with_memoryCache with_localStorage with_sessionStorage] in F.
    destruct (assoc key (filter _ (memoryCache w))) as [e|] eqn:A; [|discriminate F].
    cbn [option_map] in F. injection F as <-. cbn [hit_object].
    pose proof (assoc_filter_In _ _ key e A) as V. cbn [snd] in V.
    rewrite valid_entry_spec in V. now rewrite isValid_entry, V. }
  assert (S : forall h', from_storage (getSessionStorageCache key (cleanup now w)) = Some h' ->
                         isValid now (hit_object h') = Return true).
  { intros h' F. destruct (from_storage_hit _ _ F) as [-> T]. cbn [hit_object].
    unfold getSessionStorageCache, cleanup in *.
    cbn [sessionStorage with_memoryCache with_localStorage with_sessionStorage] in *.
    now apply sweep_storage_valid. }
  assert (D : forall h', from_storage (getLocalStorageCache key (cleanup now w)) = Some h' ->
                         isValid now (hit_object h') = Return true).
  { intros h' F. destruct (from_storage_hit _ _ F) as [-> T]. cbn [hit_object].
    unfold getLocalStorageCache, cleanup in *.
    cbn [localStorage with_memoryCache with_localStorage with_sessionStorage] in *.
    now apply sweep_storage_valid. }
  destruct strategy; cbn [lookup] in L; try discriminate L; auto.
  destruct (from_memory key (cleanup now w)) as [hm|]; [injection L as <-; now apply M|].
  destruct (from_storage (getSessionStorageCache key (cleanup now w))) as [hs|];
    [injection L as <-; now apply S|].
  cbn [or_else] in L. now apply D.
Qed.

Lemma cleanup_removes_expired_entries_witness :
  isValid 3000 (hit_object (Parsed (getLocalStorageCache "k" page_shadowed_k))) = Return true.
Proof.
  apply (cleanup_removes_expired_entries "k" SAuto 3000 page_shadowed_k
           (Parsed (getLocalStorageCache "k" page_shadowed_k))).
  - split.
    + vm_compute (storage_keys (localStorage page_shadowed_k)).
      constructor; [intros [] | constructor].
    + intros k I. vm_compute in I. destruct I as [<- | []].
      eexists _, _. split; [vm_compute; reflexivity|].
      split; [vm_compute; reflexivity | reflexivity].
  - split.
    + vm_compute (storage_keys (sessionStorage page_shadowed_k)). constructor.
    + intros k I. vm_compute in I. destruct I.
  - reflexivity.
Defined.

Lemma remove_all_skip (k v : string) (keys : list string) :
  Forall (fun key => key <> k) keys ->
  forall st, remove_all keys ((k, v) :: st) = (k, v) :: remove_all keys st.
Proof.
  induction 1 as [|key keys N _ IH]; intro st; [reflexivity|].
  unfold remove_all in *. cbn [fold_left]. unfold removeItem at 2. cbn [assoc_remove].
  destruct (String.eqb key k) eqn:E; [apply String.eqb_eq in E; congruence|].
  now rewrite IH.
Qed.

Lemma remove_all_cache_keys (st : Storage) :
  remove_all (cache_keys st) st
  = filter (fun kv => negb (startsWith (fst kv) "cache_")) st.
Proof.
  induction st as [|[k v] st IH]; [reflexivity|].
  unfold cache_keys, storage_keys in *. cbn [map fst filter].
  destruct (startsWith k "cache_") eqn:E; cbn [negb].
  - unfold remove_all at 1. cbn [fold_left]. unfold removeItem at 2. cbn [assoc_remove].
    rewrite String.eqb_refl. exact IH.
  - rewrite remove_all_skip; [now rewrite IH|].
    apply Forall_forall. intros key I N. subst key. apply filter_In in I.
    destruct I as [_ I]. congruence.
Qed.

Lemma no_cache_key_left (st : Storage) :
  cache_keys (filter (fun kv => negb (startsWith (fst kv) "cache_")) st) = [].
Proof.
  induction st as [|[k v] st IH]; [reflexivity|]. cbn [filter fst].
  destruct (startsWith k "cache_") eqn:E; cbn [negb]; [exact IH|].
  unfold cache_keys, storage_keys in *. cbn [map fst filter]. now rewrite E.
Qed.

Lemma read_entry_cleared (key : string) (st : Storage) :
  read_entry key (remove_all (cache_keys st) st) = VNull.
Proof.
  unfold read_entry. rewrite remove_all_cache_keys.
  destruct (getItem (cache_key key) _) as [item|] eqn:G; [|reflexivity].
  exfalso. unfold getItem in G. apply assoc_In in G. apply filter_In in G.
  destruct G as [_ G]. cbn [fst] in G. now rewrite cache_key_prefixed in G.
Qed.

(** X8.  [clear] empties the three tiers: afterwards [getStats] counts
    no entry in any of them, and [get] answers [null] for every key, on
    every strategy, and changes nothing. *)
Theorem clear_empties_the_cache (key : string) (strategy : Strategy) (now : Z) (w : World) :
  get key strategy now (clear w) = (Return VNull, clear w)
  /\ tier_size (stats_memory (getStats (clear w))) = 0%nat
  /\ tier_size (stats_localStorage (getStats (clear w))) = 0%nat
  /\ tier_size (stats_sessionStorage (getStats (clear w))) = 0%nat.
Proof.
  split; [|split; [reflexivity|]].
  - apply get_missing.
    assert (S : getSessionStorageCache key (clear w) = VNull)
      by (unfold getSessionStorageCache, clear;
          cbn [sessionStorage with_memoryCache with_localStorage with_sessionStorage];
          apply read_entry_cleared).
    assert (L : getLocalStorageCache key (clear w) = VNull)
      by (unfold getLocalStorageCache, clear;
          cbn [localStorage with_memoryCache with_localStorage with_sessionStorage];
          apply read_entry_cleared).
    destruct strategy; cbn [lookup]; rewrite ?S, ?L; reflexivity.
  - unfold getStats, clear.
    cbn [tier_size stats_localStorage stats_sessionStorage localStorage sessionStorage
         with_memoryCache with_localStorage with_sessionStorage].
    now rewrite !remove_all_cache_keys, !no_cache_key_left.
Qed.

(** ** The capacity of the storage tiers *)

Lemma insert_by_permutation {A} (cmp : A -> A -> outcome Z) (x : A) (l l' : list A) :
  insert_by cmp x l = Return l' -> Permutation.Permutation l' (x :: l).
Proof.
  revert l'. induction l as [|y l IH]; intros l' H; cbn [insert_by] in H.
  - injection H as <-. apply Permutation.Permutation_refl.
  - destruct (cmp x y) as [c|]; [|discriminate H]. cbn [bind] in H.
    destruct (c <=? 0).
    + injection H as <-. apply Permutation.Permutation_refl.
    + destruct (insert_by cmp x l) as [r|]; [|discriminate H]. cbn [bind] in H.
      injection H as <-.
      apply Permutation.perm_trans with (y :: x :: l).
      * apply Permutation.perm_skip. now apply IH.
      * apply Permutation.perm_swap.
Qed.

Lemma sort_by_permutation {A} (cmp : A -> A -> outcome Z) (l l' : list A) :
  sort_by cmp l = Return l' -> Permutation.Permutation l' l.
Proof.
  revert l'. induction l as [|x l IH]; intros l' H; cbn [sort_by] in H.
  - injection H as <-. apply Permutation.perm_nil.
  - destruct (sort_by cmp l) as [r|]; [|discriminate H]. cbn [bind] in H.
    apply insert_by_permutation in H.
    apply Permutation.perm_trans with (x :: r); [exact H|].
    apply Permutation.perm_skip. now apply IH.
Qed.

Lemma insert_by_returns {A} (cmp : A -> A -> outcome Z) (x : A) (l : list A) :
  (forall y, In y l -> exists c, cmp x y = Return c) ->
  exists l', insert_by cmp x l = Return l'.
Proof.
  induction l as [|y l IH]; intro T; cbn [insert_by]; [now eexists|].
  destruct (T y (or_introl eq_refl)) as [c ->]. cbn [bind].
  destruct (c <=? 0); [now eexists|].
  destruct IH as [r ->]; [intros z I; apply T; now right|]. cbn [bind]. now eexists.
Qed.

Lemma sort_by_returns {A} (cmp : A -> A -> outcome Z) (l : list A) :
  (forall x y, In x l -> In y l -> exists c, cmp x y = Return c) ->
  exists l', sort_by cmp l = Return l'.
Proof.
  induction l as [|x l IH]; intro T; cbn [sort_by]; [now eexists|].
  destruct IH as [r E]; [intros a b Ia Ib; apply T; now right|].
  rewrite E. cbn [bind]. apply insert_by_returns.
  intros y I. apply T; [now left | right].
  apply sort_by_permutation in E. now apply (Permutation.Permutation_in _ E).
Qed.

Lemma by_lastAccess_returns (a b : string * jsval) :
  well_formed (snd a) = true -> well_formed (snd b) = true ->
  exists c, by_lastAccess a b = Return c.
Proof.
  intros Ha Hb. unfold by_lastAccess.
  rewrite (get_prop_present _ "lastAccess" (well_formed_present _ Ha)),
    (get_prop_present _ "lastAccess" (well_formed_present _ Hb)).
  cbn [read bind]. unfold well_formed in Ha, Hb.
  apply andb_prop in Ha, Hb. destruct Ha as [_ Ha], Hb as [_ Hb]. unfold converts in Ha, Hb.
  unfold js_sub, ToNumber.
  destruct (ToPrimitive (member (snd a) "lastAccess")) as [x|]; [|discriminate Ha].
  destruct (ToPrimitive (member (snd b) "lastAccess")) as [y|]; [|discriminate Hb].
  cbn [bind ToPrimitive]. now eexists.
Qed.

Lemma parse_all_returns (st : Storage) (keys : list string) :
  (forall k, In k keys ->
     exists item entry,
       getItem k st = Some item /\ JSON_parse item = Some entry /\ well_formed entry = true) ->
  exists entries,
    parse_all st keys = Return entries
    /\ map fst entries = map strip_cache keys
    /\ Forall (fun e => well_formed (snd e) = true) entries.
Proof.
  induction keys as [|k keys IH]; intro R; cbn [parse_all].
  - exists []. repeat split. constructor.
  - destruct (R k (or_introl eq_refl)) as (item & entry & G & P & A). rewrite G, P.
    destruct IH as (entries & E & F & N); [intros k' I; apply R; now right|].
    rewrite E. cbn [bind]. exists ((strip_cache k, entry) :: entries).
    repeat split; [cbn [map fst]; now rewrite F | now constructor].
Qed.

Lemma starts_with_app (p s r : list ascii) : starts_with p s = Some r -> s = (p ++ r)%list.
Proof.
  revert s. induction p as [|a p IH]; intros s H; cbn [starts_with] in H.
  - now injection H as ->.
  - destruct s as [|b s]; [discriminate H|].
    destruct (Ascii.eqb a b) eqn:E; [|discriminate H].
    apply Ascii.eqb_eq in E. subst b. cbn [app]. f_equal. now apply IH.
Qed.

Lemma text_app (a b : list ascii) : text (a ++ b) = text a ++ text b.
Proof. induction a as [|c a IH]; [reflexivity|]. cbn. unfold text in IH. now rewrite IH. Qed.

Lemma cache_key_strip (k : string) :
  startsWith k "cache_" = true -> cache_key (strip_cache k) = k.
Proof.
  unfold startsWith, strip_cache, cache_key.
  destruct (starts_with (chars "cache_") (chars k)) as [r|] eqn:E; [|discriminate].
  intros _. apply starts_with_app in E.
  rewrite <- (text_chars k), E, text_app. reflexivity.
Qed.

Lemma cache_keys_removed (k : string) (st : Storage) :
  (List.length (cache_keys (removeItem k st)) <= List.length (cache_keys st))%nat
  /\ (In k (cache_keys st) ->
      (List.length (cache_keys (removeItem k st)) < List.length (cache_keys st))%nat).
Proof.
  unfold cache_keys, storage_keys, removeItem.
  induction st as [|[k0 v0] st [IH1 IH2]]; [cbn; split; [lia | intros []]|].
  cbn [assoc_remove]. destruct (String.eqb k k0) eqn:E.
  - apply String.eqb_eq in E. subst k0. cbn [map fst filter].
    destruct (startsWith k "cache_") eqn:S; cbn [List.length].
    + split; intros; lia.
    + split; [lia|]. intro I. apply filter_In in I. destruct I as [_ I]. congruence.
  - cbn [map fst filter]. destruct (startsWith k0 "cache_"); cbn [List.length In].
    + split; [lia|]. intros [I | I]; [subst; rewrite String.eqb_refl in E; discriminate|].
      apply IH2 in I. lia.
    + split; [exact IH1 | exact IH2].
Qed.

Lemma cache_keys_removals (l : list (string * jsval)) :
  forall st,
    (List.length (cache_keys (fold_left (fun s e => removeItem (cache_key (fst e)) s) l st))
     <= List.length (cache_keys st))%nat.
Proof.
  induction l as [|e l IH]; intro st; [apply Nat.le_refl|].
  cbn [fold_left]. etransitivity; [apply IH|]. apply cache_keys_removed.
Qed.

Lemma cache_keys_set (k v : string) (st : Storage) :
  (List.length (cache_keys (assoc_set k v st)) <= S (List.length (cache_keys st)))%nat.
Proof.
  unfold cache_keys, storage_keys.
  induction st as [|[k0 v0] st IH]; cbn [assoc_set].
  - cbn [map fst filter]. destruct (startsWith k "cache_"); cbn; lia.
  - destruct (String.eqb k k0) eqn:E.
    + apply String.eqb_eq in E. subst k0. cbn [map fst filter]. lia.
    + cbn [map fst filter]. destruct (startsWith k0 "cache_"); cbn [List.length]; lia.
Qed.

(** An eviction in a readable storage that holds a cache entry takes at
    least one away. *)
Lemma evictStorage_shrinks (st : Storage) :
  readable st -> cache_keys st <> [] ->
  (List.length (cache_keys (evictStorage st)) < List.length (cache_keys st))%nat.
Proof.
  intros [N R] Hne. unfold evictStorage.
  destruct (parse_all_returns st (cache_keys st) R) as (entries & E & F & A).
  rewrite E. cbn [bind].
  destruct (sort_by_returns by_lastAccess entries) as [sorted Hs].
  { intros x y Ix Iy. rewrite Forall_forall in A. apply by_lastAccess_returns; now apply A. }
  rewrite Hs. pose proof (sort_by_permutation _ _ _ Hs) as P.
  assert (Len : List.length sorted = List.length (cache_keys st)).
  { rewrite (Permutation.Permutation_length P), <- (length_map fst), F. apply length_map. }
  destruct sorted as [|e sorted].
  { destruct (cache_keys st); [congruence | discriminate Len]. }
  assert (T : exists n, ((List.length (e :: sorted) + 3) / 4 = S n)%nat).
  { cbn [List.length]. destruct ((S (List.length sorted) + 3) / 4)%nat eqn:D; [|now eexists].
    apply Nat.div_small_iff in D; lia. }
  destruct T as [n ->]. cbn [firstn fold_left].
  eapply Nat.le_lt_trans; [apply cache_keys_removals|].
  apply cache_keys_removed.
  assert (I : In (fst e) (map strip_cache (cache_keys st))).
  { rewrite <- F. apply in_map. apply (Permutation.Permutation_in _ P). now left. }
  apply in_map_iff in I. destruct I as (k & Ek & Ik). rewrite <- Ek.
  rewrite cache_key_strip; [exact Ik|]. now apply cache_keys_prefixed in Ik.
Qed.

Lemma assoc_keyed {A} (l : list (string * A)) (k : string) :
  In k (map fst l) -> exists v, assoc k l = Some v.
Proof.
  induction l as [|[k0 v0] l IH]; [intros []|]. cbn [map fst In assoc].
  destruct (String.eqb k k0) eqn:E; [now eexists|].
  intros [I | I]; [subst; rewrite String.eqb_refl in E; discriminate | now apply IH].
Qed.

Lemma readable_removeItem (k : string) (st : Storage) :
  readable st -> readable (removeItem k st).
Proof.
  intros [N R]. split; [now apply NoDup_assoc_remove|].
  intros k' I. apply cache_keys_prefixed in I. destruct I as [P I].
  unfold storage_keys, removeItem in I.
  assert (D : k' <> k).
  { intro E. subst k'. apply assoc_keyed in I. destruct I as [v I].
    rewrite (assoc_remove_same st k N) in I. discriminate I. }
  destruct (R k') as (item & entry & G & Q & A).
  { unfold cache_keys. apply filter_In. split; [|exact P]. now apply assoc_remove_keys in I. }
  exists item, entry. repeat split; try assumption.
  unfold getItem, removeItem. now rewrite assoc_remove_other.
Qed.

Lemma readable_evictStorage (st : Storage) : readable st -> readable (evictStorage st).
Proof.
  intro R. unfold evictStorage.
  destruct (bind (parse_all st (cache_keys st)) (sort_by by_lastAccess)) as [entries|];
    [|exact R].
  generalize (firstn ((List.length entries + 3) / 4) entries). intro l. revert st R.
  induction l as [|e l IH]; intros st R; [exact R|].
  cbn [fold_left]. apply IH. now apply readable_removeItem.
Qed.

Lemma assoc_set_keys {A} (l : list (string * A)) (k k' : string) (v : A) :
  In k' (map fst (assoc_set k v l)) -> k' = k \/ In k' (map fst l).
Proof.
  induction l as [|[k0 v0] l IH]; cbn [assoc_set].
  - cbn. intuition.
  - destruct (String.eqb k k0) eqn:E; cbn [map fst In].
    + apply String.eqb_eq in E. subst k0. intuition.
    + intuition.
Qed.

Lemma NoDup_assoc_set {A} (l : list (string * A)) (k : string) (v : A) :
  NoDup (map fst l) -> NoDup (map fst (assoc_set k v l)).
Proof.
  induction l as [|[k0 v0] l IH]; intro N; cbn [assoc_set].
  - cbn. constructor; [intros [] | constructor].
  - cbn [map fst] in N. inversion N as [|? ? N1 N2]; subst.
    destruct (String.eqb k k0) eqn:E.
    + apply String.eqb_eq in E. subst k0. cbn [map fst]. now constructor.
    + cbn [map fst]. constructor; [|now apply IH].
      intro I. apply assoc_set_keys in I. destruct I as [I | I]; [|contradiction].
      subst k0. rewrite String.eqb_refl in E. discriminate E.
Qed.

Lemma readable_written (key : string) (e : CacheEntry) (st : Storage) :
  readable st -> readable (assoc_set (cache_key key) (entry_text e) st).
Proof.
  intros [N R]. split; [now apply NoDup_assoc_set|].
  intros k I. apply cache_keys_prefixed in I. destruct I as [P I].
  destruct (string_dec k (cache_key key)) as [-> | D].
  - exists (entry_text e), (parsed_entry e). unfold getItem.
    rewrite assoc_set_same, parse_entry_text. repeat split.
    apply parsed_entry_well_formed.
  - apply assoc_set_keys in I. destruct I as [I | I]; [contradiction|].
    destruct (R k) as (item & entry & G & Q & A).
    { unfold cache_keys. apply filter_In. now split. }
    exists item, entry. repeat split; try assumption.
    unfold getItem. now rewrite assoc_set_other.
Qed.

(** An eviction never adds a cache entry. *)
Lemma evictStorage_no_more (st : Storage) :
  (List.length (cache_keys (evictStorage st)) <= List.length (cache_keys st))%nat.
Proof.
  unfold evictStorage.
  destruct (bind (parse_all st (cache_keys st)) (sort_by by_lastAccess)) as [entries|];
    [apply cache_keys_removals | apply Nat.le_refl].
Qed.

(** The step shared by [setLocalStorageCache] and
    [setSessionStorageCache], whether the browser lets the entry in or
    not. *)
Lemma written_within_capacity (key : string) (e : CacheEntry) (cap : nat) (st : Storage)
  (written : bool) :
  readable st -> (List.length (cache_keys st) <= cap)%nat -> (0 < cap)%nat ->
  let st1 := if (cap <=? List.length (cache_keys st))%nat then evictStorage st else st in
  let st2 := if written then assoc_set (cache_key key) (entry_text e) st1 else st1 in
  readable st2 /\ (List.length (cache_keys st2) <= cap)%nat.
Proof.
  intros R L C st1 st2.
  assert (R1 : readable st1).
  { subst st1. destruct (cap <=? List.length (cache_keys st))%nat;
      [now apply readable_evictStorage | exact R]. }
  assert (L1 : (List.length (cache_keys st1) <= cap)%nat
               /\ (written = true ->
                   (List.length (cache_keys st1) < cap)%nat)).
  { subst st1. destruct (cap <=? List.length (cache_keys st))%nat eqn:F.
    - apply Nat.leb_le in F.
      assert (Hne : cache_keys st <> []) by (destruct (cache_keys st); [cbn in F; lia | discriminate]).
      pose proof (evictStorage_shrinks st R Hne). lia.
    - apply Nat.leb_gt in F. lia. }
  subst st2. destruct written.
  - split; [now apply readable_written|].
    eapply Nat.le_trans; [apply cache_keys_set|]. destruct L1 as [_ L1]. specialize (L1 eq_refl). lia.
  - split; [exact R1 | apply L1].
Qed.

(** X9.  The two storage tiers stay within their capacity.  A storage
    that holds no key twice, under every cache key an entry whose
    [timestamp], [ttl] and [lastAccess] can be made numbers, and no more
    cache entries than its tier allows (50 for [localStorage], 25 for
    [sessionStorage]) is so again after any [set], whatever tier that
    [set] writes to, and whether the browser accepts the write or not. *)
Theorem storage_tiers_within_capacity
  (tier : Strategy) (key : string) (v : jsval) (options : SetOptions) (now : Z) (w : World) :
  tier = SLocalStorage \/ tier = SSessionStorage ->
  within_capacity tier w ->
  within_capacity tier (run (set key v options now w) w).
Proof.
  intros T I.
  assert (Hm : forall e, within_capacity tier (setMemoryCache key e now w)).
  { intro e. destruct (setMemoryCache_storages key e now w) as (S1 & S2 & _).
    unfold within_capacity. destruct T as [-> | ->]; cbn [storage_of]; now rewrite ?S1, ?S2. }
  assert (Hl : forall e, within_capacity tier (setLocalStorageCache key e w)).
  { intro e. rewrite setLocalStorageCache_page. unfold within_capacity.
    destruct T as [-> | ->]; cbn [storage_of localStorage sessionStorage with_localStorage];
      [|exact I].
    destruct I as [R L]. cbn [storage_of] in R, L.
    exact (written_within_capacity key e localStorage_maxSize (localStorage w)
             (accepted SLocalStorage key e w) R L ltac:(cbv; lia)). }
  assert (Hs : forall e, within_capacity tier (setSessionStorageCache key e w)).
  { intro e. rewrite setSessionStorageCache_page. unfold within_capacity.
    destruct T as [-> | ->]; cbn [storage_of localStorage sessionStorage with_sessionStorage];
      [exact I|].
    destruct I as [R L]. cbn [storage_of] in R, L.
    exact (written_within_capacity key e sessionStorage_maxSize (sessionStorage w)
             (accepted SSessionStorage key e w) R L ltac:(cbv; lia)). }
  unfold set. destruct (match opt_strategy options with Some s => s | None => SAuto end);
    cbn [run]; try apply Hm; try apply Hl; try apply Hs; try exact I.
  unfold setAutoCache. destruct (dataSize _) as [size|]; cbn [read bind run]; [|exact I].
  destruct (size <? 1024); [apply Hm|]. destruct (size <? 10240); [apply Hs | apply Hl].
Qed.

Lemma storage_tiers_within_capacity_witness :
  within_capacity SSessionStorage
    (run (set "k2" (VStr "w") session_options 2000 page_session_k) page_session_k).
Proof.
  apply (storage_tiers_within_capacity SSessionStorage "k2" (VStr "w") session_options 2000
           page_session_k).
  - now right.
  - split.
    + split.
      * vm_compute (storage_keys (storage_of SSessionStorage page_session_k)).
        constructor; [intros [] | constructor].
      * intros k I. vm_compute in I. destruct I as [<- | []].
        eexists _, _. split; [vm_compute; reflexivity|].
      split; [vm_compute; reflexivity | reflexivity].
    + vm_compute. lia.
Defined.

(** ** Mutations of a store that go through *)

Lemma commit_steps (storeName : string) (store : Store) (d record : jsval) (now : Z) (w : World) :
  assoc storeName (dataStores w) = Some store ->
  bindM (set_store_data storeName d) (fun _ =>
  bindM (updateIndexes storeName record) (fun _ =>
  bindM (cache_the_data storeName now) (fun _ => ret record))) w
  = (Return record, committed storeName store d now w).
Proof.
  intro A. unfold bindM, set_store_data, updateIndexes, cache_the_data, change, ret, committed.
  rewrite A. cbn [cacheManager with_dataStores dataStores].
  destruct (cacheManager w); [|reflexivity].
  rewrite assoc_set_same. reflexivity.
Qed.

Lemma validateData_shape (storeName : string) (data : jsval) (w : World) (val : Validation) :
  validateData storeName data w = Return val -> valid val = true ->
  val = {| valid := true; errors := [] |}.
Proof.
  unfold validateData. destruct (assoc storeName (dataStores w)) as [store|].
  - destruct (foldM (validate_field data) (schema store) []) as [errs|]; [|discriminate].
    cbn [bind].
    destruct (match assoc storeName (validationRules w) with
              | Some businessRules => foldM (apply_rule data) businessRules errs
              | None => Return errs
              end) as [errs'|]; [|discriminate].
    cbn [bind]. intros [= <-]. cbn [valid]. destruct errs'; [reflexivity | discriminate].
  - intros [= <-]. discriminate.
Qed.

Lemma addData_returns (storeName : string) (data : jsval) (now : Z) (fresh : string)
  (w : World) (record : jsval) :
  fst (addData storeName data now fresh w) = Return record ->
  exists store items,
    assoc storeName (dataStores w) = Some store
    /\ stored store = VArr items
    /\ is_absent data = false
    /\ record = enrich data now fresh
    /\ validateData storeName record w = Return {| valid := true; errors := [] |}
    /\ findIndex_id items (member record "id") 0 = Return None
    /\ snd (addData storeName data now fresh w)
       = committed storeName store (VArr (items ++ [record])) now w.
Proof.
  intro H. destruct (addData storeName data now fresh w) as [o w'] eqn:E.
  cbn [fst snd] in *. subst o. revert E.
  unfold addData. unfold bindM at 1. unfold find_store.
  destruct (assoc storeName (dataStores w)) as [store|] eqn:A; [|discriminate].
  unfold bindM at 1. unfold inspect at 1.
  destruct (get_prop data "id") as [gid|] eqn:G; [|discriminate]. cbn [read].
  assert (P : is_absent data = false) by (destruct data; try reflexivity; discriminate G).
  assert (M : gid = member data "id") by (unfold member; now rewrite G).
  subst gid. fold (enrich data now fresh). set (r := enrich data now fresh).
  unfold bindM at 1. unfold inspect at 1.
  destruct (validateData storeName r w) as [val|] eqn:V; [|discriminate].
  destruct (valid val) eqn:Ok; cbn [negb]; [|discriminate].
  rewrite (validateData_shape _ _ _ _ V Ok) in V.
  unfold bindM at 1. unfold inspect at 1.
  destruct (stored store) as [ | | | | | | items | ] eqn:D; try discriminate. cbn [as_array].
  unfold bindM at 1. unfold inspect at 1.
  destruct (findIndex_id items (member r "id") 0) as [[i|]|] eqn:F; try discriminate.
  { unfold bindM, inspect, throw. destruct (ToString (member r "id")); discriminate. }
  rewrite (commit_steps storeName store _ r now w A).
  intros [= <- <-]. exists store, items. repeat split; try assumption; reflexivity.
Qed.

Lemma updateData_returns (storeName : string) (id updates : jsval) (now : Z)
  (w : World) (record : jsval) :
  fst (updateData storeName id updates now w) = Return record ->
  exists store items index,
    assoc storeName (dataStores w) = Some store
    /\ data store = VArr items
    /\ findIndex_id items id 0 = Return (Some index)
    /\ record = merge (nth index items VUndef) updates now
    /\ validateData storeName record w = Return {| valid := true; errors := [] |}
    /\ snd (updateData storeName id updates now w)
       = committed storeName store (VArr (replace_nth index record items)) now w.
Proof.
  intro H. destruct (updateData storeName id updates now w) as [o w'] eqn:E.
  cbn [fst snd] in *. subst o. revert E.
  unfold updateData. unfold bindM at 1. unfold find_store.
  destruct (assoc storeName (dataStores w)) as [store|] eqn:A; [|discriminate].
  unfold bindM at 1. unfold inspect at 1.
  destruct (data store) as [ | | | | | | items | ] eqn:D; try discriminate. cbn [as_array].
  unfold bindM at 1. unfold inspect at 1.
  destruct (findIndex_id items id 0) as [[index|]|] eqn:F; try discriminate.
  2:{ unfold bindM, inspect, throw. destruct (ToString id); discriminate. }
  fold (merge (nth index items VUndef) updates now).
  set (r := merge (nth index items VUndef) updates now).
  unfold bindM at 1. unfold inspect at 1.
  destruct (validateData storeName r w) as [val|] eqn:V; [|discriminate].
  destruct (valid val) eqn:Ok; cbn [negb]; [|discriminate].
  rewrite (validateData_shape _ _ _ _ V Ok) in V.
  rewrite (commit_steps storeName store _ r now w A).
  intros [= <- <-]. exists store, items, index. repeat split; try assumption; reflexivity.
Qed.

Lemma deleteData_returns (storeName : string) (id : jsval) (now : Z) (w : World) (record : jsval) :
  fst (deleteData storeName id now w) = Return record ->
  exists store items index,
    assoc storeName (dataStores w) = Some store
    /\ data store = VArr items
    /\ findIndex_id items id 0 = Return (Some index)
    /\ record = nth index items VUndef
    /\ snd (deleteData storeName id now w)
       = committed storeName store (VArr (remove_nth index items)) now w.
Proof.
  intro H. destruct (deleteData storeName id now w) as [o w'] eqn:E.
  cbn [fst snd] in *. subst o. revert E.
  unfold deleteData. unfold bindM at 1. unfold find_store.
  destruct (assoc storeName (dataStores w)) as [store|] eqn:A; [|discriminate].
  unfold bindM at 1. unfold inspect at 1.
  destruct (data store) as [ | | | | | | items | ] eqn:D; try discriminate. cbn [as_array].
  unfold bindM at 1. unfold inspect at 1.
  destruct (findIndex_id items id 0) as [[index|]|] eqn:F; try discriminate.
  2:{ unfold bindM, inspect, throw. destruct (ToString id); discriminate. }
  rewrite (commit_steps storeName store _ _ now w A).
  intros [= <- <-]. exists store, items, index. repeat split; try assumption; reflexivity.
Qed.

(** *** [findIndex] *)

Lemma findIndex_id_missing (items : list jsval) (id : jsval) :
  forall i,
    findIndex_id items id i = Return None <->
    Forall (fun item => is_absent item = false /\ strict_eq (member item "id") id = false) items.
Proof.
  induction items as [|item items IH]; intro i; cbn [findIndex_id].
  - split; [constructor | reflexivity].
  - destruct (is_absent item) eqn:P.
    + assert (G : get_prop item "id" = None) by (destruct item; try discriminate P; reflexivity).
      rewrite G. cbn [read bind]. split; [discriminate|].
      intro F. inversion F as [|? ? [Q _] _]; subst. congruence.
    + rewrite (get_prop_present item "id" P). cbn [read bind].
      destruct (strict_eq (member item "id") id) eqn:Hs.
      * split; [discriminate|]. intro F. inversion F as [|? ? [_ Q] _]; subst. congruence.
      * rewrite IH. split.
        -- intro F. constructor; [now split | exact F].
        -- intro F. now inversion F.
Qed.

Lemma findIndex_id_found (items : list jsval) (id : jsval) :
  forall i j,
    findIndex_id items id i = Return (Some j) ->
    exists k,
      j = (i + k)%nat /\ (k < List.length items)%nat
      /\ is_absent (nth k items VUndef) = false
      /\ strict_eq (member (nth k items VUndef) "id") id = true
      /\ Forall (fun item => is_absent item = false /\ strict_eq (member item "id") id = false)
           (firstn k items).
Proof.
  induction items as [|item items IH]; intros i j; cbn [findIndex_id]; [discriminate|].
  destruct (is_absent item) eqn:P.
  - assert (G : get_prop item "id" = None) by (destruct item; try discriminate P; reflexivity).
    rewrite G. discriminate.
  - rewrite (get_prop_present item "id" P). cbn [read bind].
    destruct (strict_eq (member item "id") id) eqn:Hs.
    + intros [= <-]. exists 0%nat. cbn [nth firstn List.length].
      repeat split; try assumption; try lia. constructor.
    + intro F. destruct (IH _ _ F) as (k & -> & L & A & Q & B).
      exists (S k). cbn [nth firstn List.length].
      repeat split; try assumption; try lia. constructor; [now split | exact B].
Qed.

(** *** The page after a mutation *)

Lemma setMemoryCache_rest (key : string) (e : CacheEntry) (now : Z) (w : World) :
  validationRules (setMemoryCache key e now w) = validationRules w
  /\ cacheManager (setMemoryCache key e now w) = cacheManager w.
Proof.
  unfold setMemoryCache, evictMemoryCache.
  destruct (memory_maxSize <=? List.length (memoryCache w))%nat; [|repeat split].
  destruct (fst (oldest now (memoryCache w))) as [k|]; [|repeat split].
  destruct (String.eqb k EmptyString); repeat split.
Qed.

Lemma committed_stores (storeName : string) (store : Store) (d : jsval) (now : Z) (w : World) :
  dataStores (committed storeName store d now w)
  = assoc_set storeName (with_data store d) (dataStores w).
Proof.
  unfold committed. destruct (cacheManager w); [|reflexivity].
  now destruct (setMemoryCache_storages (storeName ++ "-data") (data_entry d now) now
                  (with_dataStores w (assoc_set storeName (with_data store d) (dataStores w))))
    as (_ & _ & ->).
Qed.

Lemma committed_records (storeName : string) (store : Store) (d : jsval) (now : Z) (w : World) :
  records storeName (committed storeName store d now w) = Some d.
Proof. unfold records. now rewrite committed_stores, assoc_set_same. Qed.

Lemma committed_frame (storeName : string) (store : Store) (d : jsval) (now : Z) (w : World) :
  localStorage (committed storeName store d now w) = localStorage w
  /\ sessionStorage (committed storeName store d now w) = sessionStorage w
  /\ validationRules (committed storeName store d now w) = validationRules w
  /\ cacheManager (committed storeName store d now w) = cacheManager w.
Proof.
  unfold committed. destruct (cacheManager w) eqn:C; [|repeat split; now rewrite ?C].
  destruct (setMemoryCache_storages (storeName ++ "-data") (data_entry d now) now
              (with_dataStores w (assoc_set storeName (with_data store d) (dataStores w))))
    as (-> & -> & _).
  destruct (setMemoryCache_rest (storeName ++ "-data") (data_entry d now) now
              (with_dataStores w (assoc_set storeName (with_data store d) (dataStores w))))
    as (-> & ->).
  repeat split. exact C.
Qed.

Lemma committed_cache (storeName : string) (store : Store) (d : jsval) (now : Z) (w : World) :
  if cacheManager w
  then getMemoryCache (storeName ++ "-data") (committed storeName store d now w)
       = Some (data_entry d now)
  else memoryCache (committed storeName store d now w) = memoryCache w.
Proof.
  unfold committed. destruct (cacheManager w); [|reflexivity].
  unfold getMemoryCache, setMemoryCache. cbn [memoryCache with_memoryCache].
  apply assoc_set_same.
Qed.

(** *** Spreads *)

Lemma assoc_app {A} (k : string) (l1 l2 : list (string * A)) :
  assoc k (l1 ++ l2) = match assoc k l1 with Some v => Some v | None => assoc k l2 end.
Proof.
  induction l1 as [|[k0 v0] l1 IH]; [reflexivity|]. cbn [app assoc].
  destruct (String.eqb k k0); [reflexivity | exact IH].
Qed.

Lemma assoc_assign (k : string) (extra : list (string * jsval)) :
  forall base,
    assoc k (assign base extra)
    = match assoc k (rev extra) with Some v => Some v | None => assoc k base end.
Proof.
  unfold assign. induction extra as [|[k0 v0] extra IH]; intro base; [reflexivity|].
  cbn [fold_left fst snd rev]. rewrite IH, assoc_app. cbn [assoc].
  destruct (assoc k (rev extra)); [reflexivity|].
  destruct (String.eqb k k0) eqn:E.
  - apply String.eqb_eq in E. subst k0. apply assoc_set_same.
  - apply String.eqb_neq in E. now apply assoc_set_other.
Qed.

Lemma member_object (l : list (string * jsval)) (k : string) :
  member (VObj l) k = match assoc k l with Some x => x | None => VUndef end.
Proof. reflexivity. Qed.

Lemma enrich_members (data : jsval) (now : Z) (fresh : string) :
  member (enrich data now fresh) "id"
    = (if truthy (member data "id") then member data "id" else VStr fresh)
  /\ member (enrich data now fresh) "createdAt" = VDate now
  /\ member (enrich data now fresh) "updatedAt" = VDate now
  /\ forall k, k <> "id" -> k <> "createdAt" -> k <> "updatedAt" ->
       member (enrich data now fresh) k = own data k.
Proof.
  unfold enrich. rewrite !member_object, !assoc_assign. repeat split.
  intros k N1 N2 N3. rewrite member_object, assoc_assign. cbn [rev app assoc].
  apply String.eqb_neq in N1, N2, N3. now rewrite N1, N2, N3.
Qed.

Lemma merge_members (old updates : jsval) (now : Z) :
  member (merge old updates now) "updatedAt" = VDate now
  /\ forall k, k <> "updatedAt" ->
       member (merge old updates now) k
       = match assoc k (rev (own_props updates)) with
         | Some v => v
         | None => own old k
         end.
Proof.
  unfold merge. split; [now rewrite member_object, assoc_assign|].
  intros k N. rewrite member_object, !assoc_assign. cbn [rev app assoc].
  apply String.eqb_neq in N. rewrite N.
  now destruct (assoc k (rev (own_props updates))).
Qed.

(** *** Lists *)

Lemma replace_nth_length {A} (i : nat) (x : A) (l : list A) :
  List.length (replace_nth i x l) = List.length l.
Proof.
  revert i. induction l as [|y l IH]; intros [|i]; cbn; try reflexivity. now rewrite IH.
Qed.

Lemma replace_nth_nth {A} (i j : nat) (x d : A) (l : list A) :
  (i < List.length l)%nat ->
  nth j (replace_nth i x l) d = if (j =? i)%nat then x else nth j l d.
Proof.
  revert i j. induction l as [|y l IH]; intros i j L; [cbn in L; lia|].
  destruct i as [|i]; destruct j as [|j]; cbn [replace_nth nth Nat.eqb]; try reflexivity.
  apply IH. cbn in L. lia.
Qed.

Lemma remove_nth_split {A} (i : nat) (l : list A) :
  remove_nth i l = (firstn i l ++ skipn (S i) l)%list.
Proof.
  revert i. induction l as [|y l IH]; intros [|i]; cbn [remove_nth firstn skipn app];
    try reflexivity. now rewrite IH.
Qed.

Lemma first_match (items : list jsval) (id : jsval) (index : nat) :
  findIndex_id items id 0 = Return (Some index) ->
  (index < List.length items)%nat
  /\ is_absent (nth index items VUndef) = false
  /\ strict_eq (member (nth index items VUndef) "id") id = true
  /\ Forall (fun item => is_absent item = false /\ strict_eq (member item "id") id = false)
       (firstn index items).
Proof.
  intro F. destruct (findIndex_id_found items id 0 index F) as (k & E & L & A & Q & B).
  cbn in E. subst k. repeat split; assumption.
Qed.

(** X10.  [addData], when it returns: the record it returns is the
    input with its id (the one given, or else the one drawn) and the two
    time stamps; it has passed [validateData]; no record of the store
    carried its id; and the store holds the records it held, in their
    order, with the new record after them. *)
Theorem addData_postcondition
  (storeName : string) (data : jsval) (now : Z) (fresh : string) (w : World) (record : jsval) :
  fst (addData storeName data now fresh w) = Return record ->
  exists items,
    records storeName w = Some (VArr items)
    /\ records storeName (after (addData storeName data now fresh w))
       = Some (VArr (items ++ [record]))
    /\ Forall (fun item => strict_eq (member item "id") (member record "id") = false) items
    /\ validateData storeName record w = Return {| valid := true; errors := [] |}
    /\ member record "id"
       = (if truthy (member data "id") then member data "id" else VStr fresh)
    /\ member record "createdAt" = VDate now
    /\ member record "updatedAt" = VDate now
    /\ forall k, k <> "id" -> k <> "createdAt" -> k <> "updatedAt" ->
         member record k = own data k.
Proof.
  intro H. destruct (addData_returns _ _ _ _ _ _ H) as (store & items & A & D & P & E & V & F & W).
  exists items. unfold after. rewrite W, committed_records. subst record.
  destruct (enrich_members data now fresh) as (M1 & M2 & M3 & M4).
  repeat split; try assumption.
  - unfold records. rewrite A. cbn [option_map]. now f_equal.
  - apply findIndex_id_missing in F. eapply Forall_impl; [|exact F]. cbn beta. tauto.
Qed.

Lemma addData_postcondition_witness :
  exists items,
    records "dsr" initial_world = Some (VArr items)
    /\ records "dsr" page_one_dsr = Some (VArr (items ++ dsr_items_one)).
Proof.
  destruct (addData_postcondition "dsr" (dsr_input VUndef 100 110) 1000 "abc123" initial_world
              (hd VUndef dsr_items_one) eq_refl) as (items & R & R' & _).
  exists items. split; [exact R | exact R'].
Defined.

(** X11.  [updateData], when it returns: the record changed is the
    first one whose id is [id]; the record returned takes its place and
    every other record stays where it was; it has passed [validateData];
    its [updatedAt] is the time of the call, a field that [updates] names
    has the value given there, and every other field is the one of the
    record before. *)
Theorem updateData_postcondition
  (storeName : string) (id updates : jsval) (now : Z) (w : World) (record : jsval) :
  fst (updateData storeName id updates now w) = Return record ->
  exists items items' index,
    records storeName w = Some (VArr items)
    /\ records storeName (after (updateData storeName id updates now w)) = Some (VArr items')
    /\ (index < List.length items)%nat
    /\ strict_eq (member (nth index items VUndef) "id") id = true
    /\ (forall j, (j < index)%nat -> strict_eq (member (nth j items VUndef) "id") id = false)
    /\ List.length items' = List.length items
    /\ (forall j, nth j items' VUndef = if (j =? index)%nat then record else nth j items VUndef)
    /\ validateData storeName record w = Return {| valid := true; errors := [] |}
    /\ member record "updatedAt" = VDate now
    /\ forall k, k <> "updatedAt" ->
         member record k
         = match assoc k (rev (own_props updates)) with
           | Some v => v
           | None => own (nth index items VUndef) k
           end.
Proof.
  intro H.
  destruct (updateData_returns _ _ _ _ _ _ H) as (store & items & index & A & D & F & E & V & W).
  destruct (first_match items id index F) as (L & P & Q & B).
  exists items, (replace_nth index record items), index.
  unfold after. rewrite W, committed_records.
  destruct (merge_members (nth index items VUndef) updates now) as (M1 & M2).
  rewrite <- E in M1, M2.
  repeat split; try assumption.
  - unfold records. rewrite A. cbn [option_map]. now f_equal.
  - intros j Lj. rewrite Forall_forall in B.
    apply (B (nth j items VUndef)).
    rewrite <- (firstn_skipn index items) at 1.
    rewrite app_nth1 by (rewrite length_firstn; lia).
    apply nth_In. rewrite length_firstn. lia.
  - apply replace_nth_length.
  - intro j. now apply replace_nth_nth.
Qed.

Lemma updateData_postcondition_witness :
  exists items items' index,
    records "dsr" page_one_dsr = Some (VArr items)
    /\ records "dsr" (after (updateData "dsr" (VStr "abc123")
                               (VObj [("thisMonthActual", VInt 120)]) 2000 page_one_dsr))
       = Some (VArr items')
    /\ (index < List.length items)%nat.
Proof.
  destruct (updateData_postcondition "dsr" (VStr "abc123") (VObj [("thisMonthActual", VInt 120)])
              2000 page_one_dsr
              (merge (hd VUndef dsr_items_one) (VObj [("thisMonthActual", VInt 120)]) 2000)
              eq_refl) as (items & items' & index & R & R' & L & _).
  exists items, items', index. repeat split; assumption.
Defined.

(** X12.  [deleteData], when it returns: the record returned is the
    first one whose id is [id], and the store holds the records before it
    and the records after it, in their order. *)
Theorem deleteData_postcondition
  (storeName : string) (id : jsval) (now : Z) (w : World) (record : jsval) :
  fst (deleteData storeName id now w) = Return record ->
  exists items index,
    records storeName w = Some (VArr items)
    /\ (index < List.length items)%nat
    /\ record = nth index items VUndef
    /\ strict_eq (member record "id") id = true
    /\ (forall j, (j < index)%nat -> strict_eq (member (nth j items VUndef) "id") id = false)
    /\ records storeName (after (deleteData storeName id now w))
       = Some (VArr (firstn index items ++ skipn (S index) items)).
Proof.
  intro H.
  destruct (deleteData_returns _ _ _ _ _ H) as (store & items & index & A & D & F & E & W).
  destruct (first_match items id index F) as (L & P & Q & B).
  exists items, index. unfold after. rewrite W, committed_records, remove_nth_split. subst record.
  repeat split; try assumption.
  - unfold records. rewrite A. cbn [option_map]. now f_equal.
  - intros j Lj. rewrite Forall_forall in B.
    apply (B (nth j items VUndef)).
    rewrite <- (firstn_skipn index items) at 1.
    rewrite app_nth1 by (rewrite length_firstn; lia).
    apply nth_In. rewrite length_firstn. lia.
Qed.

Lemma deleteData_postcondition_witness :
  exists items index,
    records "dsr" page_one_dsr = Some (VArr items)
    /\ (index < List.length items)%nat
    /\ records "dsr" (after (deleteData "dsr" (VStr "abc123") 2000 page_one_dsr))
       = Some (VArr (firstn index items ++ skipn (S index) items)).
Proof.
  destruct (deleteData_postcondition "dsr" (VStr "abc123") 2000 page_one_dsr
              (hd VUndef dsr_items_one) eq_refl) as (items & index & R & L & _ & _ & _ & R').
  exists items, index. repeat split; assumption.
Defined.

(** *** What the three mutations share *)

Lemma mutate_returns (storeName : string) (m : Mutation) (now : Z) (w : World) (record : jsval) :
  fst (mutate storeName m now w) = Return record ->
  exists store items items',
    assoc storeName (dataStores w) = Some store
    /\ data store = VArr items
    /\ snd (mutate storeName m now w) = committed storeName store (VArr items') now w
    /\ match m with
       | Add _ _ =>
           items' = (items ++ [record])%list
           /\ is_object record = true
           /\ findIndex_id items (member record "id") 0 = Return None
       | Update id updates =>
           exists index,
             findIndex_id items id 0 = Return (Some index)
             /\ record = merge (nth index items VUndef) updates now
             /\ items' = replace_nth index record items
       | Delete id =>
           exists index,
             findIndex_id items id 0 = Return (Some index)
             /\ items' = remove_nth index items
       end.
Proof.
  destruct m as [data fresh | id updates | id]; cbn [mutate]; intro H.
  - destruct (addData_returns _ _ _ _ _ _ H) as (store & items & A & D & P & E & V & F & W).
    exists store, items, (items ++ [record])%list. repeat split; try assumption.
    now subst record.
  - destruct (updateData_returns _ _ _ _ _ _ H) as (store & items & index & A & D & F & E & V & W).
    exists store, items, (replace_nth index record items). repeat split; try assumption.
    exists index. repeat split; assumption.
  - destruct (deleteData_returns _ _ _ _ _ H) as (store & items & index & A & D & F & E & W).
    exists store, items, (remove_nth index items). repeat split; try assumption.
    exists index. repeat split; assumption.
Qed.

Lemma mutate_rolls_back (storeName : string) (m : Mutation) (now : Z) :
  rolls_back (mutate storeName m now).
Proof.
  destruct m; cbn [mutate];
    [apply addData_rolls_back | apply updateData_rolls_back | apply deleteData_rolls_back].
Qed.

Lemma data_text_array (items : list jsval) : serialize (VArr items) = Some (data_text (VArr items)).
Proof. reflexivity. Qed.

(** X13.  Every mutation that goes through leaves, when the cache
    manager is loaded, a fresh copy of the list of the store in the
    memory tier under "<store>-data": written at the time of the call,
    with a TTL of five minutes, and read back by [get] during that time
    as the list that [JSON.parse] makes of the text of the new list.
    Without the cache manager the memory tier is left alone. *)
Theorem mutations_refresh_the_cache
  (storeName : string) (m : Mutation) (now : Z) (w : World) (record : jsval) :
  fst (mutate storeName m now w) = Return record ->
  exists items,
    records storeName (after (mutate storeName m now w)) = Some (VArr items)
    /\ if cacheManager w
       then getMemoryCache (storeName ++ "-data") (after (mutate storeName m now w))
            = Some {| value := Some (data_text (VArr items)); timestamp := now;
                      ttl := 5 * 60 * 1000; priority := "normal";
                      accessCount := 0; lastAccess := now |}
            /\ forall now', now' - now < 5 * 60 * 1000 ->
                 fst (get (storeName ++ "-data") SMemory now' (after (mutate storeName m now w)))
                 = Return (deserialize (VStr (data_text (VArr items))))
       else memoryCache (after (mutate storeName m now w)) = memoryCache w.
Proof.
  intro H. destruct (mutate_returns _ _ _ _ _ H) as (store & items & items' & A & D & W & _).
  exists items'. unfold after. rewrite W, committed_records. split; [reflexivity|].
  pose proof (committed_cache storeName store (VArr items') now w) as C.
  destruct (cacheManager w); [|exact C].
  split; [exact C|]. intros now' L.
  rewrite (get_shared (storeName ++ "-data") SMemory now' _ (data_entry (VArr items') now)).
  - cbn [data_entry entry_of_set timestamp ttl].
    replace (now' - now <? lifetime SMemory (Some (5 * 60 * 1000))) with true; [reflexivity|].
    symmetry. apply Z.ltb_lt. exact L.
  - cbn [lookup]. unfold from_memory. now rewrite C.
Qed.

Lemma mutations_refresh_the_cache_witness :
  exists items,
    records "dsr" page_one_dsr = Some (VArr items)
    /\ getMemoryCache "dsr-data" page_one_dsr
       = Some {| value := Some (data_text (VArr items)); timestamp := 1000;
                 ttl := 5 * 60 * 1000; priority := "normal";
                 accessCount := 0; lastAccess := 1000 |}.
Proof.
  destruct (mutations_refresh_the_cache "dsr" (Add (dsr_input VUndef 100 110) "abc123") 1000
              initial_world (hd VUndef dsr_items_one) eq_refl) as (items & R & C & _).
  exists items. split; [exact R | exact C].
Defined.

(** X14.  A mutation changes the one store it names, and of that store
    the list of records only.  Whether it returns or raises, the other
    stores, the schema of its own store, the business rules and both
    storages are afterwards what they were: nothing is saved until
    [saveAllData] is called. *)
Theorem mutations_touch_one_store
  (storeName : string) (m : Mutation) (now : Z) (w : World) :
  localStorage (after (mutate storeName m now w)) = localStorage w
  /\ sessionStorage (after (mutate storeName m now w)) = sessionStorage w
  /\ validationRules (after (mutate storeName m now w)) = validationRules w
  /\ option_map schema (assoc storeName (dataStores (after (mutate storeName m now w))))
     = option_map schema (assoc storeName (dataStores w))
  /\ forall other, other <> storeName ->
       assoc other (dataStores (after (mutate storeName m now w)))
       = assoc other (dataStores w).
Proof.
  destruct (fst (mutate storeName m now w)) as [record | e] eqn:H.
  - destruct (mutate_returns _ _ _ _ _ H) as (store & items & items' & A & D & W & _).
    unfold after. rewrite W.
    destruct (committed_frame storeName store (VArr items') now w) as (-> & -> & -> & _).
    rewrite committed_stores. repeat split.
    + now rewrite assoc_set_same, A.
    + intros other N. now apply assoc_set_other.
  - unfold after. rewrite (mutate_rolls_back storeName m now w e H). repeat split.
Qed.

(** *** Ids *)

Lemma object_present (v : jsval) : is_object v = true -> is_absent v = false.
Proof. destruct v; try discriminate; reflexivity. Qed.

Lemma num_eqb_euclid (x y z : jsnum) :
  num_eqb x z = true -> num_eqb y z = true -> num_eqb x y = true.
Proof.
  destruct x as [a| | |], y as [b| | |], z as [c| | |]; cbn; try discriminate; try reflexivity.
  intros H1 H2. apply Qeq_bool_iff in H1, H2. apply Qeq_bool_iff.
  now rewrite H1, H2.
Qed.

Lemma strict_eq_euclid (x y z : jsval) :
  strict_eq x z = true -> strict_eq y z = true -> strict_eq x y = true.
Proof.
  destruct x, y, z; cbn; try discriminate; try reflexivity.
  - destruct b, b0, b1; cbn; try discriminate; reflexivity.
  - apply num_eqb_euclid.
  - intros H1 H2. apply String.eqb_eq in H1, H2. subst. apply String.eqb_refl.
Qed.

Lemma apart_append (items : list jsval) (x : jsval) :
  ForallOrdPairs apart items -> Forall (fun a => apart a x) items ->
  ForallOrdPairs apart (items ++ [x]).
Proof.
  induction 1 as [|a l Fa _ IH]; intro F; cbn [app].
  - constructor; constructor.
  - inversion F as [|? ? Ra Rl]; subst. constructor; [|now apply IH].
    apply Forall_app. split; [exact Fa | now constructor].
Qed.

Lemma remove_nth_Forall {A} (P : A -> Prop) (i : nat) (l : list A) :
  Forall P l -> Forall P (remove_nth i l).
Proof.
  revert i. induction l as [|y l IH]; intros i F; [destruct i; exact F|].
  inversion F; subst. destruct i; cbn [remove_nth]; [assumption|]. constructor; auto.
Qed.

Lemma apart_remove (i : nat) (items : list jsval) :
  ForallOrdPairs apart items -> ForallOrdPairs apart (remove_nth i items).
Proof.
  intro H. revert i. induction H as [|a l Fa Fl IH]; intro i; [destruct i; constructor|].
  destruct i; cbn [remove_nth]; [exact Fl|].
  constructor; [now apply remove_nth_Forall | apply IH].
Qed.

Lemma replace_nth_Forall {A} (P : A -> Prop) (i : nat) (x : A) (l : list A) :
  P x -> Forall P l -> Forall P (replace_nth i x l).
Proof.
  intro Px. revert i. induction l as [|y l IH]; intros i F; [destruct i; exact F|].
  inversion F; subst. destruct i; cbn [replace_nth]; constructor; auto.
Qed.

Lemma apart_replace (i : nat) (x : jsval) (items : list jsval) :
  member x "id" = member (nth i items VUndef) "id" ->
  ForallOrdPairs apart items -> ForallOrdPairs apart (replace_nth i x items).
Proof.
  intros E H. revert i E. induction H as [|a l Fa Fl IH]; intros i E; [destruct i; constructor|].
  destruct i; cbn [replace_nth nth] in *.
  - constructor; [|exact Fl]. eapply Forall_impl; [|exact Fa].
    intros b Hb. unfold apart in *. now rewrite E.
  - constructor; [|now apply IH].
    destruct (Nat.lt_ge_cases i (List.length l)) as [L | L].
    + apply replace_nth_Forall; [|exact Fa]. unfold apart. rewrite E.
      rewrite Forall_forall in Fa. apply Fa. now apply nth_In.
    + replace (replace_nth i x l) with l; [exact Fa|].
      clear -L. revert i L. induction l as [|y l IHl]; intros i L; [now destruct i|].
      destruct i; cbn in L; [lia|]. cbn [replace_nth]. f_equal. apply IHl. lia.
Qed.

Lemma apart_after (items : list jsval) (k : nat) :
  ForallOrdPairs apart items -> (k < List.length items)%nat ->
  Forall (apart (nth k items VUndef)) (skipn (S k) items).
Proof.
  intro H. revert k. induction H as [|a l Fa Fl IH]; intros k L; [cbn in L; lia|].
  destruct k; cbn [nth skipn]; [exact Fa|]. apply IH. cbn in L. lia.
Qed.

Lemma assoc_rev_absent {A} (k : string) (l : list (string * A)) :
  assoc k l = None -> assoc k (rev l) = None.
Proof.
  intro H. apply assoc_absent. intro I. rewrite map_rev in I. apply in_rev in I.
  apply assoc_keyed in I. destruct I as [v I]. congruence.
Qed.

Lemma merge_keeps_id (old updates : jsval) (now : Z) :
  is_object old = true -> assoc "id" (own_props updates) = None ->
  member (merge old updates now) "id" = member old "id".
Proof.
  intros O N. destruct (merge_members old updates now) as [_ M].
  rewrite (M "id") by discriminate. rewrite (assoc_rev_absent _ _ N).
  destruct old; try discriminate O. reflexivity.
Qed.

(** X15.  The three mutations keep the records of a store tidy: when
    every record is an object and no two records carry the same id, this
    is so again after a mutation that goes through, provided an update
    does not itself assign the id. *)
Theorem mutations_keep_records_tidy
  (storeName : string) (m : Mutation) (now : Z) (w : World) (items : list jsval)
  (record : jsval) :
  records storeName w = Some (VArr items) ->
  tidy items ->
  leaves_ids m ->
  fst (mutate storeName m now w) = Return record ->
  exists items',
    records storeName (after (mutate storeName m now w)) = Some (VArr items')
    /\ tidy items'.
Proof.
  intros R [O P] K H.
  destruct (mutate_returns _ _ _ _ _ H) as (store & items0 & items' & A & D & W & C).
  assert (items0 = items).
  { unfold records in R. rewrite A in R. cbn [option_map] in R. congruence. }
  subst items0. exists items'. unfold after. rewrite W, committed_records.
  split; [reflexivity|].
  destruct m as [data fresh | id updates | id]; cbn [leaves_ids] in K.
  - destruct C as (-> & Or & F). split.
    + apply Forall_app. split; [exact O | now constructor].
    + apply apart_append; [exact P|]. apply findIndex_id_missing in F.
      eapply Forall_impl; [|exact F]. cbn beta. unfold apart. tauto.
  - destruct C as (index & F & E & ->).
    destruct (first_match items id index F) as (L & _).
    split.
    + apply replace_nth_Forall; [now subst record | exact O].
    + apply apart_replace; [|exact P]. subst record. apply merge_keeps_id; [|exact K].
      rewrite Forall_forall in O. apply O. now apply nth_In.
  - destruct C as (index & F & ->). split;
      [now apply remove_nth_Forall | now apply apart_remove].
Qed.

Lemma mutations_keep_records_tidy_witness :
  exists items',
    records "dsr" (after (mutate "dsr" (Update (VStr "abc123") (VObj [("thisMonthActual", VInt 120)]))
                            2000 page_one_dsr)) = Some (VArr items')
    /\ tidy items'.
Proof.
  apply (mutations_keep_records_tidy "dsr"
           (Update (VStr "abc123") (VObj [("thisMonthActual", VInt 120)])) 2000 page_one_dsr
           dsr_items_one
           (merge (hd VUndef dsr_items_one) (VObj [("thisMonthActual", VInt 120)]) 2000)).
  - reflexivity.
  - split; repeat constructor.
  - reflexivity.
  - reflexivity.
Defined.

(** An id that a record carries is a primitive value, and has a text. *)
Lemma matched_id_has_text (x id : jsval) :
  strict_eq x id = true -> exists text, ToString id = Return text.
Proof.
  destruct x, id; try discriminate; intros _; try (now eexists).
  match goal with b : bool |- context [ToString (VBool ?c)] => destruct c end; now eexists.
Qed.

(** X16.  Once [deleteData] has returned, the id is gone from a tidy
    store: a second [deleteData] and an [updateData] with that id raise
    "Record with id ... not found", and leave the page as it is. *)
Theorem deleted_id_is_not_found
  (storeName : string) (id updates : jsval) (now now' : Z) (w : World) (items : list jsval)
  (record : jsval) :
  records storeName w = Some (VArr items) ->
  tidy items ->
  fst (deleteData storeName id now w) = Return record ->
  exists text,
    ToString id = Return text
    /\ deleteData storeName id now' (after (deleteData storeName id now w))
       = (Throw (Error ("Record with id " ++ text ++ " not found")),
          after (deleteData storeName id now w))
    /\ updateData storeName id updates now' (after (deleteData storeName id now w))
       = (Throw (Error ("Record with id " ++ text ++ " not found")),
          after (deleteData storeName id now w)).
Proof.
  intros R [O P] H.
  destruct (deleteData_returns _ _ _ _ _ H) as (store & items0 & index & A & D & F & E & W).
  assert (items0 = items).
  { unfold records in R. rewrite A in R. cbn [option_map] in R. congruence. }
  subst items0. destruct (first_match items id index F) as (L & Pr & Q & B).
  destruct (matched_id_has_text _ _ Q) as [text Ht]. exists text. split; [exact Ht|].
  assert (G : findIndex_id (remove_nth index items) id 0 = Return None).
  { apply findIndex_id_missing. rewrite remove_nth_split. apply Forall_app. split; [exact B|].
    pose proof (apart_after items index P L) as Af.
    assert (Os : Forall (fun item => is_object item = true) (skipn (S index) items)).
    { rewrite <- (firstn_skipn (S index) items) in O. apply Forall_app in O. tauto. }
    rewrite Forall_forall in *. intros item I. split; [apply object_present; now apply Os|].
    specialize (Af item I). unfold apart in Af.
    destruct (strict_eq (member item "id") id) eqn:S'; [|reflexivity].
    rewrite (strict_eq_euclid _ _ _ Q S') in Af. discriminate Af. }
  unfold after. rewrite W.
  set (w' := committed storeName store (VArr (remove_nth index items)) now w).
  assert (A' : assoc storeName (dataStores w')
               = Some (with_data store (VArr (remove_nth index items)))).
  { unfold w'. now rewrite committed_stores, assoc_set_same. }
  split.
  - unfold deleteData, bindM, find_store, inspect, throw. rewrite A'.
    cbn [data with_data as_array]. now rewrite G, Ht.
  - unfold updateData, bindM, find_store, inspect, throw. rewrite A'.
    cbn [data with_data as_array]. now rewrite G, Ht.
Qed.

Lemma deleted_id_is_not_found_witness :
  exists text,
    ToString (VStr "abc123") = Return text
    /\ deleteData "dsr" (VStr "abc123") 3000
         (after (deleteData "dsr" (VStr "abc123") 2000 page_one_dsr))
       = (Throw (Error ("Record with id " ++ text ++ " not found")),
          after (deleteData "dsr" (VStr "abc123") 2000 page_one_dsr)).
Proof.
  destruct (deleted_id_is_not_found "dsr" (VStr "abc123") VNull 2000 3000 page_one_dsr
              dsr_items_one (hd VUndef dsr_items_one)) as (text & T & D & _).
  - reflexivity.
  - split; repeat constructor.
  - reflexivity.
  - exists text. split; [exact T | exact D].
Defined.

(** ** Queries *)

Lemma filter_partition {A} (p : A -> bool) (l : list A) :
  Permutation.Permutation (filter (fun x => negb (p x)) l ++ filter p l) l.
Proof.
  induction l as [|x l IH]; [apply Permutation.perm_nil|].
  cbn [filter]. destruct (p x); cbn [negb app].
  - apply Permutation.Permutation_sym.
    apply Permutation.Permutation_cons_app. now apply Permutation.Permutation_sym.
  - now apply Permutation.perm_skip.
Qed.

Lemma array_sort_permutation (cmp : jsval -> jsval -> outcome Z) (l l' : list jsval) :
  array_sort cmp l = Return l' -> Permutation.Permutation l' l.
Proof.
  unfold array_sort.
  destruct (sort_by cmp (filter (fun v => negb (is_undefined v)) l)) as [sorted|] eqn:E;
    [|discriminate].
  cbn [bind]. intros [= <-].
  apply Permutation.perm_trans with
    (filter (fun v => negb (is_undefined v)) l ++ filter is_undefined l)%list.
  - apply Permutation.Permutation_app_tail. now apply sort_by_permutation in E.
  - apply filter_partition.
Qed.

Lemma slice_window {A} (l : list A) (offset limit : Z) :
  0 <= offset -> 0 <= limit ->
  slice l offset (offset + limit) = firstn (Z.to_nat limit) (skipn (Z.to_nat offset) l).
Proof.
  intros Ho Hl. unfold slice.
  replace (offset <? 0) with false by (symmetry; apply Z.ltb_ge; lia).
  replace (offset + limit <? 0) with false by (symmetry; apply Z.ltb_ge; lia).
  destruct (Z.le_gt_cases offset (Z.of_nat (List.length l))) as [L | L].
  - rewrite (Z.min_l offset) by lia.
    destruct (Z.le_gt_cases (offset + limit) (Z.of_nat (List.length l))) as [L' | L'].
    + rewrite Z.min_l by lia. f_equal. f_equal. lia.
    + rewrite Z.min_r by lia.
      rewrite !firstn_all2; try reflexivity; rewrite length_skipn; lia.
  - rewrite !Z.min_r by lia. rewrite Nat2Z.id.
    rewrite (skipn_all2 l) by lia. rewrite (skipn_all2 l) by lia.
    now rewrite !firstn_nil.
Qed.

Lemma slice_sublist {A} (l : list A) (start stop : Z) (x : A) :
  In x (slice l start stop) -> In x l.
Proof.
  unfold slice. intro H.
  match type of H with
  | In x (firstn ?k (skipn ?n l)) =>
      rewrite <- (firstn_skipn n l); apply in_or_app; right;
      rewrite <- (firstn_skipn k (skipn n l)); apply in_or_app; left; exact H
  end.
Qed.

Lemma query_of_array (storeName : string) (options : QueryOptions) (w : World)
  (items : list jsval) :
  records storeName w = Some (VArr items) ->
  queryData storeName options w
  = (bind (sort_step options (filter_step options items))
          (fun ordered => Return (paginate options ordered)), w).
Proof.
  unfold records, queryData, bindM, find_store, inspect, ret.
  destruct (assoc storeName (dataStores w)) as [store|]; [|discriminate].
  cbn [option_map]. intros [= ->]. cbn [spread].
  now destruct (sort_step options (filter_step options items)).
Qed.

Lemma paginate_sublist (options : QueryOptions) (l : list jsval) (x : jsval) :
  In x (paginate options l) -> In x l.
Proof.
  unfold paginate. destruct (truthy_number (q_limit options) || truthy_number (q_offset options));
    [apply slice_sublist | tauto].
Qed.

(** X17.  [queryData] on a store that holds an array: the page is left
    as it is; the records returned are records of the store that the
    filter accepts; they are a slice of an ordering of all such records,
    and when no sort is asked for the ordering is the order of the
    store. *)
Theorem queryData_postcondition
  (storeName : string) (options : QueryOptions) (w : World) (items results : list jsval) :
  records storeName w = Some (VArr items) ->
  fst (queryData storeName options w) = Return results ->
  after (queryData storeName options w) = w
  /\ Forall (fun r => In r items
                      /\ forall f, q_filter options = Some f -> f r = true) results
  /\ exists ordered,
       Permutation.Permutation ordered (kept options items)
       /\ (q_sort options = None -> ordered = kept options items)
       /\ results = paginate options ordered.
Proof.
  intros R H. rewrite (query_of_array storeName options w items R) in *.
  cbn [fst snd after] in *. split; [reflexivity|].
  change (filter_step options items) with (kept options items) in H.
  assert (O : exists ordered,
            Permutation.Permutation ordered (kept options items)
            /\ (q_sort options = None -> ordered = kept options items)
            /\ results = paginate options ordered).
  { unfold sort_step in H. destruct (q_sort options) as [s|].
    - destruct (array_sort (compare_records s) (kept options items)) as [ordered|] eqn:E;
        [|discriminate H].
      cbn [bind] in H. injection H as <-. exists ordered.
      repeat split; [now apply array_sort_permutation in E | discriminate].
    - cbn [bind] in H. injection H as <-. exists (kept options items).
      repeat split. apply Permutation.Permutation_refl. }
  split; [|exact O]. destruct O as (ordered & P & _ & ->).
  apply Forall_forall. intros r I. apply paginate_sublist in I.
  apply (Permutation.Permutation_in _ P) in I. unfold kept in I.
  destruct (q_filter options) as [f|].
  - apply filter_In in I. destruct I as [I F]. split; [exact I|]. now intros f' [= <-].
  - split; [exact I | discriminate].
Qed.

Lemma queryData_postcondition_witness :
  after (queryData "dsr" limit_zero page_one_dsr) = page_one_dsr
  /\ Forall (fun r => In r dsr_items_one
                      /\ forall f, q_filter limit_zero = Some f -> f r = true) dsr_items_one
  /\ exists ordered,
       Permutation.Permutation ordered (kept limit_zero dsr_items_one)
       /\ (q_sort limit_zero = None -> ordered = kept limit_zero dsr_items_one)
       /\ dsr_items_one = paginate limit_zero ordered.
Proof.
  exact (queryData_postcondition "dsr" limit_zero page_one_dsr dsr_items_one dsr_items_one
           eq_refl eq_refl).
Defined.

(** X18.  The page of a query.  With an offset that is not negative
    and a limit above zero, the records returned are the first [limit] of
    those after the first [offset], so never more than [limit]; with the
    offset alone they are all those after the first [offset]. *)
Theorem paginate_window (options : QueryOptions) (offset limit : Z) (l : list jsval) :
  0 <= offset ->
  0 < limit ->
  paginate (page_of offset limit options) l
    = firstn (Z.to_nat limit) (skipn (Z.to_nat offset) l)
  /\ (List.length (paginate (page_of offset limit options) l) <= Z.to_nat limit)%nat
  /\ paginate (from_offset offset options) l = skipn (Z.to_nat offset) l.
Proof.
  intros Ho Hl.
  assert (P : paginate (page_of offset limit options) l
              = firstn (Z.to_nat limit) (skipn (Z.to_nat offset) l)).
  { unfold paginate, page_of. cbn [q_limit q_offset truthy_number].
    replace (limit =? 0) with false by (symmetry; apply Z.eqb_neq; lia).
    cbn [negb orb or_default].
    replace (limit =? 0) with false by (symmetry; apply Z.eqb_neq; lia).
    destruct (offset =? 0) eqn:E.
    - apply Z.eqb_eq in E. subst offset. now rewrite slice_window by lia.
    - now rewrite slice_window by lia. }
  split; [exact P|]. split; [rewrite P, length_firstn; lia|].
  unfold paginate, from_offset. cbn [q_limit q_offset truthy_number or_default orb].
  destruct (offset =? 0) eqn:E; cbn [negb].
  - apply Z.eqb_eq in E. now subst offset.
  - rewrite slice_window by lia. rewrite Nat2Z.id. apply firstn_all2.
    rewrite length_skipn. lia.
Qed.

Lemma paginate_window_witness :
  paginate (page_of 1 2 limit_zero) [VInt 1; VInt 2; VInt 3; VInt 4]
    = firstn (Z.to_nat 2) (skipn (Z.to_nat 1) [VInt 1; VInt 2; VInt 3; VInt 4])
  /\ (List.length (paginate (page_of 1 2 limit_zero) [VInt 1; VInt 2; VInt 3; VInt 4])
      <= Z.to_nat 2)%nat
  /\ paginate (from_offset 1 limit_zero) [VInt 1; VInt 2; VInt 3; VInt 4]
     = skipn (Z.to_nat 1) [VInt 1; VInt 2; VInt 3; VInt 4].
Proof.
  apply (paginate_window limit_zero 1 2 [VInt 1; VInt 2; VInt 3; VInt 4]); lia.
Defined.

(** ** What [validateData] accepts *)

Lemma gather_none {A} (f : A -> outcome (list string)) (l : list A) :
  gather f l = Return [] -> forall x, In x l -> f x = Return [].
Proof.
  induction l as [|y l IH]; intros H x I; [destruct I|].
  cbn [gather] in H. destruct (f y) as [found|] eqn:E; [|discriminate H]. cbn [bind] in H.
  destruct (gather f l) as [more|] eqn:G; [|discriminate H]. cbn [bind] in H.
  injection H as H. apply app_eq_nil in H. destruct H as [-> ->].
  destruct I as [<- | I]; [exact E | now apply IH].
Qed.

Lemma all_of_none (checks : list (outcome bool * string)) :
  all_of checks = Return [] -> forall c, In c checks -> fst c = Return false.
Proof.
  induction checks as [|[test message] checks IH]; intros H c I; [destruct I|].
  cbn [all_of] in H. destruct test as [failed|]; [|discriminate H]. cbn [bind] in H.
  destruct (all_of checks) as [found|] eqn:G; [|discriminate H]. cbn [bind] in H.
  destruct failed; [discriminate H|]. injection H as ->.
  destruct I as [<- | I]; [reflexivity | now apply IH].
Qed.

(** The two parts of a validation that found nothing. *)
Lemma accepted_parts (storeName : string) (data : jsval) (w : World) (store : Store) :
  assoc storeName (dataStores w) = Some store ->
  is_absent data = false ->
  validateData storeName data w = Return {| valid := true; errors := [] |} ->
  gather (field_errors data) (schema store) = Return []
  /\ rule_errors data (rules_of storeName w) = Return [].
Proof.
  intros A P. unfold validateData. rewrite A, (validate_fields data (schema store) P).
  destruct (gather (field_errors data) (schema store)) as [fields|]; cbn [bind app];
    [|discriminate].
  unfold rules_of.
  destruct (assoc storeName (validationRules w)) as [rules|].
  - rewrite apply_rules_appends.
    destruct (rule_errors data rules) as [found|]; [|discriminate]. cbn [bind].
    intros [= _ E]. apply app_eq_nil in E. destruct E as [-> ->]. now split.
  - cbn [bind]. intros [= _ E]. subst fields. now split.
Qed.

(** What the range checks say of a number. *)
Lemma not_below_at_least (n : Z) (x : jsnum) :
  js_lt (VNum x) (VInt n) = Return false -> at_least n x.
Proof.
  unfold VInt. rewrite js_lt_num. intros [= H]. destruct x as [q| | |]; cbn in *;
    try exact I; try discriminate H.
  unfold Qltb in H. apply negb_false_iff in H. now apply Qle_bool_iff in H.
Qed.

Lemma not_above_at_most (n : Z) (x : jsnum) :
  js_gt (VNum x) (VInt n) = Return false -> at_most n x.
Proof.
  unfold VInt. rewrite js_gt_num. intros [= H]. destruct x as [q| | |]; cbn in *;
    try exact I; try discriminate H.
  unfold Qltb in H. apply negb_false_iff in H. now apply Qle_bool_iff in H.
Qed.

Lemma includes_In (l : list string) (s : string) : includes l (VStr s) = true -> In s l.
Proof.
  unfold includes. intro H. apply existsb_exists in H. destruct H as (e & I & E).
  cbn [strict_eq] in E. apply String.eqb_eq in E. now subst e.
Qed.

(** X19.  A record [validateData] accepts conforms to the schema of
    its store.  Every required field is there ([undefined], [null] and
    the empty string count as missing); a field that is there has the
    declared type, and none of the length, range, pattern and enum tests
    declared for it fails.  For a string that is a length within the
    declared bounds, the declared format and a value among the declared
    ones.  For a number it is a value within the declared bounds, or
    [NaN]: [NaN] has the type 'number', and both comparisons of the range
    check are false on it. *)
Theorem accepted_record_conforms
  (storeName : string) (data : jsval) (w : World) (store : Store)
  (field : string) (rules : FieldRule) :
  assoc storeName (dataStores w) = Some store ->
  is_absent data = false ->
  validateData storeName data w = Return {| valid := true; errors := [] |} ->
  In (field, rules) (schema store) ->
  (required rules = true -> is_missing (member data field) = false)
  /\ (is_absent (member data field) = false ->
      match type rules with
      | TString => is_string (member data field)
      | TNumber => is_number (member data field)
      | TDate => is_date (member data field)
      end = true
      /\ (forall n, minLength rules = Some n -> n <> 0 ->
            js_lt (member (member data field) "length") (VInt n) = Return false)
      /\ (forall n, maxLength rules = Some n -> n <> 0 ->
            js_gt (member (member data field) "length") (VInt n) = Return false)
      /\ (forall n, min rules = Some n -> js_lt (member data field) (VInt n) = Return false)
      /\ (forall n, max rules = Some n -> js_gt (member data field) (VInt n) = Return false)
      /\ (forall r, pattern rules = Some r -> regex_test r (member data field) = Return true)
      /\ (forall l, enum rules = Some l -> includes l (member data field) = true)
      /\ (forall s, member data field = VStr s ->
            (forall n, minLength rules = Some n -> n <> 0 -> n <= Z.of_nat (String.length s))
            /\ (forall n, maxLength rules = Some n -> n <> 0 -> Z.of_nat (String.length s) <= n)
            /\ (forall r, pattern rules = Some r -> regex_match r (chars s) = true)
            /\ (forall l, enum rules = Some l -> In s l))
      /\ (forall x, member data field = VNum x ->
            (forall n, min rules = Some n -> at_least n x)
            /\ (forall n, max rules = Some n -> at_most n x))).
Proof.
  intros A P V I. destruct (accepted_parts storeName data w store A P V) as [F _].
  pose proof (gather_none _ _ F _ I) as E. unfold field_errors in E. cbn [fst snd] in E.
  set (v := member data field) in *.
  destruct (required rules && is_missing v) eqn:R; [discriminate E|].
  split.
  { intro Q. rewrite Q in R. exact R. }
  intro Pv. rewrite Pv in E. pose proof (all_of_none _ E) as C. clear E. unfold checks_of in C.
  assert (G1 : match type rules with
               | TString => is_string v
               | TNumber => is_number v
               | TDate => is_date v
               end = true).
  { assert (T : fst (type_check field rules v) = Return false)
      by (apply C; apply in_or_app; left; now left).
    unfold type_check in T. destruct (type rules); cbn [fst] in T; injection T as T;
      now apply negb_false_iff in T. }
  assert (G2 : forall n, minLength rules = Some n -> n <> 0 ->
                 js_lt (member v "length") (VInt n) = Return false).
  { intros n E N.
    specialize (C (if n =? 0 then Return false else js_lt (member v "length") (VInt n),
                   field ++ " must be at least " ++ Z_to_string n ++ " characters")).
    rewrite E in C. cbn [of_option fst] in C.
    apply Z.eqb_neq in N. rewrite N in C. apply C.
    apply in_or_app; right. apply in_or_app. left. now left. }
  assert (G3 : forall n, maxLength rules = Some n -> n <> 0 ->
                 js_gt (member v "length") (VInt n) = Return false).
  { intros n E N.
    specialize (C (if n =? 0 then Return false else js_gt (member v "length") (VInt n),
                   field ++ " must be at most " ++ Z_to_string n ++ " characters")).
    rewrite E in C. cbn [of_option fst] in C.
    apply Z.eqb_neq in N. rewrite N in C. apply C.
    do 2 (apply in_or_app; right). apply in_or_app. left. now left. }
  assert (G4 : forall n, min rules = Some n -> js_lt v (VInt n) = Return false).
  { intros n E. specialize (C (js_lt v (VInt n), field ++ " must be at least " ++ Z_to_string n)).
    rewrite E in C. cbn [of_option fst] in C. apply C.
    do 3 (apply in_or_app; right). apply in_or_app. left. now left. }
  assert (G5 : forall n, max rules = Some n -> js_gt v (VInt n) = Return false).
  { intros n E. specialize (C (js_gt v (VInt n), field ++ " must be at most " ++ Z_to_string n)).
    rewrite E in C. cbn [of_option fst] in C. apply C.
    do 4 (apply in_or_app; right). apply in_or_app. left. now left. }
  assert (G6 : forall r, pattern rules = Some r -> regex_test r v = Return true).
  { intros r E.
    specialize (C (bind (regex_test r v) (fun matched => Return (negb matched)),
                   field ++ " format is invalid")).
    rewrite E in C. cbn [of_option fst] in C.
    assert (Q : bind (regex_test r v) (fun matched => Return (negb matched)) = Return false).
    { apply C. do 5 (apply in_or_app; right). apply in_or_app. left. now left. }
    destruct (regex_test r v) as [[|]|]; cbn [bind negb] in Q; congruence. }
  assert (G7 : forall l, enum rules = Some l -> includes l v = true).
  { intros l E.
    specialize (C (Return (negb (includes l v)), field ++ " must be one of: " ++ join ", " l)).
    rewrite E in C. cbn [of_option fst] in C.
    assert (Q : Return (negb (includes l v)) = Return false).
    { apply C. do 6 (apply in_or_app; right). now left. }
    injection Q as Q. now apply negb_false_iff in Q. }
  repeat split; try assumption.
  - intros n E N. specialize (G2 n E N). rewrite H in G2.
    change (member (VStr s) "length") with (VInt (Z.of_nat (String.length s))) in G2.
    rewrite js_lt_whole in G2. injection G2 as G2. now apply Z.ltb_ge in G2.
  - intros n E N. specialize (G3 n E N). rewrite H in G3.
    change (member (VStr s) "length") with (VInt (Z.of_nat (String.length s))) in G3.
    rewrite js_gt_whole in G3. injection G3 as G3. now apply Z.ltb_ge in G3.
  - intros r E. specialize (G6 r E). rewrite H in G6. now injection G6.
  - intros l E. apply includes_In. rewrite <- H. now apply G7.
  - intros n E. apply not_below_at_least. rewrite <- H. now apply G4.
  - intros n E. apply not_above_at_most. rewrite <- H. now apply G5.
Qed.

Lemma accepted_record_conforms_witness :
  is_missing (member (dsr_record 100 110) "lastMonthActual") = false
  /\ is_number (member (dsr_record 100 110) "lastMonthActual") = true
  /\ at_least 0 (num_of_Z 100)
  /\ at_most 999999 (num_of_Z 100).
Proof.
  destruct (accepted_record_conforms "dsr" (dsr_record 100 110) initial_world
              (empty_store dsr_schema ["id"; "dsrId"; "cluster"; "captainName"]
                 ["captainName -> sales.name"])
              "lastMonthActual" (ranged 0 999999)
              eq_refl eq_refl eq_refl
              (or_intror (or_intror (or_intror (or_intror (or_intror (or_introl eq_refl)))))))
    as [M C].
  destruct (C eq_refl) as (T & _ & _ & _ & _ & _ & _ & _ & N).
  destruct (N (num_of_Z 100) eq_refl) as [Lo Hi].
  split; [exact (M eq_refl)|]. split; [exact T|].
  split; [exact (Lo 0 eq_refl) | exact (Hi 999999 eq_refl)].
Defined.

Lemma rule_errors_none (data : jsval) (rules : list (string * Rule)) :
  is_absent data = false ->
  rule_errors data rules = Return [] ->
  forall field rule, In (field, rule) rules ->
    is_undefined (member data field) = false ->
    rule (member data field) data = Return RuleValid.
Proof.
  intro P. induction rules as [|[f r] rules IH]; intros H field rule I U; [destruct I|].
  unfold rule_errors in H. cbn [foldM] in H.
  assert (S1 : exists e found, apply_rule data [] (f, r) = Return e
                               /\ rule_errors data rules = Return found
                               /\ (e ++ found)%list = []).
  { destruct (apply_rule data [] (f, r)) as [e|]; [|discriminate H]. cbn [bind] in H.
    rewrite apply_rules_appends in H.
    destruct (rule_errors data rules) as [found|]; [|discriminate H]. cbn [bind] in H.
    exists e, found. repeat split. congruence. }
  destruct S1 as (e & found & E1 & E2 & E3). apply app_eq_nil in E3. destruct E3 as [-> ->].
  destruct I as [[= <- <-] | I]; [|now apply IH].
  unfold apply_rule in E1. rewrite (get_prop_present data f P) in E1. cbn [read bind] in E1.
  rewrite U in E1. cbn [negb] in E1.
  destruct (r (member data f) data) as [[|message]|]; [reflexivity | | discriminate E1].
  cbn [bind] in E1. injection E1 as E1. unfold push in E1. discriminate E1.
Qed.

(** X20.  A record [validateData] accepts passes every business rule of
    its store: each rule whose field the record has answers
    [{ valid: true }] on it. *)
Theorem accepted_record_passes_rules
  (storeName : string) (data : jsval) (w : World) (store : Store)
  (field : string) (rule : Rule) :
  assoc storeName (dataStores w) = Some store ->
  is_absent data = false ->
  validateData storeName data w = Return {| valid := true; errors := [] |} ->
  In (field, rule) (rules_of storeName w) ->
  is_undefined (member data field) = false ->
  rule (member data field) data = Return RuleValid.
Proof.
  intros A P V I U. destruct (accepted_parts storeName data w store A P V) as [_ R].
  exact (rule_errors_none data (rules_of storeName w) P R field rule I U).
Qed.

Lemma accepted_record_passes_rules_witness :
  dsr_thisMonthActual (member (dsr_record 100 110) "thisMonthActual") (dsr_record 100 110)
  = Return RuleValid.
Proof.
  exact (accepted_record_passes_rules "dsr" (dsr_record 100 110) initial_world
           (empty_store dsr_schema ["id"; "dsrId"; "cluster"; "captainName"]
              ["captainName -> sales.name"])
           "thisMonthActual" dsr_thisMonthActual
           eq_refl eq_refl eq_refl (or_introl eq_refl) eq_refl).
Defined.

(** *** Where [validateData] returns and where it raises *)

Section OnlyTypeError.
Context {A B : Type}.

Lemma only_Return (a : A) : only_TypeError (Return a).
Proof. intros e H. discriminate H. Qed.

Lemma only_Throw : only_TypeError (@Throw A TypeError).
Proof. intros e H. now injection H as <-. Qed.

Lemma only_read (o : option A) : only_TypeError (read o).
Proof. destruct o; [apply only_Return | apply only_Throw]. Qed.

Lemma only_bind (m : outcome A) (f : A -> outcome B) :
  only_TypeError m -> (forall a, only_TypeError (f a)) -> only_TypeError (bind m f).
Proof.
  intros Hm Hf. destruct m as [a|e]; cbn [bind]; [apply Hf|].
  intros e' H. injection H as <-. now apply Hm.
Qed.

End OnlyTypeError.

Lemma only_ToString (v : jsval) : only_TypeError (ToString v).
Proof.
  induction v as [ | | b | x | s | t | l IH | l IH] using jsval_induction;
    try apply only_Return.
  - destruct b; apply only_Return.
  - cbn [ToString]. apply only_bind; [|intro; apply only_Return].
    induction IH as [|x l Hx _ IHl]; [apply only_Return|].
    apply only_bind.
    + destruct x; try apply only_Return; exact Hx.
    + intro s. apply only_bind; [exact IHl | intro; apply only_Return].
  - cbn [ToString]. destruct (assoc "toString" l); [apply only_Throw | apply only_Return].
Qed.

Lemma only_ToPrimitive (v : jsval) : only_TypeError (ToPrimitive v).
Proof.
  destruct v; try apply only_Return;
    (apply only_bind; [apply only_ToString | intro; apply only_Return]).
Qed.

Lemma only_ToNumber (v : jsval) : only_TypeError (ToNumber v).
Proof. apply only_bind; [apply only_ToPrimitive | intro; apply only_Return]. Qed.

Lemma only_js_lt (a b : jsval) : only_TypeError (js_lt a b).
Proof.
  apply only_bind; [apply only_ToPrimitive | intro].
  apply only_bind; [apply only_ToPrimitive | intro; apply only_Return].
Qed.

Lemma only_js_gt (a b : jsval) : only_TypeError (js_gt a b).
Proof.
  apply only_bind; [apply only_ToPrimitive | intro].
  apply only_bind; [apply only_ToPrimitive | intro; apply only_Return].
Qed.

Lemma only_js_sub (a b : jsval) : only_TypeError (js_sub a b).
Proof.
  apply only_bind; [apply only_ToNumber | intro].
  apply only_bind; [apply only_ToNumber | intro; apply only_Return].
Qed.

Lemma only_js_div (a b : jsval) : only_TypeError (js_div a b).
Proof.
  apply only_bind; [apply only_ToNumber | intro].
  apply only_bind; [apply only_ToNumber | intro; apply only_Return].
Qed.

Lemma only_regex_test (r : regex) (v : jsval) : only_TypeError (regex_test r v).
Proof. apply only_bind; [apply only_ToString | intro; apply only_Return]. Qed.

Create HintDb raising discriminated.

#[local] Hint Resolve only_Return only_Throw only_read only_js_lt only_js_gt only_js_sub
  only_js_div only_regex_test only_ToNumber only_ToString only_ToPrimitive : raising.

(** A chain of steps each of which raises a [TypeError] or nothing. *)
Ltac only_steps :=
  repeat first
    [ solve [ auto with raising ]
    | apply only_bind; [ | intro ]
    | match goal with
      | |- only_TypeError (if ?c then _ else _) => destruct c
      | |- only_TypeError (match ?x with _ => _ end) => destruct x
      end ].

Lemma only_foldM {A B} (f : A -> B -> outcome A) (l : list B) :
  (forall a x, only_TypeError (f a x)) -> forall a, only_TypeError (foldM f l a).
Proof.
  intro H. induction l as [|x l IH]; intro a; cbn [foldM]; [apply only_Return|].
  apply only_bind; [apply H | exact IH].
Qed.

Lemma only_validate_field (data : jsval) (errors : list string) (entry : string * FieldRule) :
  only_TypeError (validate_field data errors entry).
Proof.
  destruct entry as [field rules]. unfold validate_field, push_with. only_steps.
Qed.

Lemma only_source_rule (rule : Rule) (v record : jsval) :
  rule = sales_monthlyTarget \/ rule = sales_mtdActual \/ rule = dsr_thisMonthActual ->
  only_TypeError (rule v record).
Proof.
  intros [-> | [-> | ->]];
    unfold sales_monthlyTarget, sales_mtdActual, dsr_thisMonthActual; only_steps.
Qed.

Lemma only_apply_rule (data : jsval) (errors : list string) (entry : string * Rule) :
  snd entry = sales_monthlyTarget \/ snd entry = sales_mtdActual
  \/ snd entry = dsr_thisMonthActual ->
  only_TypeError (apply_rule data errors entry).
Proof.
  destruct entry as [field rule]. cbn [snd]. intro H. unfold apply_rule.
  apply only_bind; [apply only_read | intro v].
  destruct (negb (is_undefined v)); [|apply only_Return].
  apply only_bind; [now apply only_source_rule | intros [|message]; apply only_Return].
Qed.

Lemma only_source_rules (data : jsval) (rules : list (string * Rule)) :
  Forall (fun entry => snd entry = sales_monthlyTarget \/ snd entry = sales_mtdActual
                       \/ snd entry = dsr_thisMonthActual) rules ->
  forall errors, only_TypeError (foldM (apply_rule data) rules errors).
Proof.
  induction 1 as [|entry rules H _ IH]; intro errors; cbn [foldM]; [apply only_Return|].
  apply only_bind; [now apply only_apply_rule | exact IH].
Qed.

(** The rules of the source are the rules of every store. *)
Lemma source_rules (storeName : string) (rules : list (string * Rule)) :
  assoc storeName setupValidationRules = Some rules ->
  Forall (fun entry => snd entry = sales_monthlyTarget \/ snd entry = sales_mtdActual
                       \/ snd entry = dsr_thisMonthActual) rules.
Proof.
  unfold setupValidationRules. cbn [assoc].
  destruct (String.eqb storeName "sales"); [intros [= <-]; repeat constructor; cbn [snd]; tauto|].
  destruct (String.eqb storeName "dsr"); [intros [= <-]; repeat constructor; cbn [snd]; tauto|].
  discriminate.
Qed.

(** What can be made a primitive has a text and a number. *)
Lemma converts_ToPrimitive (v : jsval) :
  converts v = true -> exists p, ToPrimitive v = Return p.
Proof. unfold converts. destruct (ToPrimitive v) as [p|]; [now eexists | discriminate]. Qed.

Lemma converts_ToString (v : jsval) : converts v = true -> exists s, ToString v = Return s.
Proof.
  unfold converts. destruct v; try (now eexists).
  - destruct b; now eexists.
  - cbn [ToPrimitive]. destruct (ToString (VArr items)); [now eexists | discriminate].
  - cbn [ToPrimitive]. destruct (ToString (VObj props)); [now eexists | discriminate].
Qed.

Lemma converts_ToNumber (v : jsval) : converts v = true -> exists x, ToNumber v = Return x.
Proof.
  intro C. destruct (converts_ToPrimitive v C) as [p E]. unfold ToNumber. rewrite E.
  now eexists.
Qed.

Lemma converts_js_lt (a b : jsval) :
  converts a = true -> converts b = true -> exists r, js_lt a b = Return r.
Proof.
  intros Ca Cb. destruct (converts_ToPrimitive a Ca) as [pa Ea].
  destruct (converts_ToPrimitive b Cb) as [pb Eb]. unfold js_lt. rewrite Ea, Eb. now eexists.
Qed.

Lemma converts_js_gt (a b : jsval) :
  converts a = true -> converts b = true -> exists r, js_gt a b = Return r.
Proof.
  intros Ca Cb. destruct (converts_ToPrimitive a Ca) as [pa Ea].
  destruct (converts_ToPrimitive b Cb) as [pb Eb]. unfold js_gt. rewrite Ea, Eb. now eexists.
Qed.

Lemma all_of_returns (checks : list (outcome bool * string)) :
  (forall c, In c checks -> exists failed, fst c = Return failed) ->
  exists found, all_of checks = Return found.
Proof.
  induction checks as [|[test message] checks IH]; intro H; cbn [all_of]; [now eexists|].
  destruct (H (test, message) (or_introl eq_refl)) as [failed E]. cbn [fst] in E. subst test.
  destruct IH as [found ->]; [intros c I; apply H; now right|].
  cbn [bind]. now eexists.
Qed.

Lemma steady_parts (v : jsval) :
  steady v = true -> converts v = true /\ converts (member v "length") = true.
Proof. unfold steady. intro H. now apply andb_prop in H. Qed.

(** On a steady value every check of a field returns. *)
Lemma field_errors_returns (data : jsval) (entry : string * FieldRule) :
  steady (member data (fst entry)) = true ->
  exists found, field_errors data entry = Return found.
Proof.
  intro S. apply steady_parts in S. destruct S as [Cv Cl].
  unfold field_errors. set (v := member data (fst entry)) in *.
  destruct (required (snd entry) && is_missing v); [now eexists|].
  destruct (is_absent v); [now eexists|].
  apply all_of_returns. intros c I. unfold checks_of, type_check, of_option in I.
  assert (W : converts (VInt 0) = true) by reflexivity.
  repeat (apply in_app_or in I; destruct I as [I | I]);
    repeat match type of I with
           | In _ (match ?x with _ => _ end) => destruct x
           | In _ (_ :: _) => destruct I as [<- | I]
           | In _ [] => destruct I
           end; cbn [fst]; try (now eexists);
    try (match goal with |- context [if ?c then _ else _] => destruct c end; [now eexists|]);
    try (now apply converts_js_lt); try (now apply converts_js_gt);
    try (destruct (type (snd entry)); now eexists).
  all: unfold regex_test; destruct (converts_ToString v Cv) as [s ->]; cbn [bind]; now eexists.
Qed.

Lemma gather_returns {A} (f : A -> outcome (list string)) (l : list A) :
  (forall x, In x l -> exists found, f x = Return found) ->
  exists found, gather f l = Return found.
Proof.
  induction l as [|x l IH]; intro H; cbn [gather]; [now eexists|].
  destruct (H x (or_introl eq_refl)) as [found ->].
  destruct IH as [more ->]; [intros y I; apply H; now right|].
  cbn [bind]. now eexists.
Qed.

Lemma source_rule_returns (rule : Rule) (v record : jsval) :
  rule = sales_monthlyTarget \/ rule = sales_mtdActual \/ rule = dsr_thisMonthActual ->
  is_absent record = false ->
  converts v = true ->
  (forall k, converts (member record k) = true) ->
  exists r, rule v record = Return r.
Proof.
  intros [-> | [-> | ->]] P Cv Cr.
  - unfold sales_monthlyTarget. rewrite (get_prop_present record "mtdTarget" P).
    cbn [read bind]. destruct (converts_js_lt v _ Cv (Cr "mtdTarget")) as [[|] ->];
      cbn [bind]; now eexists.
  - unfold sales_mtdActual. rewrite (get_prop_present record "monthlyTarget" P).
    cbn [read bind]. destruct (converts_js_gt v _ Cv (Cr "monthlyTarget")) as [[|] ->];
      cbn [bind]; now eexists.
  - unfold dsr_thisMonthActual. rewrite (get_prop_present record "lastMonthActual" P).
    cbn [read bind].
    destruct (converts_ToNumber v Cv) as [x Ex].
    destruct (converts_ToNumber _ (Cr "lastMonthActual")) as [y Ey].
    unfold js_sub. rewrite Ex, Ey. cbn [bind]. unfold js_div. rewrite Ey. cbn [bind ToNumber ToPrimitive number_of].
    rewrite js_gt_num. cbn [bind]. destruct (num_ltb _ _); now eexists.
Qed.

Lemma source_rules_return (data : jsval) (rules : list (string * Rule)) :
  is_absent data = false ->
  (forall k, converts (member data k) = true) ->
  Forall (fun entry => snd entry = sales_monthlyTarget \/ snd entry = sales_mtdActual
                       \/ snd entry = dsr_thisMonthActual) rules ->
  forall errors, exists errors', foldM (apply_rule data) rules errors = Return errors'.
Proof.
  intros P C F. induction F as [|[f r] rules Hr _ IH]; intro errors; cbn [foldM]; [now eexists|].
  unfold apply_rule at 1. rewrite (get_prop_present data f P). cbn [read bind].
  destruct (negb (is_undefined (member data f))); [|apply IH].
  destruct (source_rule_returns r (member data f) data Hr P (C f) C) as [[|message] ->];
    cbn [bind]; apply IH.
Qed.



(** X22.  On [null] and [undefined] there is no validation result:
    [validateData] raises a [TypeError] at the first field of the schema,
    and [addData] raises it before it validates, leaving the page as it
    is. *)
Theorem null_record_raises
  (storeName : string) (data : jsval) (now : Z) (fresh : string) (w : World) (store : Store) :
  assoc storeName (dataStores w) = Some store ->
  schema store <> [] ->
  is_absent data = true ->
  validateData storeName data w = Throw TypeError
  /\ addData storeName data now fresh w = (Throw TypeError, w).
Proof.
  intros A S P.
  assert (G : forall k, get_prop data k = None)
    by (intro k; destruct data; try discriminate P; reflexivity).
  split.
  - unfold validateData. rewrite A.
    destruct (schema store) as [|[field rules] rest]; [congruence|].
    cbn [foldM]. unfold validate_field at 1. now rewrite G.
  - unfold addData, bindM, find_store, inspect. now rewrite A, G.
Qed.

Lemma null_record_raises_witness :
  validateData "dsr" VNull initial_world = Throw TypeError
  /\ addData "dsr" VNull 1000 "x" initial_world = (Throw TypeError, initial_world).
Proof.
  apply (null_record_raises "dsr" VNull 1000 "x" initial_world
           (empty_store dsr_schema ["id"; "dsrId"; "cluster"; "captainName"]
              ["captainName -> sales.name"])).
  - reflexivity.
  - discriminate.
  - reflexivity.
Defined.

(** ** The business rules on whole numbers *)

(** X23.  The growth rule of the store 'dsr' on whole numbers.  With
    last month's actual [l] and this month's [t], the record is refused
    exactly when the growth [(t - l) / l] is above one half: for a
    positive [l] when [2 t > 3 l]; for [l = 0], where the division gives
    an infinity or [NaN], when [t] is positive; for a negative [l] when
    [2 t < 3 l]. *)
Theorem growth_rule_on_whole_numbers (t l : Z) (record : jsval) :
  get_prop record "lastMonthActual" = Some (VInt l) ->
  dsr_thisMonthActual (VInt t) record
  = Return (if (if l =? 0 then 0 <? t
                else if 0 <? l then 3 * l <? 2 * t
                else 2 * t <? 3 * l)
            then RuleInvalid "Growth rate cannot exceed 50%"
            else RuleValid).
Proof.
  intro G. unfold dsr_thisMonthActual. rewrite G. cbn [read bind].
  unfold VInt. rewrite js_sub_num. cbn [bind]. rewrite js_div_num. cbn [bind].
  rewrite js_gt_num. cbn [bind].
  destruct (num_sub_Z t l) as (q & -> & Hq).
  unfold num_div, num_of_Z.
  assert (Zl : Qis_zero (inject_Z l) = (l =? 0)).
  { unfold Qis_zero, Qeq_bool, inject_Z. cbn. now rewrite Z.mul_1_r. }
  rewrite Zl. destruct (l =? 0) eqn:L.
  - apply Z.eqb_eq in L. subst l. rewrite Z.sub_0_r in Hq.
    rewrite (Qis_zero_proper _ _ Hq), (Qltb_proper 0 0 q (inject_Z t) (Qeq_refl 0) Hq).
    change 0%Q with (inject_Z 0). rewrite Qltb_inject.
    unfold Qis_zero, Qeq_bool, inject_Z. cbn [Qnum Qden]. rewrite !Z.mul_1_r.
    destruct (t =? 0) eqn:T.
    + apply Z.eqb_eq in T. subst t. reflexivity.
    + destruct (0 <? t); reflexivity.
  - apply Z.eqb_neq in L. cbn [num_ltb].
    assert (E : Qltb (1 # 2) (Qred (q / inject_Z l))
                = (if 0 <? l then 3 * l <? 2 * t else 2 * t <? 3 * l)).
    { rewrite (Qltb_proper (1 # 2) (1 # 2) (Qred (q / inject_Z l)) (inject_Z (t - l) / inject_Z l)
                 (Qeq_refl _)).
      2:{ rewrite Qred_correct, Hq. reflexivity. }
      unfold Qltb, Qle_bool, Qdiv, Qmult, Qinv, inject_Z. cbn [Qnum Qden].
      destruct l as [|p|p]; [congruence| |]; cbn [Qnum Qden].
      - change (0 <? Z.pos p) with true. cbn iota.
        destruct (3 * Z.pos p <? 2 * t) eqn:C.
        + apply Z.ltb_lt in C. apply negb_true_iff. apply Z.leb_gt. lia.
        + apply Z.ltb_ge in C. apply negb_false_iff. apply Z.leb_le. lia.
      - change (0 <? Z.neg p) with false. cbn iota.
        destruct (2 * t <? 3 * Z.neg p) eqn:C.
        + apply Z.ltb_lt in C. apply negb_true_iff. apply Z.leb_gt. lia.
        + apply Z.ltb_ge in C. apply negb_false_iff. apply Z.leb_le. lia. }
    rewrite E. now destruct (if 0 <? l then 3 * l <? 2 * t else 2 * t <? 3 * l).
Qed.

Lemma growth_rule_on_whole_numbers_witness :
  dsr_thisMonthActual (VInt 160) (dsr_record 100 160)
  = Return (RuleInvalid "Growth rate cannot exceed 50%").
Proof. exact (growth_rule_on_whole_numbers 160 100 (dsr_record 100 160) eq_refl). Defined.

(** X24.  The two rules of the store 'sales' on whole numbers: a monthly
    target below the MTD target is refused, and so is an MTD actual above
    the monthly target; equal values pass. *)
Theorem sales_rules_on_whole_numbers (monthlyTarget mtdTarget mtdActual : Z) (record : jsval) :
  get_prop record "monthlyTarget" = Some (VInt monthlyTarget) ->
  get_prop record "mtdTarget" = Some (VInt mtdTarget) ->
  sales_monthlyTarget (VInt monthlyTarget) record
    = Return (if monthlyTarget <? mtdTarget
              then RuleInvalid "Monthly target must be greater than or equal to MTD target"
              else RuleValid)
  /\ sales_mtdActual (VInt mtdActual) record
     = Return (if monthlyTarget <? mtdActual
               then RuleInvalid "MTD actual cannot exceed monthly target"
               else RuleValid).
Proof.
  intros Gm Gt. unfold sales_monthlyTarget, sales_mtdActual.
  rewrite Gm, Gt. cbn [read bind]. rewrite js_lt_whole, js_gt_whole. cbn [bind].
  split; [now destruct (monthlyTarget <? mtdTarget) | now destruct (monthlyTarget <? mtdActual)].
Qed.

Lemma sales_rules_on_whole_numbers_witness :
  sales_monthlyTarget (VInt 500) sales_input = Return RuleValid
  /\ sales_mtdActual (VInt 150) sales_input = Return RuleValid.
Proof. exact (sales_rules_on_whole_numbers 500 200 150 sales_input eq_refl eq_refl). Defined.

(** ** [importData] *)

Lemma validateData_committed (storeName : string) (store : Store) (d record : jsval) (now : Z)
  (w : World) :
  assoc storeName (dataStores w) = Some store ->
  validateData storeName record (committed storeName store d now w)
  = validateData storeName record w.
Proof.
  intro A. unfold validateData.
  destruct (committed_frame storeName store d now w) as (_ & _ & -> & _).
  rewrite committed_stores, assoc_set_same, A. reflexivity.
Qed.

(** [addData] returns exactly on the items that can be imported. *)
Lemma addData_accepts (storeName : string) (data : jsval) (now : Z) (fresh : string) (w : World)
  (store : Store) (items : list jsval) :
  assoc storeName (dataStores w) = Some store ->
  stored store = VArr items ->
  importable storeName w items data (enrich data now fresh) = true ->
  addData storeName data now fresh w
  = (Return (enrich data now fresh),
     committed storeName store (VArr (items ++ [enrich data now fresh])) now w).
Proof.
  intros A D I. unfold importable in I.
  apply andb_prop in I. destruct I as [I F]. apply andb_prop in I. destruct I as [P V].
  apply negb_true_iff in P.
  unfold addData. unfold bindM at 1. unfold find_store. rewrite A.
  unfold bindM at 1. unfold inspect at 1.
  destruct (get_prop data "id") as [gid|] eqn:G;
    [|destruct data; try discriminate G; discriminate P].
  assert (M : gid = member data "id") by (unfold member; now rewrite G).
  subst gid. cbn [read].
  fold (enrich data now fresh). set (r := enrich data now fresh) in *.
  unfold bindM at 1. unfold inspect at 1.
  destruct (validateData storeName r w) as [val|e]; [|discriminate V].
  rewrite V. cbn [negb].
  unfold bindM at 1. unfold inspect at 1. rewrite D. cbn [as_array].
  unfold bindM at 1. unfold inspect at 1.
  destruct (findIndex_id items (member r "id") 0) as [[i|]|e]; try discriminate F.
  now apply commit_steps.
Qed.

Lemma addData_refuses (storeName : string) (data : jsval) (now : Z) (fresh : string) (w : World)
  (store : Store) (items : list jsval) :
  assoc storeName (dataStores w) = Some store ->
  stored store = VArr items ->
  importable storeName w items data (enrich data now fresh) = false ->
  exists e, addData storeName data now fresh w = (Throw e, w).
Proof.
  intros A D I.
  destruct (addData storeName data now fresh w) as [[record|e] w1] eqn:E.
  - exfalso.
    assert (H : fst (addData storeName data now fresh w) = Return record) by now rewrite E.
    destruct (addData_returns _ _ _ _ _ _ H) as (store0 & items0 & A0 & D0 & P & -> & V & F & _).
    assert (store0 = store) by congruence. subst store0.
    assert (items0 = items) by congruence. subst items0.
    unfold importable in I. rewrite P, V, F in I. discriminate I.
  - exists e. f_equal.
    assert (H : fst (addData storeName data now fresh w) = Throw e) by now rewrite E.
    pose proof (addData_rolls_back storeName data now fresh w e H) as W.
    now rewrite E in W.
Qed.

Lemma import_items_spec (storeName : string) (w0 : World) (clock : nat -> Z) (ids : nat -> string)
  (incoming : list jsval) :
  forall (i : nat) (results : ImportResults) (w : World) (store : Store) (items : list jsval),
    assoc storeName (dataStores w) = Some store ->
    data store = VArr items ->
    (forall record, validateData storeName record w = validateData storeName record w0) ->
    exists failed,
      fst (import_items storeName incoming clock ids i results w)
      = Return {| success := success results
                             ++ fst (import_by_item storeName w0 clock ids incoming i items);
                  failures := failures results ++ failed |}
      /\ map fst failed = snd (import_by_item storeName w0 clock ids incoming i items)
      /\ records storeName (snd (import_items storeName incoming clock ids i results w))
         = Some (VArr (items ++ fst (import_by_item storeName w0 clock ids incoming i items))).
Proof.
  induction incoming as [|item incoming IH]; intros i results w store items A D V.
  - exists []. cbn [import_items import_by_item ret fst snd map]. rewrite !app_nil_r.
    repeat split; [now destruct results|].
    unfold records. rewrite A. cbn [option_map]. now f_equal.
  - cbn [import_items import_by_item].
    set (record := enrich item (clock i) (ids i)) in *.
    assert (Same : importable storeName w0 items item record
                   = importable storeName w items item record)
      by (unfold importable; now rewrite V).
    rewrite Same.
    destruct (importable storeName w items item record) eqn:Dec.
    + rewrite (addData_accepts storeName item (clock i) (ids i) w store items A D Dec).
      fold record.
      destruct (IH (S i)
                  {| success := success results ++ [record]; failures := failures results |}
                  (committed storeName store (VArr (items ++ [record])) (clock i) w)
                  (with_data store (VArr (items ++ [record]))) (items ++ [record])%list)
        as (failed & F & Fl & R).
      { now rewrite committed_stores, assoc_set_same. }
      { reflexivity. }
      { intro r. rewrite <- V. now apply validateData_committed. }
      exists failed. cbn [success failures fst snd] in *.
      rewrite <- !app_assoc in F, R. cbn [app] in F, R.
      repeat split; assumption.
    + destruct (addData_refuses storeName item (clock i) (ids i) w store items A D Dec)
        as [e ->].
      destruct (IH (S i)
                  {| success := success results; failures := failures results ++ [(item, e)] |}
                  w store items A D V)
        as (failed & F & Fl & R).
      exists ((item, e) :: failed). cbn [success failures fst snd map] in *.
      rewrite <- !app_assoc in F. cbn [app] in F.
      repeat split; [exact F | now f_equal | exact R].
Qed.

(** X25.  [importData] on a store that holds an array takes the items in
    their order and returns (no failure of an item stops it).  An item
    is added when it is neither [null] nor [undefined], the record
    [addData] makes of it (the item with its id, given or drawn, and the
    two stamps of the time of its turn) passes [validateData], and no
    record held at its turn, those of the store and those added before
    it, carries its id; every other item is refused.  The successes are
    the records made of the items added, in the order of the items; the
    failures are the items refused, in the order of the items; and
    afterwards the store holds the records it held followed by the
    successes. *)
Theorem importData_postcondition
  (storeName : string) (data : jsval) (clock : nat -> Z) (ids : nat -> string) (w : World)
  (items : list jsval) :
  records storeName w = Some (VArr items) ->
  exists results,
    fst (importData storeName data clock ids w) = Return results
    /\ success results = fst (import_by_item storeName w clock ids (as_list data) 0 items)
    /\ map fst (failures results)
       = snd (import_by_item storeName w clock ids (as_list data) 0 items)
    /\ records storeName (after (importData storeName data clock ids w))
       = Some (VArr (items ++ success results)).
Proof.
  intro R. unfold records in R.
  destruct (assoc storeName (dataStores w)) as [store|] eqn:A; [|discriminate R].
  cbn [option_map] in R. injection R as D.
  destruct (import_items_spec storeName w clock ids (as_list data) 0
              {| success := []; failures := [] |} w store items A D (fun _ => eq_refl))
    as (failed & F & Fl & Rc).
  cbn [success failures app] in F.
  exists {| success := fst (import_by_item storeName w clock ids (as_list data) 0 items);
            failures := failed |}.
  unfold importData, after, bindM, find_store. rewrite A.
  destruct (import_items storeName (as_list data) clock ids 0
              {| success := []; failures := [] |} w) as [o w'] eqn:E.
  cbn [fst snd] in *. subst o. cbn [success failures]. repeat split; assumption.
Qed.

Lemma importData_postcondition_witness :
  exists results,
    fst (importData "dsr" (VArr [VNull; dsr_input VUndef 100 110; dsr_input VUndef 100 110])
           (fun i => 1000 + Z.of_nat i) (fun _ => "abc123") initial_world)
    = Return results
    /\ success results = [enrich (dsr_input VUndef 100 110) 1001 "abc123"]
    /\ map fst (failures results) = [VNull; dsr_input VUndef 100 110].
Proof.
  destruct (importData_postcondition "dsr"
              (VArr [VNull; dsr_input VUndef 100 110; dsr_input VUndef 100 110])
              (fun i => 1000 + Z.of_nat i) (fun _ => "abc123") initial_world [] eq_refl)
    as (results & F & S & Fl & _).
  exists results. split; [exact F|]. split; [exact S | exact Fl].
Defined.

(** ** Saving and loading the stores *)

Lemma data_key_injective (a b : string) : data_key a = data_key b -> a = b.
Proof. unfold data_key. cbn. now intros [= ->]. Qed.

Lemma data_key_outside_cache (storeName : string) :
  startsWith (data_key storeName) "cache_" = false.
Proof. reflexivity. Qed.

Lemma save_store_untouched (accepts : Quota) (k : string) (entry : string * Store)
  (st : Storage) :
  data_key (fst entry) <> k -> getItem k (save_store accepts st entry) = getItem k st.
Proof.
  intro N. unfold save_store, setItem.
  destruct (accepts st (data_key (fst entry)) (data_text (data (snd entry)))); [|reflexivity].
  unfold getItem. apply assoc_set_other. congruence.
Qed.

Lemma save_untouched (accepts : Quota) (k : string) (stores : list (string * Store)) :
  Forall (fun entry => data_key (fst entry) <> k) stores ->
  forall st, getItem k (fold_left (save_store accepts) stores st) = getItem k st.
Proof.
  induction 1 as [|entry stores N _ IH]; intro st; [reflexivity|].
  cbn [fold_left]. rewrite IH. now apply save_store_untouched.
Qed.

Lemma saved_text (accepts : Quota) (storeName : string) (store : Store)
  (stores : list (string * Store)) :
  NoDup (map fst stores) ->
  In (storeName, store) stores ->
  forall st,
    accepts (saved_before accepts storeName stores st) (data_key storeName)
      (data_text (data store)) = true ->
    getItem (data_key storeName) (fold_left (save_store accepts) stores st)
    = Some (data_text (data store)).
Proof.
  induction stores as [|[n s] stores IH]; intros N I st Acc; [destruct I|].
  cbn [map fst] in N. inversion N as [|? ? N1 N2]; subst.
  cbn [fold_left]. cbn [saved_before fst] in Acc.
  destruct (String.eqb_spec n storeName) as [-> | D].
  - assert (s = store).
    { destruct I as [[= ->] | I]; [reflexivity|].
      exfalso. apply N1. now apply (in_map fst) in I. }
    subst s. rewrite save_untouched.
    + unfold save_store, setItem. cbn [fst snd]. rewrite Acc.
      unfold getItem. apply assoc_set_same.
    + apply Forall_forall. intros [n' s'] I' E. cbn [fst] in E.
      apply data_key_injective in E. subst n'. apply N1. now apply (in_map fst) in I'.
  - destruct I as [[= -> ->] | I]; [congruence|]. now apply IH.
Qed.

Lemma assoc_map_values {A B} (f : string -> A -> B) (k : string) (l : list (string * A)) :
  assoc k (map (fun e => (fst e, f (fst e) (snd e))) l) = option_map (f k) (assoc k l).
Proof.
  induction l as [|[k0 v0] l IH]; [reflexivity|]. cbn [map assoc fst snd].
  destruct (String.eqb k k0) eqn:E; [|exact IH].
  apply String.eqb_eq in E. now subst k0.
Qed.

(** The store [load_store] makes of a store. *)
Lemma load_store_keyed (st : Storage) (l : list (string * Store)) :
  map (load_store st) l
  = map (fun e => (fst e, snd (load_store st (fst e, snd e)))) l.
Proof.
  apply map_ext. intros [n s]. cbn [fst snd]. unfold load_store. cbn [fst snd].
  destruct (getItem (data_key n) st) as [saved|]; [|reflexivity].
  destruct (String.eqb saved EmptyString); [reflexivity|].
  now destruct (JSON_parse saved).
Qed.

Lemma loaded_store (storeName : string) (w : World) :
  assoc storeName (dataStores (loadAllData w))
  = option_map (fun s => snd (load_store (localStorage w) (storeName, s)))
      (assoc storeName (dataStores w)).
Proof.
  unfold loadAllData. cbn [dataStores with_dataStores]. rewrite load_store_keyed.
  apply (assoc_map_values (fun n s => snd (load_store (localStorage w) (n, s)))).
Qed.

Lemma text_not_empty (d : jsval) :
  json_value d = true -> String.eqb (data_text d) EmptyString = false.
Proof.
  intro J. destruct (json_round_trip d J) as [(c & r & E & _) _].
  unfold data_text. rewrite (stringify_text d J).
  destruct (element_text d); [discriminate E | reflexivity].
Qed.

(** X26.  Saved and loaded again, a list of records comes back as it
    was when it is made of [null], booleans, whole numbers, strings,
    arrays and objects with distinct keys (the records a first reload has
    produced, with their dates as strings, are of this kind when their
    numbers are whole) and the browser accepts the text of its store:
    [saveAllData], the loss of the lists, and [loadAllData] give the same
    data.  The stores are those of a Map: no name twice. *)
Theorem reload_keeps_json_records (storeName : string) (w : World) (d : jsval) :
  NoDup (map fst (dataStores w)) ->
  records storeName w = Some d ->
  json_value d = true ->
  save_accepted storeName w = true ->
  records storeName (reload w) = Some d.
Proof.
  intros N R J Acc. unfold records in *. unfold save_accepted in Acc.
  destruct (assoc storeName (dataStores w)) as [store|] eqn:A; [|discriminate R].
  cbn [option_map] in R. injection R as D.
  unfold reload. rewrite loaded_store.
  unfold clear_records, saveAllData.
  cbn [dataStores localStorage with_dataStores with_localStorage].
  rewrite (assoc_map_values (fun _ s => with_data s (VArr [])) storeName (dataStores w)), A.
  cbn [option_map]. unfold load_store. cbn [fst snd].
  rewrite (saved_text (localQuota w) storeName store (dataStores w) N (assoc_In _ _ _ A) _ Acc).
  rewrite D, (text_not_empty d J). unfold data_text.
  rewrite (stringify_text d J), (parse_text d J). reflexivity.
Qed.

Lemma reload_keeps_json_records_witness :
  records "sales" (reload (reload page_one_sale)) = records "sales" (reload page_one_sale).
Proof.
  apply (reload_keeps_json_records "sales" (reload page_one_sale)
           (VArr [VObj [("name", VStr "Captain A"); ("monthlyTarget", VInt 500);
                        ("mtdTarget", VInt 200); ("mtdActual", VInt 150);
                        ("id", VStr "s1");
                        ("createdAt", VStr "1970-01-01T00:00:01.000Z");
                        ("updatedAt", VStr "1970-01-01T00:00:01.000Z")]])).
  - vm_compute (map fst (dataStores (reload page_one_sale))).
    repeat (constructor; [cbn; intuition discriminate|]). constructor.
  - vm_compute. reflexivity.
  - reflexivity.
  - vm_compute. reflexivity.
Defined.

(** A save the browser refuses leaves the item of the store as it was:
    what is loaded afterwards is the text of an earlier save, if there is
    one. *)
Lemma refused_save_keeps_item (storeName : string) (w : World) :
  NoDup (map fst (dataStores w)) ->
  save_accepted storeName w = false ->
  getItem (data_key storeName) (localStorage (saveAllData w))
  = getItem (data_key storeName) (localStorage w).
Proof.
  intros N Acc. unfold saveAllData, save_accepted in *. cbn [localStorage with_localStorage].
  revert N Acc. generalize (localStorage w). generalize (localQuota w) as accepts.
  generalize (dataStores w) as stores.
  induction stores as [|[n s] stores IH]; intros accepts st N Acc; [reflexivity|].
  cbn [map fst] in N. inversion N as [|? ? N1 N2]; subst.
  cbn [fold_left]. cbn [assoc saved_before fst] in Acc.
  rewrite (String.eqb_sym storeName n) in Acc.
  destruct (String.eqb_spec n storeName) as [-> | D].
  - rewrite save_untouched.
    + unfold save_store, setItem. cbn [fst snd]. now rewrite Acc.
    + apply Forall_forall. intros [n' s'] I' E. cbn [fst] in E.
      apply data_key_injective in E. subst n'. apply N1. now apply (in_map fst) in I'.
  - rewrite (IH accepts _ N2).
    + apply save_store_untouched. cbn [fst]. intro E. now apply data_key_injective in E.
    + destruct (assoc storeName stores); [exact Acc | reflexivity].
Qed.

Lemma cache_keys_set_outside (k v : string) (st : Storage) :
  startsWith k "cache_" = false -> cache_keys (assoc_set k v st) = cache_keys st.
Proof.
  intro H. unfold cache_keys, storage_keys.
  induction st as [|[k0 v0] st IH]; cbn [assoc_set map fst filter].
  - now rewrite H.
  - destruct (String.eqb k k0) eqn:E.
    + apply String.eqb_eq in E. subst k0. reflexivity.
    + cbn [map fst filter]. now rewrite IH.
Qed.

Lemma save_cache_keys (accepts : Quota) (stores : list (string * Store)) :
  forall st, cache_keys (fold_left (save_store accepts) stores st) = cache_keys st.
Proof.
  induction stores as [|entry stores IH]; intro st; [reflexivity|].
  cbn [fold_left]. rewrite IH. unfold save_store, setItem.
  destruct (accepts st (data_key (fst entry)) (data_text (data (snd entry)))); [|reflexivity].
  apply cache_keys_set_outside. apply data_key_outside_cache.
Qed.

(** X27.  [saveAllData] leaves the cache alone.  It writes under the keys
    "data-...", which no cache entry uses: afterwards every [get] finds
    what it found before, and [getStats] counts the same entries, so that
    saving the stores never brings an eviction nearer. *)
Theorem saveAllData_keeps_the_cache (key : string) (strategy : Strategy) (now : Z) (w : World) :
  fst (get key strategy now (saveAllData w)) = fst (get key strategy now w)
  /\ getStats (saveAllData w) = getStats w
  /\ dataStores (saveAllData w) = dataStores w.
Proof.
  assert (L : getLocalStorageCache key (saveAllData w) = getLocalStorageCache key w).
  { unfold getLocalStorageCache, saveAllData. cbn [localStorage with_localStorage].
    apply read_entry_same. apply save_untouched.
    apply Forall_forall. intros entry _ E.
    pose proof (data_key_outside_cache (fst entry)) as O.
    rewrite E, cache_key_prefixed in O. discriminate O. }
  split; [|split; [|reflexivity]].
  - rewrite !get_answer.
    assert (E : lookup key strategy (saveAllData w) = lookup key strategy w);
      [|now rewrite E].
    destruct strategy; cbn [lookup]; rewrite ?L; reflexivity.
  - unfold getStats, saveAllData.
    cbn [memoryCache localStorage sessionStorage with_localStorage].
    now rewrite save_cache_keys.
Qed.

(** X28.  [loadAllData] loads what it can read and nothing else.  A
    store for which [localStorage] has no item, the empty text, or a text
    that is not JSON keeps its records; and whatever [localStorage]
    holds, every store keeps its schema, and the cache and the storages
    stay as they are. *)
Theorem loadAllData_skips_what_it_cannot_read (storeName : string) (w : World) :
  nothing_to_load storeName w ->
  assoc storeName (dataStores (loadAllData w)) = assoc storeName (dataStores w)
  /\ (forall other,
        option_map schema (assoc other (dataStores (loadAllData w)))
        = option_map schema (assoc other (dataStores w)))
  /\ memoryCache (loadAllData w) = memoryCache w
  /\ localStorage (loadAllData w) = localStorage w
  /\ sessionStorage (loadAllData w) = sessionStorage w.
Proof.
  intro H. split; [|split; [|repeat split]].
  - rewrite loaded_store. destruct (assoc storeName (dataStores w)) as [store|]; [|reflexivity].
    cbn [option_map]. f_equal. unfold load_store, nothing_to_load in *. cbn [fst snd].
    destruct (getItem (data_key storeName) (localStorage w)) as [saved|]; [|reflexivity].
    destruct H as [-> | ->]; [reflexivity|].
    now destruct (String.eqb saved EmptyString).
  - intro other. rewrite loaded_store.
    destruct (assoc other (dataStores w)) as [store|]; [|reflexivity].
    cbn [option_map]. f_equal. unfold load_store. cbn [fst snd].
    destruct (getItem (data_key other) (localStorage w)) as [saved|]; [|reflexivity].
    destruct (String.eqb saved EmptyString); [reflexivity|].
    now destruct (JSON_parse saved).
Qed.

Lemma loadAllData_skips_what_it_cannot_read_witness :
  assoc "dsr" (dataStores (loadAllData page_one_dsr)) = assoc "dsr" (dataStores page_one_dsr).
Proof.
  apply (loadAllData_skips_what_it_cannot_read "dsr" page_one_dsr). exact I.
Defined.

(** ** The memory tier under a clock that advances *)

(** X29.  [evictMemoryCache] picks a least recently accessed entry: in a
    tier that is not empty and whose entries were all last accessed
    before the present reading of the clock, it picks an entry whose
    [lastAccess] no other entry is below.  When the key of that entry is
    not the empty string, this entry is deleted and every other entry
    stays; when it is the empty string, [if (oldestKey)] skips the
    delete and the page stays as it is. *)
Theorem eviction_takes_least_recent (now : Z) (w : World) :
  accessed_before now (memoryCache w) ->
  memoryCache w <> [] ->
  exists key entry,
    In (key, entry) (memoryCache w)
    /\ Forall (fun kv => lastAccess entry <= lastAccess (snd kv)) (memoryCache w)
    /\ (key <> EmptyString ->
        memoryCache (evictMemoryCache now w) = assoc_remove key (memoryCache w)
        /\ S (List.length (memoryCache (evictMemoryCache now w))) = List.length (memoryCache w))
    /\ (key = EmptyString -> evictMemoryCache now w = w).
Proof.
  intros Hs Hne. unfold evictMemoryCache, oldest.
  destruct (oldest_scan (memoryCache w) (None, now)) as [[_ Hall] | (k & Hk & Hin)].
  - exfalso. destruct (memoryCache w) as [|kv m]; [congruence|].
    inversion Hall; subst. inversion Hs; subst. cbn [snd] in *. lia.
  - destruct (oldest_is_least (memoryCache w) (None, now) k Hk eq_refl) as (e & I & _ & L).
    exists k, e. rewrite Hk.
    split; [exact I|]. split; [exact L|]. split.
    + intro N. apply String.eqb_neq in N. rewrite N. cbn [memoryCache with_memoryCache].
      split; [reflexivity | now apply assoc_remove_length].
    + intros ->. reflexivity.
Qed.

Lemma eviction_takes_least_recent_witness :
  exists key entry,
    In (key, entry) (memoryCache page_shadowed_k)
    /\ Forall (fun kv => lastAccess entry <= lastAccess (snd kv)) (memoryCache page_shadowed_k)
    /\ (key <> EmptyString ->
        memoryCache (evictMemoryCache 5000 page_shadowed_k)
        = assoc_remove key (memoryCache page_shadowed_k)
        /\ S (List.length (memoryCache (evictMemoryCache 5000 page_shadowed_k)))
           = List.length (memoryCache page_shadowed_k))
    /\ (key = EmptyString -> evictMemoryCache 5000 page_shadowed_k = page_shadowed_k).
Proof.
  apply (eviction_takes_least_recent 5000 page_shadowed_k).
  - vm_compute (memoryCache page_shadowed_k). repeat constructor; cbn; lia.
  - vm_compute (memoryCache page_shadowed_k). discriminate.
Defined.

(** An entry under the empty string is never evicted, and stands in the
    way of every other eviction while it is the oldest: after
    [set('', ...)] and a hundred further [set]s, each a millisecond
    later, the Map holds 101 entries. *)
Example unnamed_entry_is_never_evicted :
  List.length (memoryCache page_unnamed_first) = 101%nat
  /\ getMemoryCache EmptyString page_unnamed_first <> None
  /\ memoryCache (evictMemoryCache 6000 page_unnamed_first) = memoryCache page_unnamed_first.
Proof.
  split; [vm_compute; reflexivity|]. split; [vm_compute; discriminate|].
  vm_compute. reflexivity.
Qed.

Lemma from_memory_shared (key : string) (w : World) (k : string) (e : CacheEntry) :
  from_memory key w = Some (Shared k e) -> In (k, e) (memoryCache w).
Proof.
  unfold from_memory, getMemoryCache.
  destruct (assoc key (memoryCache w)) as [e0|] eqn:A; [|discriminate].
  cbn [option_map]. intros [= <- <-]. now apply assoc_In.
Qed.

Lemma lookup_shared (key : string) (strategy : Strategy) (w : World) (k : string)
  (e : CacheEntry) :
  lookup key strategy w = Some (Shared k e) -> In (k, e) (memoryCache w).
Proof.
  assert (St : forall v, from_storage v <> Some (Shared k e)).
  { intros v F. apply from_storage_hit in F. destruct F as [F _]. discriminate F. }
  destruct strategy; cbn [lookup]; intro L; try discriminate L;
    try (now apply (from_memory_shared key)); try (now apply St in L).
  destruct (from_memory key w) as [h|] eqn:F.
  - cbn [or_else] in L. injection L as ->. now apply (from_memory_shared key).
  - cbn [or_else] in L.
    destruct (from_storage (getSessionStorageCache key w)) as [h|] eqn:F'.
    + cbn [or_else] in L. injection L as ->. now apply St in F'.
    + cbn [or_else] in L. now apply St in L.
Qed.

Lemma set_memory_step (key : string) (e : CacheEntry) (now : Z) (w : World) :
  lastAccess e = now -> key <> EmptyString ->
  settled now (memoryCache w) ->
  (List.length (memoryCache w) <= memory_maxSize)%nat ->
  settled (now + 1) (memoryCache (setMemoryCache key e now w))
  /\ (List.length (memoryCache (setMemoryCache key e now w)) <= memory_maxSize)%nat.
Proof.
  intros La Hk Hs Hl. split; [|now apply setMemoryCache_within_capacity].
  unfold setMemoryCache.
  destruct (memory_maxSize <=? List.length (memoryCache w))%nat;
    cbn [memoryCache with_memoryCache]; apply settled_set; try lia; try exact Hk.
  - apply (settled_later now); [lia|].
    unfold evictMemoryCache. destruct (fst (oldest now (memoryCache w))) as [k0|]; [|exact Hs].
    destruct (String.eqb k0 EmptyString); [exact Hs|].
    cbn [memoryCache with_memoryCache]. now apply settled_remove.
  - apply (settled_later now); [lia | exact Hs].
Qed.

Lemma storage_sets_keep_memory (key : string) (e : CacheEntry) (w : World) :
  memoryCache (setLocalStorageCache key e w) = memoryCache w
  /\ memoryCache (setSessionStorageCache key e w) = memoryCache w.
Proof.
  rewrite setLocalStorageCache_page, setSessionStorageCache_page. split; reflexivity.
Qed.

Lemma call_step (c : CacheCall) (now : Z) (w : World) :
  sets_a_named_key c ->
  settled now (memoryCache w) ->
  (List.length (memoryCache w) <= memory_maxSize)%nat ->
  settled (now + 1) (memoryCache (call c now w))
  /\ (List.length (memoryCache (call c now w)) <= memory_maxSize)%nat.
Proof.
  intros Hk Hs Hl.
  assert (Same : settled (now + 1) (memoryCache w)
                 /\ (List.length (memoryCache w) <= memory_maxSize)%nat)
    by (split; [apply (settled_later now); [lia | exact Hs] | exact Hl]).
  destruct c as [key v options | key strategy | | ]; cbn [call].
  - unfold set.
    set (e := {| value := serialize v; timestamp := now; ttl := _; priority := _;
                 accessCount := 0; lastAccess := now |}).
    assert (La : lastAccess e = now) by reflexivity.
    destruct (storage_sets_keep_memory key e w) as [Ml Ms].
    destruct (match opt_strategy options with Some s => s | None => SAuto end); cbn [run].
    + now apply set_memory_step.
    + now rewrite Ml.
    + now rewrite Ms.
    + unfold setAutoCache. destruct (dataSize e) as [size|]; cbn [read bind run]; [|exact Same].
      destruct (size <? 1024); [now apply set_memory_step|].
      destruct (size <? 10240); cbn [run]; [now rewrite Ms | now rewrite Ml].
    + exact Same.
  - destruct (get_page key strategy now w) as [-> | (h & h' & L & _ & T & ->)]; [exact Same|].
    destruct h as [k e | v]; cbn [touch] in T.
    2:{ destruct (ToNumber (member v "accessCount")); [|discriminate T].
        cbn [bind] in T. injection T as <-. exact Same. }
    injection T as <-. cbn [commit].
    pose proof (lookup_shared key strategy w k e L) as I.
    cbn [memoryCache with_memoryCache]. split.
    + apply settled_set; cbn [lastAccess]; [lia | | apply Same].
      unfold settled in Hs. rewrite Forall_forall in Hs. apply (Hs (k, e) I).
    + rewrite assoc_set_length.
      destruct (assoc k (memoryCache w)) eqn:A; [exact Hl|].
      exfalso. apply (in_map fst) in I. apply assoc_keyed in I. destruct I as [x I].
      cbn [fst] in I. congruence.
  - unfold cleanup. cbn [memoryCache with_memoryCache with_localStorage with_sessionStorage].
    destruct Same as [S1 S2]. split.
    + unfold settled in *. rewrite Forall_forall in *. intros kv I.
      apply filter_In in I. now apply S1.
    + eapply Nat.le_trans; [apply filter_length_le | exact S2].
  - unfold clear. cbn [memoryCache with_memoryCache with_localStorage with_sessionStorage].
    split; [constructor | cbn; lia].
Qed.

Lemma settled_when_named (now : Z) (w : World) :
  accessed_before now (memoryCache w) ->
  getMemoryCache EmptyString w = None ->
  settled now (memoryCache w).
Proof.
  unfold accessed_before, settled, getMemoryCache. intros B N.
  rewrite Forall_forall in *. intros kv I. split; [now apply B|].
  intro E. apply (in_map fst) in I. rewrite E in I.
  apply assoc_keyed in I. destruct I as [x I]. congruence.
Qed.

Lemma run_calls_within_capacity (calls : list (CacheCall * Z)) :
  forall (t : Z) (w : World),
    advancing t (map snd calls) ->
    Forall (fun c => sets_a_named_key (fst c)) calls ->
    settled (t + 1) (memoryCache w) ->
    (List.length (memoryCache w) <= memory_maxSize)%nat ->
    (List.length (memoryCache (run_calls calls w)) <= memory_maxSize)%nat.
Proof.
  induction calls as [|[c now] calls IH]; intros t w T K Hs Hl; [exact Hl|].
  cbn [map snd advancing] in T. destruct T as (Lt & T).
  inversion K as [|? ? Hk K']; subst. cbn [fst] in Hk.
  unfold run_calls. cbn [fold_left fst snd]. fold (run_calls calls (call c now w)).
  assert (Hnow : settled now (memoryCache w))
    by (apply (settled_later (t + 1)); [lia | exact Hs]).
  destruct (call_step c now w Hk Hnow Hl) as [S1 S2].
  now apply (IH now).
Qed.

(** X30.  Under a clock that advances between calls, and as long as no
    entry is set under the empty string as key, the memory tier stays
    within its capacity: from a tier within its capacity, with no entry
    under the empty string and every entry last accessed before the
    first call, any run of [set] (on any strategy, under any key but the
    empty string), [get], [cleanup] and [clear] leaves a page on which
    [getStats] reports a size of the memory tier that is at most its
    [maxSize].  (An entry under the empty string is never evicted: see
    [unnamed_entry_is_never_evicted].) *)
Theorem memory_tier_within_capacity (calls : list (CacheCall * Z)) (t : Z) (w : World) :
  advancing t (map snd calls) ->
  Forall (fun c => sets_a_named_key (fst c)) calls ->
  accessed_before (t + 1) (memoryCache w) ->
  getMemoryCache EmptyString w = None ->
  (List.length (memoryCache w) <= memory_maxSize)%nat ->
  (tier_size (stats_memory (getStats (run_calls calls w)))
   <= tier_maxSize (stats_memory (getStats (run_calls calls w))))%nat.
Proof.
  intros T K B N Hl.
  apply (run_calls_within_capacity calls t w T K); [|exact Hl].
  now apply settled_when_named.
Qed.

Lemma memory_tier_within_capacity_witness :
  Nat.le
    (tier_size (stats_memory (getStats
       (run_calls [(CallSet "a" (VInt 1) no_options, 10); (CallGet "a" SAuto, 11);
                   (CallCleanup, 12); (CallSet "b" (VInt 2) memory_options, 13)]
          initial_world))))
    (tier_maxSize (stats_memory (getStats
       (run_calls [(CallSet "a" (VInt 1) no_options, 10); (CallGet "a" SAuto, 11);
                   (CallCleanup, 12); (CallSet "b" (VInt 2) memory_options, 13)]
          initial_world)))).
Proof.
  apply (memory_tier_within_capacity
           [(CallSet "a" (VInt 1) no_options, 10); (CallGet "a" SAuto, 11);
            (CallCleanup, 12); (CallSet "b" (VInt 2) memory_options, 13)] 9 initial_world).
  - cbn. repeat split; lia.
  - repeat constructor; discriminate.
  - constructor.
  - reflexivity.
  - cbn. lia.
Defined.
